(** * Paperly: the server and the client of the paper search

    A shallow embedding of the Express server of the repository (the
    handlers of [/papers], [/related] and [/summarize], the source adapters
    and the two helper functions [normalizeSource] and [assignBadges]) and
    of the pure functions of the React client ([formatSourceName],
    [formatSummary], the source filter and the sort modes), with the
    properties of them that the specification states and further ones read
    off the code.

    Conventions of the embedding.
    - Text is a [string] of bytes.  [toLowerCase] and [toUpperCase] act on
      the ASCII letters and leave every other byte alone.
    - A JavaScript array that is shared between variables lives in a heap of
      arrays and is named by a reference; [Array.prototype.sort] updates the
      heap cell, so every alias sees the sorted array.
    - [topicCache] is a plain object: a finite map of own properties over
      the properties every object inherits from [Object.prototype].
    - The provider payloads are typed: a field is absent or has the type the
      adapter reads it at.  The two values that the code uses as texts
      outside every [try] without checking them, the publisher text of a
      Springer record and the summary of a [/summarize] body, are also
      modelled with any JSON type.  What a provider answers is a parameter
      of the handlers ([World]); the year read from the clock is another.
    - The handler of [/papers] is asynchronous: besides the runs in which
      each request is served before the next arrives, the runs in which
      requests overlap are modelled ([happen]).
    - A number of the trending score is an IEEE 754 double, with the
      arithmetic of [SpecFloat] at precision 53.  [Math.log] is what
      ECMAScript fixes of it; the approximation the engine returns for the
      other arguments is a parameter ([engine_log] of [World]).
    - The TF-IDF weight computed by the [natural] package is a parameter
      with rational values.
    - The text Gemini generates is a sequence of UTF-16 code units, so that
      the white space of [\s] and of [trim] is exact; what Gemini answers is
      a parameter of the handler.
    - The comparator of the client's "Relevance" sort and [localeCompare]
      are parameters of [applyFilterAndSort]. *)

From Stdlib Require Import ZArith NArith QArith Lia Ascii String SpecFloat.
From Stdlib Require Import Permutation Sorted.
From stdpp Require Import gmap strings list.

Local Open Scope Z_scope.
Local Open Scope string_scope.
Local Open Scope list_scope.

(** ** Text *)

Module Text.

(** [c.toLowerCase()] of one ASCII character. *)
Definition lower_char (c : ascii) : ascii :=
  let n := nat_of_ascii c in
  if ((65 <=? n) && (n <=? 90))%nat then ascii_of_nat (n + 32) else c.

(** [c.toUpperCase()] of one ASCII character. *)
Definition upper_char (c : ascii) : ascii :=
  let n := nat_of_ascii c in
  if ((97 <=? n) && (n <=? 122))%nat then ascii_of_nat (n - 32) else c.

(** [s.toLowerCase()] *)
Fixpoint toLowerCase (s : string) : string :=
  match s with
  | EmptyString => EmptyString
  | String c r => String (lower_char c) (toLowerCase r)
  end.

(** [s.toUpperCase()] *)
Fixpoint toUpperCase (s : string) : string :=
  match s with
  | EmptyString => EmptyString
  | String c r => String (upper_char c) (toUpperCase r)
  end.

(** [s.startsWith(p)] *)
Fixpoint startsWith (p s : string) : bool :=
  match p, s with
  | EmptyString, _ => true
  | String a p', String b s' => if Ascii.eqb a b then startsWith p' s' else false
  | String _ _, EmptyString => false
  end.

(** [s.includes(needle)]: [needle] starts at some position of [s]. *)
Fixpoint includes (needle s : string) : bool :=
  if startsWith needle s then true
  else match s with
       | EmptyString => false
       | String _ r => includes needle r
       end.

(** [s.charAt(0)]: the first character as a string, empty for the empty
    string. *)
Definition charAt0 (s : string) : string :=
  match s with
  | EmptyString => EmptyString
  | String c _ => String c EmptyString
  end.

(** [s.slice(1)] *)
Definition slice1 (s : string) : string :=
  match s with
  | EmptyString => EmptyString
  | String _ r => r
  end.

(** The truthiness of a string: the empty string is falsy. *)
Definition truthy (s : string) : bool :=
  match s with
  | EmptyString => false
  | String _ _ => true
  end.

End Text.

Import Text.

(** [x || d] for an optional text [x]: the default replaces a missing and an
    empty text alike. *)
Definition or_text (x : option string) (d : string) : string :=
  match x with
  | Some s => if truthy s then s else d
  | None => d
  end.

(** [x || 0] for an optional integer. *)
Definition or_zero (x : option Z) : Z := default 0 x.

(** [x || 0] for an optional count. *)
Definition or_zeroN (x : option N) : N := default 0%N x.

(** ** The Paper record *)

Record Paper : Type := mkPaper {
  title : string;
  summary : string;
  link : string;
  authors : list string;
  source : string;
  year : Z;
  citations : N;
  tags : list string
}.

(** ** normalizeSource *)

(** The table of [normalizeSource], in the order of its tests. *)
Definition source_table : list (string * string) :=
  [ ("arxiv", "arXiv"); ("openalex", "OpenAlex"); ("ieee", "IEEE");
    ("springer", "Springer"); ("elsevier", "Elsevier"); ("acm", "ACM") ].

(** [source.charAt(0).toUpperCase() + source.slice(1)] *)
Definition capitalize (s : string) : string :=
  String.append (toUpperCase (charAt0 s)) (slice1 s).

(** [normalizeSource(source)]; [None] is a missing ([undefined], [null])
    argument. *)
Definition normalizeSource (source : option string) : string :=
  match source with
  | None => "Unknown"
  | Some raw =>
      if negb (truthy raw) then "Unknown"
      else
        let source := toLowerCase raw in
        if includes "arxiv" source then "arXiv"
        else if includes "openalex" source then "OpenAlex"
        else if includes "ieee" source then "IEEE"
        else if includes "springer" source then "Springer"
        else if includes "elsevier" source then "Elsevier"
        else if includes "acm" source then "ACM"
        else capitalize source
  end.

(** ** assignBadges *)

(** [assignBadges(p)]; [currentYear] is [new Date().getFullYear()]. *)
Definition assignBadges (currentYear : Z) (p : Paper) : list string :=
  let badges := [] in
  let badges :=
    if (50 <=? citations p)%N then badges ++ ["Highly Cited"] else badges in
  let badges :=
    if includes "arxiv" (toLowerCase (source p))
    then badges ++ ["Open Access"] else badges in
  let badges :=
    if (currentYear - 1 <=? year p)%Z then badges ++ ["New"] else badges in
  badges.


(** [{ ...p, tags: t }] *)
Definition with_tags (p : Paper) (t : list string) : Paper :=
  {| title := title p; summary := summary p; link := link p;
     authors := authors p; source := source p; year := year p;
     citations := citations p; tags := t |}.

(** ** Array.prototype.sort *)

(** [arr.sort(compare)] is a stable sort: with a consistent comparator its
    result is the one stable arrangement, computed here by stable insertion.
    [after a b] says that [compare(a, b)] is positive, which places [a]
    after [b]. *)
Section Sort.
Context {A : Type}.
Variable after : A -> A -> bool.

Fixpoint sort_insert (x : A) (l : list A) : list A :=
  match l with
  | [] => [x]
  | y :: l' => if after x y then y :: sort_insert x l' else x :: y :: l'
  end.

Definition js_sort (l : list A) : list A := foldr sort_insert [] l.
End Sort.

(** ** Numbers *)

(** A JavaScript number is an IEEE 754 double: the binary format of
    precision 53 whose infinities have exponent 1024, rounded to nearest
    with ties to even. *)
Module Double.

Definition prec : Z := 53.
Definition emax : Z := 1024.

(** The number written as the integer [z]: the double nearest to it. *)
Definition of_Z (z : Z) : spec_float := binary_normalize prec emax z 0 false.

(** [x + y], [x - y] and [x * y] *)
Definition add : spec_float -> spec_float -> spec_float := SFadd prec emax.
Definition sub : spec_float -> spec_float -> spec_float := SFsub prec emax.
Definition mul : spec_float -> spec_float -> spec_float := SFmul prec emax.

(** [0], [1] and [-0.5] *)
Definition zero : spec_float := S754_zero false.
Definition one : spec_float := S754_finite false 4503599627370496 (-52).
Definition minus_half : spec_float := S754_finite true 4503599627370496 (-53).

(** [x > 0] *)
Definition is_positive (x : spec_float) : bool := SFltb zero x.

Definition is_nan (x : spec_float) : bool :=
  match x with
  | S754_nan => true
  | _ => false
  end.

(** [Math.log(x)].  ECMAScript fixes the result for NaN, the infinities,
    the zeros, the negative numbers and 1; for any other [x] the result is
    an approximation of the engine's choosing: [engine x] gives it as an
    integer [m] and an exponent [e], and the result is the double nearest
    to [m * 2^e]. *)
Definition Math_log (engine : spec_float -> Z * Z) (x : spec_float)
  : spec_float :=
  match x with
  | S754_nan => S754_nan
  | S754_infinity false => x
  | S754_infinity true => S754_nan
  | S754_zero _ => S754_infinity true
  | S754_finite true _ _ => S754_nan
  | S754_finite false _ _ =>
      if SFeqb x one then zero
      else let '(m, e) := engine x in binary_normalize prec emax m e false
  end.

(** The value of a number that is not NaN: an infinity, or the multiple of
    2^-1074, the least positive double, that a finite number is. *)
Inductive extended : Type :=
| MinusInfinity
| Finite (units : Z)
| PlusInfinity.

Definition value (x : spec_float) : option extended :=
  match x with
  | S754_nan => None
  | S754_infinity true => Some MinusInfinity
  | S754_infinity false => Some PlusInfinity
  | S754_zero _ => Some (Finite 0)
  | S754_finite s m e => Some (Finite (cond_Zopp s (Zpos m * 2 ^ (e + 1074))))
  end.

Definition extended_ltb (a b : extended) : bool :=
  match a, b with
  | MinusInfinity, MinusInfinity => false
  | MinusInfinity, _ => true
  | Finite _, MinusInfinity => false
  | Finite x, Finite y => (x <? y)%Z
  | Finite _, PlusInfinity => true
  | PlusInfinity, _ => false
  end.

(** The value of [x] is less than the value of [y]; NaN is below nothing
    and nothing is below NaN. *)
Definition below (x y : spec_float) : bool :=
  match value x, value y with
  | Some a, Some b => extended_ltb a b
  | _, _ => false
  end.

(** The exponent of a finite number is at least that of the least positive
    double. *)
Definition wf (x : spec_float) : Prop :=
  match x with
  | S754_finite _ _ e => (-1074 <= e)%Z
  | _ => True
  end.

(** A number that is finite and not zero, or infinite, with the sign. *)
Definition signed (s : bool) (x : spec_float) : Prop :=
  match x with
  | S754_finite s' _ _ => s' = s
  | S754_infinity s' => s' = s
  | _ => False
  end.

End Double.

(** ** Rounding to the nearest double *)

Section Rounding.
Local Open Scope Z_scope.

(** The integer nearest to [m / 2^n], the even one of two nearest. *)
Definition round_quotient (m n : Z) : Z :=
  let q := m / 2 ^ n in
  let r := m mod 2 ^ n in
  if 2 * r <? 2 ^ n then q
  else if 2 ^ n <? 2 * r then q + 1
  else if Z.even q then q else q + 1.

(** What [k] steps of [shr_1] leave of [m]: the quotient by [2^k], and in
    the two flags the place of the remainder with respect to the half. *)
Definition shr_inv (m k : Z) (mrs : shr_record) : Prop :=
  shr_m mrs = m / 2 ^ k /\
  match shr_r mrs, shr_s mrs with
  | false, false => m mod 2 ^ k = 0
  | false, true => 0 < m mod 2 ^ k /\ 2 * (m mod 2 ^ k) < 2 ^ k
  | true, false => 2 * (m mod 2 ^ k) = 2 ^ k
  | true, true => 2 ^ k < 2 * (m mod 2 ^ k)
  end.

(** The double of sign [s], mantissa [M] and exponent [E], for a mantissa
    that is at most 2^53 after rounding: the mantissa 2^53 is written with
    the next exponent, and an exponent above 971 gives an infinity. *)
Definition pack (s : bool) (M E : Z) : spec_float :=
  match M with
  | Z0 => S754_zero s
  | Zpos p =>
      if M <? 2 ^ 53
      then (if E <=? 971 then S754_finite s p E else S754_infinity s)
      else (if E + 1 <=? 971 then S754_finite s (Z.to_pos (M / 2)) (E + 1)
            else S754_infinity s)
  | Zneg _ => S754_nan
  end.

(** [a] units of 2^k rounded to 53 significant bits, or to a multiple of
    2^-1074 when that is coarser, in units of 2^-1074; [t] is [-1074 - k]. *)
Definition rounded_units (t a : Z) : Z :=
  let n := Z.max (Z.log2 a + 1 - 53) t in
  round_quotient a n * 2 ^ (n - t).

(** [u] units of 2^-1074 with the sign [s], as a value: an infinity from
    2^1024 on. *)
Definition clamp (s : bool) (u : Z) : Double.extended :=
  if u <? 2 ^ 2098 then Double.Finite (cond_Zopp s u)
  else if s then Double.MinusInfinity else Double.PlusInfinity.

(** The value of the double nearest to [a] units of 2^k, where [t] is
    [-1074 - k]. *)
Definition round_value (t a : Z) : Double.extended :=
  match a with
  | Z0 => Double.Finite 0
  | Zpos _ => clamp false (rounded_units t a)
  | Zneg _ => clamp true (rounded_units t (- a))
  end.

(** A number that is the double nearest to itself: a result of rounding. *)
Definition rounded (x : spec_float) : Prop :=
  forall u, Double.value x = Some (Double.Finite u) ->
            round_value 0 u = Double.Finite u.

(** [x <= y], or one of the two is NaN. *)
Definition leq (x y : spec_float) : Prop := Double.below y x = false.

(** The values of [x + y], [x - y] and [x * -0.5] from the values of [x]
    and [y]; [None] is NaN. *)
Definition ext_add (a b : Double.extended) : option Double.extended :=
  match a, b with
  | Double.Finite u, Double.Finite v => Some (round_value 0 (u + v))
  | Double.PlusInfinity, Double.MinusInfinity => None
  | Double.MinusInfinity, Double.PlusInfinity => None
  | Double.PlusInfinity, _ => Some Double.PlusInfinity
  | Double.MinusInfinity, _ => Some Double.MinusInfinity
  | Double.Finite _, _ => Some b
  end.

Definition ext_opp (a : Double.extended) : Double.extended :=
  match a with
  | Double.MinusInfinity => Double.PlusInfinity
  | Double.Finite u => Double.Finite (- u)
  | Double.PlusInfinity => Double.MinusInfinity
  end.

Definition ext_sub (a b : Double.extended) : option Double.extended :=
  match a, b with
  | Double.Finite u, Double.Finite v => Some (round_value 0 (u - v))
  | Double.PlusInfinity, Double.PlusInfinity => None
  | Double.MinusInfinity, Double.MinusInfinity => None
  | Double.PlusInfinity, _ => Some Double.PlusInfinity
  | Double.MinusInfinity, _ => Some Double.MinusInfinity
  | Double.Finite _, _ => Some (ext_opp b)
  end.

Definition ext_half_opp (a : Double.extended) : Double.extended :=
  match a with
  | Double.MinusInfinity => Double.PlusInfinity
  | Double.Finite u => round_value 53 (- u * 2 ^ 52)
  | Double.PlusInfinity => Double.MinusInfinity
  end.

End Rounding.

(** An engine whose [Math.log] keeps the order of its arguments. *)
Definition monotone_log (log : spec_float -> Z * Z) : Prop :=
  forall x y : spec_float,
    Double.wf x -> Double.wf y -> leq x y ->
    leq (Double.Math_log log x) (Double.Math_log log y).

(** ** The trending score *)

(** The truthiness of a number that is not NaN: zero is falsy. *)
Definition truthy_num (z : Z) : bool := negb (z =? 0)%Z.

(** [Math.log(a.citations+1) + (a.year ? (currentYear-a.year)*-0.5 : 0)];
    [log] is the engine's approximation of the logarithm. *)
Definition trending_score (log : spec_float -> Z * Z) (currentYear : Z)
    (a : Paper) : spec_float :=
  Double.add
    (Double.Math_log log
       (Double.add (Double.of_Z (Z.of_N (citations a))) Double.one))
    (if truthy_num (year a)
     then Double.mul (Double.sub (Double.of_Z currentYear)
                                 (Double.of_Z (year a)))
                     Double.minus_half
     else Double.zero).

(** The comparator of the trending sort, [scoreB - scoreA], is positive. *)
Definition trending_after (log : spec_float -> Z * Z) (currentYear : Z)
    (a b : Paper) : bool :=
  let scoreA := trending_score log currentYear a in
  let scoreB := trending_score log currentYear b in
  Double.is_positive (Double.sub scoreB scoreA).

(** [allPapers.sort((a,b) => scoreB - scoreA)] *)
Definition rank (log : spec_float -> Z * Z) (currentYear : Z)
    (allPapers : list Paper) : list Paper :=
  js_sort (trending_after log currentYear) allPapers.

(** ** Exceptions *)

Inductive outcome (A : Type) : Type :=
| Returned (a : A)
| Thrown (message : string).
Arguments Returned {A} a.
Arguments Thrown {A} message.

(** Sequencing: a throw skips the rest. *)
#[global] Instance outcome_bind : MBind outcome := fun A B k m =>
  match m with
  | Returned a => k a
  | Thrown e => Thrown e
  end.

(** [l.map(f)] for an [f] that may throw: the first throw ends the map. *)
Fixpoint map_throwing {A B : Type} (f : A -> outcome B) (l : list A)
  : outcome (list B) :=
  match l with
  | [] => Returned []
  | a :: l' => b ← f a; bs ← map_throwing f l'; Returned (b :: bs)
  end.

(** [safeFetch(fn)]: [try { return await fn(); } catch(err) { return []; }] *)
Definition safeFetch (fn : outcome (list Paper)) : list Paper :=
  match fn with
  | Returned papers => papers
  | Thrown _ => []
  end.

(** ** Requests and provider answers *)

(** A GET request: the address and the query parameters it carries. *)
Record Request : Type := mkRequest {
  url : string;
  params : list (string * string)
}.

(** What [axios.get] does with a request: it rejects (no connection, a
    timeout, a status outside 2xx such as a refused credential) or resolves
    with [data], which is absent when the body is empty. *)
Inductive reply (B : Type) : Type :=
| Rejected (message : string)
| Resolved (data : option B).
Arguments Rejected {B} message.
Arguments Resolved {B} data.

(** [(await axios.get(..)).data] *)
Definition axios_get {B : Type} (r : reply B) : outcome (option B) :=
  match r with
  | Rejected e => Thrown e
  | Resolved d => Returned d
  end.

(** [data.field]: reading a property of [undefined] throws a TypeError. *)
Definition property_of {B C : Type} (data : option B) (field : B -> C)
  : outcome C :=
  match data with
  | Some b => Returned (field b)
  | None => Thrown "TypeError: Cannot read properties of undefined"
  end.

(** *** OpenAlex *)

Record OpenAlexAuthorship : Type := {
  oa_author : option string  (* a.author, given by its display_name *)
}.

Record OpenAlexWork : Type := {
  oa_title : option string;
  oa_abstract : option string;
  oa_id : option string;
  oa_authorships : option (list OpenAlexAuthorship);
  oa_host_venue : option string;  (* p.host_venue?.display_name *)
  oa_publication_year : option Z;
  oa_cited_by_count : option N
}.

Record OpenAlexData : Type := { oa_results : option (list OpenAlexWork) }.

(** *** arXiv: the Atom feed, seen as the successive matches of the entry
    pattern, each with the trimmed captures of the title, summary and id
    patterns (absent when the pattern does not match) and the captures of
    the name pattern. *)

Record ArxivEntry : Type := {
  ax_title : option string;
  ax_summary : option string;
  ax_id : option string;
  ax_names : list string
}.

(** *** Semantic Scholar *)

Record SemanticPaper : Type := {
  ss_title : option string;
  ss_abstract : option string;
  ss_url : option string;
  ss_authors : option (list string);  (* the names of p.authors *)
  ss_venue : option string;
  ss_year : option Z;
  ss_citationCount : option N
}.

Record SemanticData : Type := { ss_data : option (list SemanticPaper) }.

(** *** Springer *)

Record SpringerRecord : Type := {
  sp_title : option string;
  sp_abstract : option string;       (* p.abstract?.text *)
  sp_creators : option (list string);  (* the creator of each of p.creators *)
  sp_publisher : option string;      (* p.publisher?.text *)
  sp_url : option (list (option string));  (* p.url, each entry by its value *)
  sp_onlineDate : option Z;  (* parseInt(p.onlineDate?.split("-")[0]), absent for NaN *)
  sp_subjects : option (list string)
}.

Record SpringerData : Type := { sp_records : option (list SpringerRecord) }.

(** *** The outside world of one request *)

Record World : Type := {
  engine_log : spec_float -> Z * Z;  (* the approximation behind Math.log *)
  SPRINGER_API_KEY : option string;  (* process.env.SPRINGER_API_KEY *)
  openalex_api : Request -> reply OpenAlexData;
  arxiv_api : Request -> reply (list ArxivEntry);
  semantic_api : Request -> reply SemanticData;
  springer_api : Request -> reply SpringerData
}.

(** ** The source adapters *)

(** The request of the OpenAlex adapter:
    [https://api.openalex.org/works?search=<topic>&per_page=5]. *)
Definition openalex_request (topic : string) : Request :=
  {| url := "https://api.openalex.org/works";
     params := [("search", topic); ("per_page", "5")] |}.

(** The request of the arXiv adapter:
    [http://export.arxiv.org/api/query?search_query=all:<topic>&start=0&max_results=5]. *)
Definition arxiv_request (topic : string) : Request :=
  {| url := "http://export.arxiv.org/api/query";
     params := [("search_query", String.append "all:" topic); ("start", "0");
                ("max_results", "5")] |}.

(** The request of the Semantic Scholar adapter. *)
Definition semantic_request (topic : string) : Request :=
  {| url := "https://api.semanticscholar.org/graph/v1/paper/search";
     params := [("query", topic); ("limit", "5");
                ("fields", "title,abstract,url,venue,citationCount,year,authors")] |}.

(** The request of [fetchSpringer]: [params: { api_key, q }]; a parameter
    that is [undefined] is not sent. *)
Definition springer_request (key : option string) (topic : string) : Request :=
  {| url := "https://api.springernature.com/openaccess/json";
     params := match key with
               | Some k => [("api_key", k)]
               | None => []
               end ++ [("q", String.append "keyword:" topic)] |}.

(** One OpenAlex work as a Paper; [a.author.display_name] throws when an
    authorship has no author. *)
Definition openalex_paper (p : OpenAlexWork) : outcome Paper :=
  names ← match oa_authorships p with
          | Some l =>
              map_throwing
                (fun a => property_of (oa_author a) (fun name => name)) l
          | None => Returned []
          end;
  Returned
    {| title := or_text (oa_title p) "No title";
       summary := or_text (oa_abstract p) "No abstract";
       link := or_text (oa_id p) "#";
       authors := names;
       source := normalizeSource (Some (or_text (oa_host_venue p) "OpenAlex"));
       year := or_zero (oa_publication_year p);
       citations := or_zeroN (oa_cited_by_count p);
       tags := [] |}.

(** The function given to [safeFetch] for OpenAlex. *)
Definition openalex_body (w : World) (topic : string) : outcome (list Paper) :=
  data ← axios_get (openalex_api w (openalex_request topic));
  results ← property_of data oa_results;
  map_throwing openalex_paper (default [] results).

Definition fetchOpenAlex (w : World) (topic : string) : list Paper :=
  safeFetch (openalex_body w topic).

(** One arXiv entry as a Paper. *)
Definition arxiv_paper (e : ArxivEntry) : Paper :=
  {| title := or_text (ax_title e) "No title";
     summary := or_text (ax_summary e) "No abstract";
     link := or_text (ax_id e) "#";
     authors := ax_names e;
     source := "arXiv"; year := 0; citations := 0%N; tags := [] |}.

(** The function given to [safeFetch] for arXiv: the loop over the matches
    of the entry pattern; absent data has no match. *)
Definition arxiv_body (w : World) (topic : string) : outcome (list Paper) :=
  data ← axios_get (arxiv_api w (arxiv_request topic));
  Returned (map arxiv_paper (default [] data)).

Definition fetchArxiv (w : World) (topic : string) : list Paper :=
  safeFetch (arxiv_body w topic).

(** One Semantic Scholar paper as a Paper. *)
Definition semantic_paper (p : SemanticPaper) : Paper :=
  {| title := or_text (ss_title p) "No title";
     summary := or_text (ss_abstract p) "No abstract";
     link := or_text (ss_url p) "#";
     authors := default [] (ss_authors p);
     source := normalizeSource (Some (or_text (ss_venue p) "Semantic Scholar"));
     year := or_zero (ss_year p);
     citations := or_zeroN (ss_citationCount p);
     tags := [] |}.

(** The function given to [safeFetch] for Semantic Scholar. *)
Definition semantic_body (w : World) (topic : string) : outcome (list Paper) :=
  data ← axios_get (semantic_api w (semantic_request topic));
  papers ← property_of data ss_data;
  Returned (map semantic_paper (default [] papers)).

Definition fetchSemantic (w : World) (topic : string) : list Paper :=
  safeFetch (semantic_body w topic).

(** One Springer record as a Paper; [p.url[0]] throws when the record has
    no [url]. *)
Definition springer_paper (p : SpringerRecord) : outcome Paper :=
  first ← property_of (sp_url p) (fun entries => entries !! 0%nat);
  Returned
    {| title := or_text (sp_title p) "No title";
       summary := or_text (sp_abstract p) "No abstract provided";
       authors := default [] (sp_creators p);
       source := or_text (sp_publisher p) "Springer";
       link := or_text (mjoin first) "#";
       citations := 0%N;
       year := or_zero (sp_onlineDate p);
       tags := default [] (sp_subjects p) |}.

(** The [try] block of [fetchSpringer]. *)
Definition springer_body (w : World) (topic : string) : outcome (list Paper) :=
  data ← axios_get
           (springer_api w (springer_request (SPRINGER_API_KEY w) topic));
  records ← property_of data sp_records;
  map_throwing springer_paper (default [] records).

(** [fetchSpringer(topic)], with its own [catch] that returns [[]]. *)
Definition fetchSpringer (w : World) (topic : string) : list Paper :=
  match springer_body w topic with
  | Returned springerPapers => springerPapers
  | Thrown _ => []
  end.

(** The concatenation [[...openAlexPapers, ...arxivPapers, ...semPapers,
    ...springerPapers]]. *)
Definition aggregate (w : World) (topic : string) : list Paper :=
  fetchOpenAlex w topic ++ fetchArxiv w topic ++ fetchSemantic w topic
  ++ fetchSpringer w topic.

(** The requests one aggregation sends, in order. *)
Definition aggregate_requests (w : World) (topic : string) : list Request :=
  [ openalex_request topic; arxiv_request topic; semantic_request topic;
    springer_request (SPRINGER_API_KEY w) topic ].

(** ** The server state *)

(** A reference to an array of Papers in the heap. *)
Definition ref : Type := nat.

Record Server : Type := mkServer {
  heap : list (list Paper);
  cachedPapers : ref;
  topicCache : gmap string ref
}.

(** [let cachedPapers = []; let topicCache = {};] *)
Definition initial : Server :=
  {| heap := [[]]; cachedPapers := 0%nat; topicCache := ∅ |}.

(** The array behind a reference. *)
Definition deref (s : Server) (r : ref) : list Paper :=
  default [] (heap s !! r).

(** The property names every plain object inherits from
    [Object.prototype]; the value of each is a function or an object, hence
    truthy. *)
Definition object_prototype : list string :=
  [ "constructor"; "__defineGetter__"; "__defineSetter__"; "hasOwnProperty";
    "__lookupGetter__"; "__lookupSetter__"; "isPrototypeOf";
    "propertyIsEnumerable"; "toString"; "valueOf"; "__proto__";
    "toLocaleString" ].

(** The value of [object[key]]. *)
Inductive property : Type :=
| Own (r : ref)
| Inherited
| Undefined.

Definition get_property (object : gmap string ref) (key : string) : property :=
  match object !! key with
  | Some r => Own r
  | None => if bool_decide (key ∈ object_prototype) then Inherited else Undefined
  end.

(** ** GET /papers *)

(** The body [res.json] sends: [{ papers: [...] }], or for an inherited
    property the value found in the prototype. *)
Inductive papers_response : Type :=
| PapersJson (papers : list Paper)
| InheritedJson (key : string).

(** The handler of [/papers]: the response, the next state and the requests
    sent to the providers.  [query_topic] is [req.query.topic]. *)
Definition papers_handler (w : World) (currentYear : Z)
    (query_topic : option string) (s : Server)
  : papers_response * Server * list Request :=
  let topic := or_text query_topic "" in
  match get_property (topicCache s) topic with
  | Own r => (PapersJson (deref s r), s, [])
  | Inherited => (InheritedJson topic, s, [])
  | Undefined =>
      let allPapers := aggregate w topic in
      let allPapers :=
        map (fun p => with_tags p (assignBadges currentYear p)) allPapers in
      (* the array of the map is new; both variables refer to it *)
      let r := length (heap s) in
      let s := {| heap := heap s ++ [allPapers];
                  cachedPapers := r;
                  topicCache := <[topic := r]> (topicCache s) |} in
      (* the sort is in place *)
      let s := {| heap := <[r := rank (engine_log w) currentYear (deref s r)]>
                            (heap s);
                  cachedPapers := cachedPapers s;
                  topicCache := topicCache s |} in
      (PapersJson (deref s r), s, aggregate_requests w topic)
  end.

(** ** GET /related *)

(** The value of [parseInt(req.query.index)]. *)
Inductive jsint : Type :=
| NaN
| Int (z : Z).

(** [arr[index]], [None] for [undefined]. *)
Definition array_get {A : Type} (arr : list A) (index : jsint) : option A :=
  match index with
  | NaN => None
  | Int z => if (z <? 0)%Z then None else arr !! Z.to_nat z
  end.

(** [i === index] for a position [i] of an array. *)
Definition same_index (i : nat) (index : jsint) : bool :=
  match index with
  | NaN => false
  | Int z => (Z.of_nat i =? z)%Z
  end.

(** [{ paper, score }] *)
Record scored : Type := { paper : Paper; score : Q }.

(** [s.score > 0] *)
Definition positive (s : scored) : bool :=
  match (0 ?= score s)%Q with Lt => true | _ => false end.

(** The comparator [b.score - a.score] is positive. *)
Definition score_after (a b : scored) : bool :=
  match (0 ?= score b - score a)%Q with Lt => true | _ => false end.

(** [(p.title + " " + p.summary).toLowerCase()] *)
Definition document (p : Paper) : string :=
  toLowerCase (String.append (title p) (String.append " " (summary p))).

Inductive related_response : Type :=
| NotFound                                        (* status 404 *)
| RelatedJson (clickedPaper : Paper) (relatedPapers : list Paper).

Section Related.

(** [tfidf docs text i] is what [tfidf.tfidf(text, i)] of the [natural]
    package returns after [docs] were added in order: a finite number. *)
Variable tfidf : list string -> string -> nat -> Q.

(** The array [scores]. *)
Definition related_scores (corpus : list Paper) (index : jsint)
    (clickedText : string) : list scored :=
  imap (fun i p =>
          if same_index i index then {| paper := p; score := -1 |}
          else {| paper := p;
                  score := tfidf (map document corpus) clickedText i |})
       corpus.

(** The handler of [/related]; [index] is [parseInt(req.query.index)]. *)
Definition related_handler (index : jsint) (s : Server) : related_response :=
  match array_get (deref s (cachedPapers s)) index with
  | None => NotFound
  | Some clickedPaper =>
      let clickedText := document clickedPaper in
      let scores :=
        related_scores (deref s (cachedPapers s)) index clickedText in
      let relatedPapers :=
        map paper
            (take 5 (js_sort score_after (List.filter positive scores))) in
      RelatedJson clickedPaper relatedPapers
  end.

End Related.

(** * Notions used by the statements *)

(** The label of the first row of the table whose key occurs in [s]. *)
Definition table_label (s : string) : option string :=
  snd <$> List.find (fun row => includes (fst row) s) source_table.

(** The aggregated papers with their badges, in aggregation order: the
    array before the sort. *)
Definition badged_papers (w : World) (currentYear : Z) (q : option string)
  : list Paper :=
  map (fun p => with_tags p (assignBadges currentYear p))
      (aggregate w (or_text q "")).

(** The array after the sort. *)
Definition ranked_papers (w : World) (currentYear : Z) (q : option string)
  : list Paper :=
  rank (engine_log w) currentYear (badged_papers w currentYear q).

(** The score as the specification words it, with the test [year > 0]. *)
Definition spec_trending_score (log : spec_float -> Z * Z) (currentYear : Z)
    (a : Paper) : spec_float :=
  Double.add
    (Double.Math_log log
       (Double.add (Double.of_Z (Z.of_N (citations a))) Double.one))
    (if (0 <? year a)%Z
     then Double.mul (Double.sub (Double.of_Z currentYear)
                                 (Double.of_Z (year a)))
                     Double.minus_half
     else Double.zero).

(** Nothing comes before something it has to come after. *)
Definition in_order {A : Type} (after : A -> A -> bool) (a b : A) : Prop :=
  after a b = false.

(** An array with the position of each element. *)
Definition indexed {A : Type} (l : list A) : list (nat * A) := imap pair l.

(** A comparator on elements, applied to elements with positions. *)
Definition after_tagged {A : Type} (after : A -> A -> bool) (x y : nat * A)
  : bool :=
  after (snd x) (snd y).

(** [a] may precede [b]: it need not come after [b], and on a tie it came
    first in the input. *)
Definition stable_order {A : Type} (after : A -> A -> bool) (a b : nat * A)
  : Prop :=
  after (snd a) (snd b) = false /\
  (after (snd b) (snd a) = false -> (fst a < fst b)%nat).

(** The ranking with the arrival position of every paper. *)
Definition rank_indexed (log : spec_float -> Z * Z) (currentYear : Z)
    (l : list Paper) : list (nat * Paper) :=
  js_sort (after_tagged (trending_after log currentYear)) (indexed l).

(** The value by which a score is compared; NaN, which compares with
    nothing, is given the least value. *)
Definition rank_key (log : spec_float -> Z * Z) (currentYear : Z)
    (a : Paper) : Double.extended :=
  default Double.MinusInfinity
          (Double.value (trending_score log currentYear a)).

(** [a] comes after [b] by the values of their scores. *)
Definition after_by_value (log : spec_float -> Z * Z) (currentYear : Z)
    (a b : Paper) : bool :=
  Double.extended_ltb (rank_key log currentYear a) (rank_key log currentYear b).

(** The scored papers that survive the filter, the sort and the slice of
    [/related], each with its position in the corpus. *)
Definition related_indexed (tfidf : list string -> string -> nat -> Q)
    (corpus : list Paper) (index : jsint) (clickedText : string)
  : list (nat * scored) :=
  take 5
    (js_sort (after_tagged score_after)
       (List.filter (fun x => positive (snd x))
          (indexed (related_scores tfidf corpus index clickedText)))).

(** The requests the server serves; only [/papers] changes the state
    ([/related] reads the corpus, [/summarize] uses neither variable). *)
Inductive request : Type :=
| GetPapers (w : World) (currentYear : Z) (query_topic : option string)
| GetRelated (index : jsint)
| PostSummarize.

Definition serve (s : Server) (req : request) : Server :=
  match req with
  | GetPapers w currentYear query_topic =>
      (papers_handler w currentYear query_topic s).1.2
  | GetRelated _ => s
  | PostSummarize => s
  end.

Definition serve_all (s : Server) (reqs : list request) : Server :=
  foldl serve s reqs.

(** The parameter names by which the adapters of the server bound the number
    of results: [per_page] (OpenAlex), [max_results] (arXiv), [limit]
    (Semantic Scholar), [max_records] (IEEE), [count] (Elsevier). *)
Definition count_parameters : list string :=
  ["per_page"; "max_results"; "limit"; "max_records"; "count"].

(** The result count a request asks for, if it asks for one. *)
Definition requested_count (r : Request) : option string :=
  snd <$> List.find (fun kv => bool_decide (fst kv ∈ count_parameters)) (params r).

(** * Sample data *)

(** A paper with the given year and no citations, as the OpenAlex adapter
    builds it from a work that has only a title and a year. *)
Definition paper_of_year (t : string) (y : Z) : Paper :=
  {| title := t; summary := "No abstract"; link := "#"; authors := [];
     source := "OpenAlex"; year := y; citations := 0%N; tags := [] |}.

(** A coarse [Math.log]: ln 2, as 6243314768165359 * 2^-53, times the
    position of the leading bit of the argument. *)
Definition coarse_log (x : spec_float) : Z * Z :=
  match x with
  | S754_finite _ m e => ((Z.log2 (Zpos m) + e) * 6243314768165359, -53)
  | _ => (0, 0)
  end%Z.

(** A world in which every provider is unreachable and no key is set. *)
Definition offline : World :=
  {| engine_log := coarse_log; SPRINGER_API_KEY := None;
     openalex_api := fun _ => Rejected "ECONNREFUSED";
     arxiv_api := fun _ => Rejected "ECONNREFUSED";
     semantic_api := fun _ => Rejected "ECONNREFUSED";
     springer_api := fun _ => Rejected "Request failed with status code 401" |}.

(** A Springer record without [url], on which [p.url[0]] throws. *)
Definition record_without_url : SpringerRecord :=
  {| sp_title := Some "t"; sp_abstract := None; sp_creators := None;
     sp_publisher := None; sp_url := None; sp_onlineDate := None;
     sp_subjects := None |}.

(** A corpus of two papers, held by the server as the last aggregation. *)
Definition demo_corpus : list Paper :=
  [ paper_of_year "graph networks" 2024; paper_of_year "graph kernels" 2021 ].

Definition demo_server : Server :=
  {| heap := [[]; demo_corpus]; cachedPapers := 1%nat;
     topicCache := {[ "graphs" := 1%nat ]} |}.

(** A stand-in for the TF-IDF weight: every document weighs one. *)
Definition unit_tfidf (docs : list string) (text : string) (i : nat) : Q := 1.

(** A world in which OpenAlex alone answers, with a work of 2020 followed by
    a work without a year. *)
Definition old_then_undated : World :=
  {| engine_log := coarse_log; SPRINGER_API_KEY := None;
     openalex_api := fun _ =>
       Resolved (Some {| oa_results := Some
         [ {| oa_title := Some "a"; oa_abstract := None; oa_id := None;
              oa_authorships := None; oa_host_venue := None;
              oa_publication_year := Some 2020%Z; oa_cited_by_count := None |};
           {| oa_title := Some "b"; oa_abstract := None; oa_id := None;
              oa_authorships := None; oa_host_venue := None;
              oa_publication_year := None; oa_cited_by_count := None |} ] |});
     arxiv_api := fun _ => Rejected "ECONNREFUSED";
     semantic_api := fun _ => Rejected "ECONNREFUSED";
     springer_api := fun _ => Rejected "Request failed with status code 401" |}.

(** A Springer record with a title and a link. *)
Definition springer_record (t : string) : SpringerRecord :=
  {| sp_title := Some t; sp_abstract := None; sp_creators := None;
     sp_publisher := None; sp_url := Some [Some "https://doi.org/10.1007/x"];
     sp_onlineDate := Some 2024%Z; sp_subjects := Some ["Computer Science"] |}.

(** A world in which Springer answers a request that names no count with six
    records, and the other providers are unreachable. *)
Definition springer_six : World :=
  {| engine_log := coarse_log; SPRINGER_API_KEY := Some "key";
     openalex_api := fun _ => Rejected "ECONNREFUSED";
     arxiv_api := fun _ => Rejected "ECONNREFUSED";
     semantic_api := fun _ => Rejected "ECONNREFUSED";
     springer_api := fun r =>
       match requested_count r with
       | Some _ => Rejected "unexpected"
       | None =>
           Resolved (Some {| sp_records := Some
             (map springer_record ["1"; "2"; "3"; "4"; "5"; "6"]) |})
       end |}.

(** * The state over a run of requests *)

(** Every text field of the paper is filled. *)
Definition populated (p : Paper) : Prop :=
  truthy (title p) = true /\ truthy (summary p) = true /\
  truthy (link p) = true /\ truthy (source p) = true.

(** What every state the server can reach satisfies: the corpus variable
    and the cache entries refer to arrays of the heap; the corpus is the
    initial array or the array of a cached topic; two topics never share an
    array; no entry sits under an inherited property name; every paper held
    has its text fields filled. *)
Definition consistent (s : Server) : Prop :=
  (cachedPapers s < length (heap s))%nat /\
  (forall k r, topicCache s !! k = Some r -> (0 < r < length (heap s))%nat) /\
  (cachedPapers s = 0%nat \/ exists k, topicCache s !! k = Some (cachedPapers s)) /\
  (forall k k' r,
     topicCache s !! k = Some r -> topicCache s !! k' = Some r -> k = k') /\
  (forall k, k ∈ object_prototype -> topicCache s !! k = None) /\
  heap s !! 0%nat = Some [] /\
  Forall (Forall populated) (heap s).

(** A world in which arXiv alone answers, with two entries. *)
Definition arxiv_two : World :=
  {| engine_log := coarse_log; SPRINGER_API_KEY := None;
     openalex_api := fun _ => Rejected "ECONNREFUSED";
     arxiv_api := fun _ =>
       Resolved (Some
         [ {| ax_title := Some "Attention"; ax_summary := Some "We propose";
              ax_id := Some "http://arxiv.org/abs/1"; ax_names := ["A"; "B"] |};
           {| ax_title := None; ax_summary := None; ax_id := None;
              ax_names := [] |} ]);
     semantic_api := fun _ => Rejected "ECONNREFUSED";
     springer_api := fun _ => Rejected "Request failed with status code 401" |}.

(** * Requests that overlap *)

(** The handler of [/papers] is asynchronous.  It runs from the guard of
    l.173 to its first [await]; once the last provider has answered it runs
    from l.231 to the response.  In between, the server serves other
    requests, which may be for the same topic. *)

(** A [/papers] request that found no entry for its topic and awaits its
    providers: the world that answers it and its topic. *)
Record Waiting : Type := {
  wt_world : World;
  wt_topic : option string
}.

(** The server with its requests in flight, in the order of arrival. *)
Record Running : Type := {
  server : Server;
  waiting : list Waiting
}.

Inductive happening : Type :=
| Arrives (w : World) (query_topic : option string)
    (* a [/papers] request reaches the guard *)
| Completes (i : nat) (currentYear : Z).
    (* the [i]-th waiting request has all its answers and runs to its end *)

(** What one happening does: the state after it, the response it sends, if
    any, and the provider requests of the request that arrived (they go out
    one by one while the request waits; none of them reads the state). *)
Definition happen (r : Running) (h : happening)
  : Running * option papers_response * list Request :=
  match h with
  | Arrives w query_topic =>
      let topic := or_text query_topic "" in
      match get_property (topicCache (server r)) topic with
      | Own ref => (r, Some (PapersJson (deref (server r) ref)), [])
      | Inherited => (r, Some (InheritedJson topic), [])
      | Undefined =>
          ({| server := server r;
              waiting := waiting r ++ [{| wt_world := w;
                                          wt_topic := query_topic |}] |},
           None, aggregate_requests w topic)
      end
  | Completes i currentYear =>
      match waiting r !! i with
      | None => (r, None, [])
      | Some wt =>
          let allPapers :=
            ranked_papers (wt_world wt) currentYear (wt_topic wt) in
          ({| server :=
                {| heap := heap (server r) ++ [allPapers];
                   cachedPapers := length (heap (server r));
                   topicCache := <[or_text (wt_topic wt) "" :=
                                     length (heap (server r))]>
                                   (topicCache (server r)) |};
              waiting := delete i (waiting r) |},
           Some (PapersJson allPapers), [])
      end
  end.

Definition happen_all (r : Running) (hs : list happening) : Running :=
  foldl (fun r h => (happen r h).1.1) r hs.

(** The provider requests of the requests that arrive in a run. *)
Fixpoint requests_of (r : Running) (hs : list happening) : list Request :=
  match hs with
  | [] => []
  | h :: hs' => (happen r h).2 ++ requests_of (happen r h).1.1 hs'
  end.

(** The server at its start: no request in flight. *)
Definition start : Running := {| server := initial; waiting := [] |}.

(** No entry is stored under a name every object inherits from
    Object.prototype, and no request for such a name is in flight. *)
Definition no_inherited_key (r : Running) : Prop :=
  (forall k, k ∈ object_prototype -> topicCache (server r) !! k = None) /\
  Forall (fun wt => or_text (wt_topic wt) "" ∉ object_prototype) (waiting r).

(** * Payloads outside the expected types *)

(** A value read where the code expects a text: the text, or a value of
    another JSON type (a number, a boolean, an array, an object), of which
    the handlers see the truthiness only. *)
Inductive json_text (T : Type) : Type :=
| JsonText (text : T)
| JsonOther (is_truthy : bool).
Arguments JsonText {T} text.
Arguments JsonOther {T} is_truthy.

(** A Springer record whose [publisher.text] may be of any JSON type; the
    other fields are those of [SpringerRecord]. *)
Record SpringerJson : Type := {
  sj_title : option string;
  sj_abstract : option string;
  sj_creators : option (list string);
  sj_publisher : option (json_text string);  (* p.publisher?.text *)
  sj_url : option (list (option string));
  sj_onlineDate : option Z;
  sj_subjects : option (list string)
}.

Record SpringerJsonData : Type := { sj_records : option (list SpringerJson) }.

(** A paper object as it leaves an adapter: [source] holds the text
    [source (fields p)], or a truthy value that is not a text. *)
Record FetchedPaper : Type := {
  fields : Paper;
  source_is_text : bool
}.

(** [p.publisher?.text || "Springer"] *)
Definition publisher_or_springer (x : option (json_text string)) : string :=
  match x with
  | Some (JsonText text) => or_text (Some text) "Springer"
  | Some (JsonOther true) => ""    (* not a text: never read as one *)
  | Some (JsonOther false) | None => "Springer"
  end.

Definition publisher_is_text (x : option (json_text string)) : bool :=
  match x with
  | Some (JsonOther true) => false
  | _ => true
  end.

(** One Springer record as a paper object; [p.url[0]] throws when the
    record has no [url]. *)
Definition springer_json_paper (p : SpringerJson) : outcome FetchedPaper :=
  first ← property_of (sj_url p) (fun entries => entries !! 0%nat);
  Returned
    {| fields :=
         {| title := or_text (sj_title p) "No title";
            summary := or_text (sj_abstract p) "No abstract provided";
            authors := default [] (sj_creators p);
            source := publisher_or_springer (sj_publisher p);
            link := or_text (mjoin first) "#";
            citations := 0%N;
            year := or_zero (sj_onlineDate p);
            tags := default [] (sj_subjects p) |};
       source_is_text := publisher_is_text (sj_publisher p) |}.

(** [fetchSpringer(topic)] on such payloads: the [try] block and the
    [catch] that returns [[]]. *)
Definition fetchSpringer_json (key : option string)
    (springer : Request -> reply SpringerJsonData) (topic : string)
  : list FetchedPaper :=
  match (data ← axios_get (springer (springer_request key topic));
         records ← property_of data sj_records;
         map_throwing springer_json_paper (default [] records)) with
  | Returned springerPapers => springerPapers
  | Thrown _ => []
  end.

(** A paper object of an adapter that sets a text as source. *)
Definition text_source (p : Paper) : FetchedPaper :=
  {| fields := p; source_is_text := true |}.

(** [{ ...p, tags: assignBadges(p) }]: [p.source.toLowerCase()] throws a
    TypeError when the source is not a text. *)
Definition badge_json (currentYear : Z) (p : FetchedPaper) : outcome Paper :=
  if source_is_text p
  then Returned (with_tags (fields p) (assignBadges currentYear (fields p)))
  else Thrown "TypeError: p.source.toLowerCase is not a function".

(** The handler of [/papers] when Springer answers with such payloads:
    the response, if one is sent, the next state and the requests sent.  The
    map of l.243 is outside every [try]: when it throws, the handler ends
    without a response and before the assignments of l.245-246. *)
Definition papers_handler_json (w : World)
    (springer : Request -> reply SpringerJsonData) (currentYear : Z)
    (query_topic : option string) (s : Server)
  : option papers_response * Server * list Request :=
  let topic := or_text query_topic "" in
  match get_property (topicCache s) topic with
  | Own r => (Some (PapersJson (deref s r)), s, [])
  | Inherited => (Some (InheritedJson topic), s, [])
  | Undefined =>
      let allPapers :=
        map text_source (fetchOpenAlex w topic ++ fetchArxiv w topic
                         ++ fetchSemantic w topic)
        ++ fetchSpringer_json (SPRINGER_API_KEY w) springer topic in
      match map_throwing (badge_json currentYear) allPapers with
      | Thrown _ => (None, s, aggregate_requests w topic)
      | Returned allPapers =>
          let r := length (heap s) in
          let s := {| heap := heap s ++ [allPapers];
                      cachedPapers := r;
                      topicCache := <[topic := r]> (topicCache s) |} in
          let s := {| heap := <[r := rank (engine_log w) currentYear (deref s r)]>
                                (heap s);
                      cachedPapers := cachedPapers s;
                      topicCache := topicCache s |} in
          (Some (PapersJson (deref s r)), s, aggregate_requests w topic)
      end
  end.

(** A typed Springer payload, as a payload of any type. *)
Definition springer_as_json (p : SpringerRecord) : SpringerJson :=
  {| sj_title := sp_title p; sj_abstract := sp_abstract p;
     sj_creators := sp_creators p;
     sj_publisher := JsonText <$> sp_publisher p;
     sj_url := sp_url p; sj_onlineDate := sp_onlineDate p;
     sj_subjects := sp_subjects p |}.

Definition typed_springer (w : World) (r : Request) : reply SpringerJsonData :=
  match springer_api w r with
  | Rejected e => Rejected e
  | Resolved data =>
      Resolved ((fun d => {| sj_records :=
                               map springer_as_json <$> sp_records d |})
                <$> data)
  end.

(** Springer answers with one record whose publisher is [{ text: 5 }]. *)
Definition numeric_publisher (r : Request) : reply SpringerJsonData :=
  Resolved (Some {| sj_records := Some
    [ {| sj_title := Some "Kernels"; sj_abstract := None;
         sj_creators := None; sj_publisher := Some (JsonOther true);
         sj_url := Some [Some "https://doi.org/10.1007/x"];
         sj_onlineDate := None; sj_subjects := None |} ] |}).

(** * POST /summarize *)

(** The text Gemini generates is a JavaScript string: the sequence of its
    UTF-16 code units. *)
Definition ustring : Type := list N.

(** The code units of a text of ASCII characters. *)
Fixpoint units (s : string) : ustring :=
  match s with
  | EmptyString => []
  | String c r => N_of_ascii c :: units r
  end.

(** The code units that [\s] matches and that [trim] removes: white space
    (tab, vertical tab, form feed, space, no-break space, U+1680, U+2000 to
    U+200A, U+202F, U+205F, U+3000, U+FEFF) and the line terminators (line
    feed, carriage return, U+2028, U+2029). *)
Definition is_space (c : N) : bool :=
  ((9 <=? c) && (c <=? 13) || (c =? 32) || (c =? 160) || (c =? 5760)
   || (8192 <=? c) && (c <=? 8202) || (c =? 8232) || (c =? 8233)
   || (c =? 8239) || (c =? 8287) || (c =? 12288) || (c =? 65279))%N.

(** The class [[\n*•]]: line feed, asterisk, bullet (U+2022). *)
Definition is_markup (c : N) : bool :=
  ((c =? 10) || (c =? 42) || (c =? 8226))%N.

(** The rest after the leading white space. *)
Fixpoint drop_spaces (s : ustring) : ustring :=
  match s with
  | [] => []
  | c :: r => if is_space c then drop_spaces r else s
  end.

(** [s.trim()] *)
Definition trim (s : ustring) : ustring :=
  reverse (drop_spaces (reverse (drop_spaces s))).

(** What follows the first colon (code unit 58), if there is one. *)
Fixpoint after_colon (s : ustring) : option ustring :=
  match s with
  | [] => None
  | c :: r => if (c =? 58)%N then Some r else after_colon r
  end.

(** [s.replace(/^.*?:\s*/s, '').trim()]: with the flag [s] the dot matches
    every code unit, so the lazy match runs from the start to the first
    colon and on over the white space behind it; without a colon nothing is
    replaced. *)
Definition strip_preamble (s : ustring) : ustring :=
  trim (match after_colon s with
        | Some r => drop_spaces r
        | None => s
        end).

(** [s.replace(/C+/g, ' ')] for a class C of code units: every maximal run
    of the class becomes one space (code unit 32), written here at the last
    unit of the run. *)
Fixpoint squeeze (cls : N -> bool) (s : ustring) : ustring :=
  match s with
  | [] => []
  | c :: r =>
      if cls c
      then match r with
           | c' :: _ => if cls c' then squeeze cls r else 32%N :: squeeze cls r
           | [] => [32%N]
           end
      else c :: squeeze cls r
  end.

(** [s.replace(/[\n*•]+/g, ' ').replace(/\s+/g, ' ').trim()] *)
Definition one_paragraph (s : ustring) : ustring :=
  trim (squeeze is_space (squeeze is_markup s)).

(** The two cleaning statements of the handler, in order. *)
Definition clean_summary (generated : ustring) : ustring :=
  one_paragraph (strip_preamble generated).

(** The [authors] of a request body: an array of names or a text. *)
Inductive authors_json : Type :=
| AuthorList (names : list string)
| AuthorText (text : string).

(** The truthiness of a value read where a text is expected. *)
Definition json_truthy {T : Type} (nonempty : T -> bool)
    (x : option (json_text T)) : bool :=
  match x with
  | Some (JsonText text) => nonempty text
  | Some (JsonOther is_truthy) => is_truthy
  | None => false
  end.

(** [req.body]: [title] and [summary] are absent or of any JSON type;
    [authors] and [year] are absent or of the type the client sends. *)
Record SummarizeBody : Type := {
  sb_title : option (json_text string);
  sb_summary : option (json_text string);
  sb_authors : option authors_json;
  sb_year : option Z
}.

(** The answers of [/summarize]. *)
Inductive summarize_response : Type :=
| BadRequest      (* 400 { error: "Title and summary are required." } *)
| SummaryJson (summary : ustring) (authors : authors_json) (year : option Z)
| GenerationFailed.  (* 500 { error: "Failed to generate summary!" } *)

(** [authors || []] *)
Definition authors_or_empty (a : option authors_json) : authors_json :=
  match a with
  | Some (AuthorList names) => AuthorList names
  | Some (AuthorText text) => if truthy text then AuthorText text else AuthorList []
  | None => AuthorList []
  end.

(** [year || null] *)
Definition year_or_null (y : option Z) : option Z :=
  match y with
  | Some z => if truthy_num z then Some z else None
  | None => None
  end.

(** [x || "No summary generated."] for the value [x] found, or not, at
    [candidates[0].content.parts[0].text], as the text the cleaning
    statements work on: [generatedSummary.replace] throws a TypeError when
    [x] is truthy and not a text. *)
Definition generated_or_default (x : option (json_text ustring))
  : outcome ustring :=
  match x with
  | Some (JsonText (c :: r)) => Returned (c :: r)
  | Some (JsonOther true) =>
      Thrown "TypeError: generatedSummary.replace is not a function"
  | _ => Returned (units "No summary generated.")
  end.

(** The handler of [/summarize]: the answer, if one is sent, and the bodies
    for which Gemini was asked.  [gemini body] is what the POST to Gemini
    with the prompt built from [body] does: it rejects, or resolves with the
    generated text or without one.  The prompt is built before the [try]:
    [summary.trim()] throws a TypeError there when [summary] is truthy and
    not a text, and the handler ends without a response. *)
Definition summarize_handler
    (gemini : SummarizeBody -> reply (json_text ustring))
    (body : SummarizeBody) : option summarize_response * list SummarizeBody :=
  if negb (json_truthy truthy (sb_title body))
     || negb (json_truthy truthy (sb_summary body))
  then (Some BadRequest, [])
  else
    match sb_summary body with
    | Some (JsonOther _) => (None, [])
    | _ =>
        match (x ← axios_get (gemini body); generated_or_default x) with
        | Returned generatedSummary =>
            (Some (SummaryJson (clean_summary generatedSummary)
                               (authors_or_empty (sb_authors body))
                               (year_or_null (sb_year body))),
             [body])
        | Thrown _ => (Some GenerationFailed, [body])
        end
    end.

(** A text is tidy: it has no line feed, asterisk or bullet, a space (code
    unit 32) is its only white space, no two spaces are adjacent, and it
    neither starts nor ends with a space. *)
Fixpoint single_spaced (s : ustring) : bool :=
  match s with
  | c :: (c' :: _) as r => negb (is_space c && is_space c') && single_spaced r
  | _ => true
  end.

Definition tidy (s : ustring) : Prop :=
  Forall (fun c => is_markup c = false /\ (is_space c = true -> c = 32%N)) s /\
  single_spaced s = true /\
  (forall c, head s = Some c -> is_space c = false) /\
  (forall c, last s = Some c -> is_space c = false).

(** * The disabled IEEE adapter *)

Record IEEEArticle : Type := {
  ie_title : option string;
  ie_abstract : option string;
  ie_pdf_url : option string;
  ie_authors : option (list string);  (* the full_name of each of p.authors *)
  ie_publication_year : option Z;  (* parseInt(p.publication_year), absent for NaN *)
  ie_citation_count : option N
}.

Record IEEEData : Type := { ie_articles : option (list IEEEArticle) }.

(** The request of [fetchIEEE]. *)
Definition ieee_request (key topic : string) : Request :=
  {| url := "https://ieeexploreapi.ieee.org/api/v1/search/articles";
     params := [("querytext", topic); ("format", "json"); ("max_records", "5");
                ("start_record", "1"); ("apikey", key)] |}.

(** One IEEE article as a Paper. *)
Definition ieee_paper (p : IEEEArticle) : Paper :=
  {| title := or_text (ie_title p) "No title";
     summary := or_text (ie_abstract p) "No abstract";
     link := or_text (ie_pdf_url p) "#";
     authors := default [] (ie_authors p);
     source := "IEEE";
     year := or_zero (ie_publication_year p);
     citations := or_zeroN (ie_citation_count p);
     tags := [] |}.

(** The inner [try] block of [fetchIEEE]. *)
Definition ieee_body (ieee_api : Request -> reply IEEEData) (key topic : string)
  : outcome (list Paper) :=
  data ← axios_get (ieee_api (ieee_request key topic));
  articles ← property_of data ie_articles;
  Returned (map ieee_paper (default [] articles)).

(** [fetchIEEE(topic)]: the papers and the requests sent.  Without a key
    the function returns before any request; otherwise the inner [catch]
    returns [[]] and [safeFetch] wraps the whole. *)
Definition fetchIEEE (IEEE_API_KEY : option string)
    (ieee_api : Request -> reply IEEEData) (topic : string)
  : list Paper * list Request :=
  if negb (truthy (default "" IEEE_API_KEY)) then ([], [])
  else
    (safeFetch (match ieee_body ieee_api (default "" IEEE_API_KEY) topic with
                | Returned papers => Returned papers
                | Thrown _ => Returned []
                end),
     [ieee_request (default "" IEEE_API_KEY) topic]).

(** * The client *)

Definition ACRONYMS : list string := ["IEEE"; "ACM"; "NASA"].
Definition SPECIAL_CASES : list string := ["arXiv"; "OpenAlex"].

(** [arr.includes(x)] for an array of texts. *)
Definition array_includes (arr : list string) (x : string) : bool :=
  existsb (String.eqb x) arr.

(** [s.split(sep)] for a separator of one character: the pieces between
    the separators, at least one piece. *)
Fixpoint split_on (sep : ascii) (s : string) : list string :=
  match s with
  | EmptyString => [EmptyString]
  | String c r =>
      if Ascii.eqb c sep then EmptyString :: split_on sep r
      else match split_on sep r with
           | piece :: pieces => String c piece :: pieces
           | [] => [String c EmptyString]
           end
  end.

(** [arr.join(sep)] *)
Fixpoint join (sep : string) (arr : list string) : string :=
  match arr with
  | [] => EmptyString
  | [piece] => piece
  | piece :: rest => piece +:+ sep +:+ join sep rest
  end.

(** The function mapped over the words in [formatSourceName]. *)
Definition format_word (word : string) : string :=
  if array_includes SPECIAL_CASES word then word
  else if array_includes ACRONYMS (toUpperCase word) then toUpperCase word
  else toUpperCase (charAt0 word) +:+ toLowerCase (slice1 word).

(** [formatSourceName(str)] *)
Definition formatSourceName (str : option string) : string :=
  match str with
  | None => EmptyString
  | Some s =>
      if negb (truthy s) then EmptyString
      else join " " (map format_word (split_on " " s))
  end.

(** [handleCheckboxChange(source)] applied to the selection [prev]. *)
Definition handleCheckboxChange (prev : list string) (source : string)
  : list string :=
  if array_includes prev source
  then List.filter (fun s => negb (String.eqb s source)) prev
  else prev ++ [source].

(** [Array.from(new Set(arr))]: the different texts in the order of their
    first occurrence. *)
Definition set_from (arr : list string) : list string :=
  fold_left (fun seen x => if array_includes seen x then seen else seen ++ [x])
            arr [].

(** [const sources = Array.from(new Set(papers.map((p) => p.source)))] *)
Definition sources (papers : list Paper) : list string :=
  set_from (map source papers).

Section Client.

(** [relevance_after currentYear a b]: the comparator of the "Relevance"
    sort, [scoreB - scoreA] with the floating-point scores
    [(citations + 1) * (1 / (currentYear - (year || currentYear) + 1))], is
    positive. *)
Variable relevance_after : Z -> Paper -> Paper -> bool.

(** [localeCompare a b] is [a.localeCompare(b)] in the locale of the
    browser. *)
Variable localeCompare : string -> string -> Z.

(** [applyFilterAndSort()]: the new [filteredPapers] for the state
    [papers], [selectedSources], [sortBy]. *)
Definition applyFilterAndSort (currentYear : Z) (papers : list Paper)
    (selectedSources : list string) (sortBy : string) : list Paper :=
  let temp := papers in
  let temp :=
    if (0 <? length selectedSources)%nat
    then List.filter (fun p => array_includes selectedSources (source p)) temp
    else temp in
  if String.eqb sortBy "Relevance"
  then js_sort (relevance_after currentYear) temp
  else if String.eqb sortBy "Newest"
  then js_sort (fun a b => (0 <? year b - year a)%Z) temp
  else if String.eqb sortBy "Oldest"
  then js_sort (fun a b => (0 <? year a - year b)%Z) temp
  else if String.eqb sortBy "Most Cited"
  then js_sort (fun a b => (0 <? Z.of_N (citations b) - Z.of_N (citations a))%Z) temp
  else if String.eqb sortBy "Least Cited"
  then js_sort (fun a b => (0 <? Z.of_N (citations a) - Z.of_N (citations b))%Z) temp
  else if String.eqb sortBy "A to Z"
  then js_sort (fun a b => (0 <? localeCompare (title a) (title b))%Z) temp
  else if String.eqb sortBy "Z to A"
  then js_sort (fun a b => (0 <? localeCompare (title b) (title a))%Z) temp
  else temp.

End Client.

(** The line terminators, which the dot of a pattern does not match. *)
Definition is_line_terminator (c : N) : bool :=
  ((c =? 10) || (c =? 13) || (c =? 8232) || (c =? 8233))%N.

(** [text.split("\n\n")] *)
Fixpoint split_paragraphs (s : ustring) : list ustring :=
  match s with
  | [] => [[]]
  | c :: r =>
      match r with
      | c' :: r' =>
          if ((c =? 10) && (c' =? 10))%N then [] :: split_paragraphs r'
          else match split_paragraphs r with
               | piece :: pieces => (c :: piece) :: pieces
               | [] => [[c]]
               end
      | [] => [[c]]
      end
  end.

(** The capture and the rest when the text goes on, without a line
    terminator in between, to a closing pair of asterisks. *)
Fixpoint closing (s : ustring) : option (ustring * ustring) :=
  match s with
  | [] => None
  | c :: r =>
      match r with
      | c' :: r' =>
          if ((c =? 42) && (c' =? 42))%N then Some ([], r')
          else if is_line_terminator c then None
          else match closing r with
               | Some (capture, rest) => Some (c :: capture, rest)
               | None => None
               end
      | [] => None
      end
  end.

(** [paragraph.replace(/\*\*(.*?)\*\*/g, "<strong>$1</strong>")], by
    recursion on a bound for the length of the text. *)
Fixpoint strong_upto (n : nat) (s : ustring) : ustring :=
  match n with
  | O => s
  | S n' =>
      match s with
      | [] => []
      | c :: r =>
          match r with
          | c' :: r' =>
              if ((c =? 42) && (c' =? 42))%N
              then match closing r' with
                   | Some (capture, rest) =>
                       units "<strong>" ++ capture ++ units "</strong>"
                       ++ strong_upto n' rest
                   | None => c :: strong_upto n' r
                   end
              else c :: strong_upto n' r
          | [] => [c]
          end
      end
  end.

Definition strong (s : ustring) : ustring := strong_upto (length s) s.

(** [formatSummary(text)]: the HTML set into each paragraph element. *)
Definition formatSummary (text : ustring) : list ustring :=
  map strong (split_paragraphs text).

(** The selection after a run of clicks on the source checkboxes, from the
    empty selection of [useState([])] and of [handleSearch]. *)
Definition selection_after (clicks : list string) : list string :=
  foldl handleCheckboxChange [] clicks.

(** The index the server parses from the query [`/related?index=${index}`]
    that the card at position [index] of [filteredPapers] sends. *)
Definition card_index (index : nat) : jsint := Int (Z.of_nat index).

(** A world in which arXiv answers with one entry and Springer with one
    undated record. *)
Definition arxiv_and_springer : World :=
  {| engine_log := coarse_log; SPRINGER_API_KEY := Some "key";
     openalex_api := fun _ => Rejected "ECONNREFUSED";
     arxiv_api := fun _ =>
       Resolved (Some
         [ {| ax_title := Some "Attention"; ax_summary := Some "We propose";
              ax_id := Some "http://arxiv.org/abs/1"; ax_names := ["A"] |} ]);
     semantic_api := fun _ => Rejected "ECONNREFUSED";
     springer_api := fun _ =>
       Resolved (Some {| sp_records := Some
         [ {| sp_title := Some "Kernels"; sp_abstract := None;
              sp_creators := None; sp_publisher := None;
              sp_url := Some [Some "https://doi.org/10.1007/x"];
              sp_onlineDate := None; sp_subjects := None |} ] |}) |}.

(** The two papers the server builds in that world, with their badges. *)
Definition attention_paper : Paper :=
  {| title := "Attention"; summary := "We propose";
     link := "http://arxiv.org/abs/1"; authors := ["A"]; source := "arXiv";
     year := 0; citations := 0%N; tags := ["Open Access"] |}.

Definition kernels_paper : Paper :=
  {| title := "Kernels"; summary := "No abstract provided";
     link := "https://doi.org/10.1007/x"; authors := []; source := "Springer";
     year := 0; citations := 0%N; tags := [] |}.

(** [{ ...p, source: t }] *)
Definition with_source (p : Paper) (t : string) : Paper :=
  {| title := title p; summary := summary p; link := link p;
     authors := authors p; source := t; year := year p;
     citations := citations p; tags := tags p |}.

(** The text is ASCII.  On such text [toLowerCase] and [toUpperCase] of
    [Text] are JavaScript's. *)
Definition ascii_text (s : string) : bool :=
  forallb (fun c => (nat_of_ascii c <? 128)%nat) (list_ascii_of_string s).

(** The character occurs in the text. *)
Fixpoint has_char (c : ascii) (s : string) : bool :=
  match s with
  | EmptyString => false
  | String d r => Ascii.eqb d c || has_char c r
  end.

(** * Proof automation *)

(** Membership in a literal list of badges: find the badge, or run through
    the list when membership is a hypothesis. *)
Ltac badge_membership :=
  repeat match goal with
         | |- _ ∈ _ :: _ =>
             first [apply list_elem_of_here | apply list_elem_of_further]
         | Hin : _ ∈ _ |- _ => inversion Hin; clear Hin; subst
         end.

(** The branch of [applyFilterAndSort] for a literal sort mode. *)
Ltac sort_mode :=
  unfold applyFilterAndSort; cbv zeta;
  repeat match goal with
         | |- context [String.eqb ?a ?b] =>
             let v := eval vm_compute in (String.eqb a b) in
             change (String.eqb a b) with v
         end;
  cbv iota.

Ltac known_values :=
  repeat match goal with
         | H : Double.value _ = Some _ |- _ => cbn [Double.value] in H
         | H : Some _ = Some _ |- _ => injection H as <-
         | H : (if ?b then _ else _) = Some _ |- _ => destruct b
         | H : None = Some _ |- _ => discriminate H
         end.

(** * Properties *)

(** ** Text *)

Section TextFacts.

Lemma startsWith_spec (p s : string) :
  startsWith p s = true <-> exists rest, s = p +:+ rest.
Proof.
  revert s. induction p as [|a p IH]; intros s; simpl.
  - split; [intros _; now exists s | reflexivity].
  - destruct s as [|b s].
    + split; [discriminate | intros [rest H]; discriminate].
    + destruct (Ascii.eqb_spec a b) as [->|Hne].
      * rewrite IH. split; intros [rest H]; exists rest.
        -- now rewrite H.
        -- now injection H.
      * split; [discriminate|]. intros [rest H]. injection H as H1 H2.
        now subst.
Qed.

(** [includes] is the substring test. *)
Lemma includes_spec (needle s : string) :
  includes needle s = true <-> exists pre post, s = pre +:+ needle +:+ post.
Proof.
  induction s as [|c s IH].
  - simpl. destruct (startsWith needle "") eqn:E.
    + split; [intros _|reflexivity].
      apply startsWith_spec in E as [rest E]. now exists "", rest.
    + split; [discriminate|]. intros (pre & post & H).
      destruct pre; [|discriminate]. simpl in H.
      assert (startsWith needle "" = true) by (apply startsWith_spec; eauto).
      congruence.
  - simpl. destruct (startsWith needle (String c s)) eqn:E.
    + split; [intros _|reflexivity].
      apply startsWith_spec in E as [rest E]. now exists "", rest.
    + rewrite IH. split.
      * intros (pre & post & ->). now exists (String c pre), post.
      * intros (pre & post & H). destruct pre as [|c' pre].
        -- simpl in H.
           assert (startsWith needle (String c s) = true)
             by (apply startsWith_spec; eauto).
           congruence.
        -- injection H as -> ->. now exists pre, post.
Qed.

Lemma lower_char_idem (c : ascii) : lower_char (lower_char c) = lower_char c.
Proof. destruct c as [[] [] [] [] [] [] [] []]; reflexivity. Qed.

Lemma lower_upper_lower (c : ascii) :
  lower_char (upper_char (lower_char c)) = lower_char c.
Proof. destruct c as [[] [] [] [] [] [] [] []]; reflexivity. Qed.

Lemma toLowerCase_idem (s : string) : toLowerCase (toLowerCase s) = toLowerCase s.
Proof.
  induction s as [|c s IH]; simpl; [reflexivity|].
  now rewrite lower_char_idem, IH.
Qed.

Lemma toLowerCase_truthy (s : string) : truthy (toLowerCase s) = truthy s.
Proof. now destruct s. Qed.

(** Capitalizing changes the first character only. *)
Lemma capitalize_cons (c : ascii) (r : string) :
  capitalize (String c r) = String (upper_char c) r.
Proof. reflexivity. Qed.

Lemma toLowerCase_capitalize (s : string) :
  toLowerCase (capitalize (toLowerCase s)) = toLowerCase s.
Proof.
  destruct s as [|c s]; [reflexivity|].
  cbn [toLowerCase]. rewrite capitalize_cons. cbn [toLowerCase].
  now rewrite lower_upper_lower, toLowerCase_idem.
Qed.

End TextFacts.

(** ** normalizeSource *)


Lemma normalizeSource_some (raw : string) :
  raw <> "" ->
  normalizeSource (Some raw) =
  default (capitalize (toLowerCase raw)) (table_label (toLowerCase raw)).
Proof.
  intros Hraw. unfold normalizeSource, table_label.
  destruct raw as [|c r]; [congruence|].
  cbn [truthy negb]. cbv zeta.
  unfold source_table. cbn [List.find fst snd].
  repeat match goal with
         | |- context [if ?b then _ else _] => destruct b; [reflexivity|]
         end.
  reflexivity.
Qed.


(** C3, as amended: a missing or empty input gives "Unknown"; any other
    ASCII input is lowercased and gets the label of the first row of the
    table {arxiv, openalex, ieee, springer, elsevier, acm} whose key is a
    substring of the lowercased input; when no key occurs, the result is the
    LOWERCASED input with its first character capitalized.  So "IEEE
    Transactions" gives "IEEE" and "randomjournal" gives "Randomjournal".
    (On ASCII text the case mappings of the embedding are JavaScript's.) *)
Theorem normalizeSource_lowercased_fallback :
  normalizeSource None = "Unknown" /\
  normalizeSource (Some "") = "Unknown" /\
  (forall raw : string,
     ascii_text raw = true ->
     normalizeSource (Some raw) =
     if truthy raw
     then default (capitalize (toLowerCase raw)) (table_label (toLowerCase raw))
     else "Unknown") /\
  (forall key s : string,
     includes key s = true <-> exists pre post, s = pre +:+ key +:+ post) /\
  (forall (c : ascii) (r : string),
     ascii_text (String c r) = true ->
     capitalize (String c r) = String (upper_char c) r) /\
  (forall raw : string,
     ascii_text raw = true -> ascii_text (toLowerCase raw) = true) /\
  normalizeSource (Some "IEEE Transactions") = "IEEE" /\
  normalizeSource (Some "randomjournal") = "Randomjournal".
Proof.
  repeat match goal with |- _ /\ _ => split end; try reflexivity.
  - intros raw _. destruct raw as [|c r]; [reflexivity|].
    now rewrite normalizeSource_some.
  - apply includes_spec.
  - intros raw. unfold ascii_text.
    induction raw as [|c r IH]; [reflexivity|].
    cbn [list_ascii_of_string toLowerCase forallb].
    intros H. apply andb_prop in H as [Hc Hr].
    rewrite (IH Hr), andb_true_r.
    destruct c as [[] [] [] [] [] [] [] []]; first [exact Hc | reflexivity].
Qed.

(** C3, as stated, fails: on an input that matches no key the fallback is
    not the raw string with its first character capitalized.  "Nature
    Communications" comes back as "Nature communications". *)
Lemma normalizeSource_raw_fallback_fails :
  ~ (forall raw : string,
       truthy raw = true ->
       table_label (toLowerCase raw) = None ->
       normalizeSource (Some raw) = capitalize raw).
Proof.
  intros H. specialize (H "Nature Communications" eq_refl eq_refl).
  vm_compute in H. discriminate H.
Qed.

(** ** assignBadges *)

Lemma assignBadges_eq (currentYear : Z) (p : Paper) :
  assignBadges currentYear p =
  (if (50 <=? citations p)%N then ["Highly Cited"] else [])
  ++ (if includes "arxiv" (toLowerCase (source p)) then ["Open Access"] else [])
  ++ (if (currentYear - 1 <=? year p)%Z then ["New"] else []).
Proof.
  unfold assignBadges.
  destruct (50 <=? citations p)%N, (includes "arxiv" (toLowerCase (source p))),
    (currentYear - 1 <=? year p)%Z; reflexivity.
Qed.

(** The badges do not read the tags of the paper. *)
Lemma assignBadges_with_tags (currentYear : Z) (p : Paper) (t : list string) :
  assignBadges currentYear (with_tags p t) = assignBadges currentYear p.
Proof. reflexivity. Qed.

(** Normalizing a source does not change whether it mentions arXiv, so the
    "Open Access" badge is the same before and after [normalizeSource]. *)
Lemma normalizeSource_keeps_arxiv (raw : string) :
  truthy raw = true ->
  includes "arxiv" (toLowerCase (normalizeSource (Some raw)))
  = includes "arxiv" (toLowerCase raw).
Proof.
  intros Hraw. unfold normalizeSource. rewrite Hraw. cbn [negb]. cbv zeta.
  destruct (includes "arxiv" (toLowerCase raw)) eqn:E; [reflexivity|].
  repeat match goal with
         | |- context [if ?b then _ else _] => destruct b; [reflexivity|]
         end.
  now rewrite toLowerCase_capitalize.
Qed.

(** ** The /papers handler, case by case *)

Section HandlerCases.
Variables (w : World) (currentYear : Z) (query_topic : option string).
Variable s : Server.

(** The topic of the request: [req.query.topic || ""]. *)
Local Abbreviation topic := (or_text query_topic "").

Lemma papers_handler_miss :
  get_property (topicCache s) topic = Undefined ->
  papers_handler w currentYear query_topic s =
  (PapersJson (ranked_papers w currentYear query_topic),
   {| heap := heap s ++ [ranked_papers w currentYear query_topic];
      cachedPapers := length (heap s);
      topicCache := <[topic := length (heap s)]> (topicCache s) |},
   aggregate_requests w topic).
Proof.
  intros Hmiss. unfold papers_handler. cbv zeta. rewrite Hmiss.
  unfold deref, ranked_papers, badged_papers. cbn [heap cachedPapers topicCache].
  rewrite list_lookup_middle by reflexivity.
  rewrite insert_app_r_alt by reflexivity.
  rewrite Nat.sub_diag. simpl.
  rewrite list_lookup_middle by reflexivity. reflexivity.
Qed.

Lemma papers_handler_hit (r : ref) :
  get_property (topicCache s) topic = Own r ->
  papers_handler w currentYear query_topic s = (PapersJson (deref s r), s, []).
Proof. intros Hhit. unfold papers_handler. cbv zeta. now rewrite Hhit. Qed.

Lemma papers_handler_inherited :
  get_property (topicCache s) topic = Inherited ->
  papers_handler w currentYear query_topic s = (InheritedJson topic, s, []).
Proof. intros Hin. unfold papers_handler. cbv zeta. now rewrite Hin. Qed.

End HandlerCases.

(** ** Array.prototype.sort *)

Section SortFacts.
Context {A : Type}.
Variable after : A -> A -> bool.

Lemma sort_insert_perm (x : A) (l : list A) :
  Permutation (sort_insert after x l) (x :: l).
Proof.
  induction l as [|y l IH]; simpl; [reflexivity|].
  destruct (after x y); [|reflexivity].
  rewrite IH. apply perm_swap.
Qed.

Lemma js_sort_perm (l : list A) : Permutation (js_sort after l) l.
Proof.
  induction l as [|x l IH]; simpl; [reflexivity|].
  fold (js_sort after l). rewrite sort_insert_perm. now constructor.
Qed.

Lemma js_sort_length (l : list A) : length (js_sort after l) = length l.
Proof. apply Permutation_length, js_sort_perm. Qed.

(** The comparator is consistent: "after" is asymmetric and its complement
    is transitive. *)
Hypothesis after_asym : forall a b, after a b = true -> after b a = false.
Hypothesis after_negtrans :
  forall a b c, after a b = false -> after b c = false -> after a c = false.


Lemma sort_insert_sorted (x : A) (l : list A) :
  StronglySorted (in_order after) l -> StronglySorted (in_order after) (sort_insert after x l).
Proof.
  induction 1 as [|y l Hs IH Hy]; simpl.
  - repeat constructor.
  - destruct (after x y) eqn:E.
    + constructor; [exact IH|].
      rewrite sort_insert_perm. constructor; [|exact Hy].
      now apply after_asym.
    + constructor; [now constructor|].
      constructor; [exact E|].
      eapply Forall_impl; [exact Hy|].
      intros z Hz. now apply after_negtrans with y.
Qed.

Lemma js_sort_sorted (l : list A) : StronglySorted (in_order after) (js_sort after l).
Proof.
  induction l as [|x l IH]; simpl; [constructor|].
  now apply sort_insert_sorted.
Qed.

End SortFacts.

(** Sorting tagged elements by their payload sorts the payloads. *)
Lemma js_sort_map {A B : Type} (after : A -> A -> bool) (f : B -> A)
    (l : list B) :
  map f (js_sort (fun x y => after (f x) (f y)) l) = js_sort after (map f l).
Proof.
  induction l as [|x l IH]; simpl; [reflexivity|].
  fold (js_sort (fun x y => after (f x) (f y)) l).
  fold (js_sort after (map f l)). rewrite <- IH.
  generalize (js_sort (fun x y => after (f x) (f y)) l) as t.
  induction t as [|y t IHt]; simpl; [reflexivity|].
  destruct (after (f x) (f y)); simpl; [now rewrite IHt | reflexivity].
Qed.

(** Stability: elements tagged with their positions come out with ties in
    increasing position. *)
Section Stability.
Context {A : Type}.
Variable after : A -> A -> bool.
Hypothesis after_asym : forall a b, after a b = true -> after b a = false.
Hypothesis after_negtrans :
  forall a b c, after a b = false -> after b c = false -> after a c = false.



Lemma sort_insert_stable (x : nat * A) (l : list (nat * A)) :
  Forall (fun y => (fst x < fst y)%nat) l ->
  StronglySorted (stable_order after) l ->
  StronglySorted (stable_order after) (sort_insert (after_tagged after) x l).
Proof.
  intros Hx Hs. induction Hs as [|y l Hs IH Hy]; simpl.
  - repeat constructor.
  - apply Forall_cons in Hx as [Hxy Hx].
    unfold after_tagged at 1. destruct (after (snd x) (snd y)) eqn:E.
    + constructor; [now apply IH|].
      rewrite sort_insert_perm. constructor; [|exact Hy].
      split; [now apply after_asym | congruence].
    + constructor; [now constructor|].
      constructor; [now split|].
      rewrite Forall_forall in Hy, Hx. apply Forall_forall. intros z Hz.
      split; [|intros _; now apply Hx].
      apply after_negtrans with (snd y); [exact E | now apply Hy].
Qed.

Lemma js_sort_stable (l : list (nat * A)) :
  StronglySorted (fun a b => (fst a < fst b)%nat) l ->
  StronglySorted (stable_order after) (js_sort (after_tagged after) l).
Proof.
  induction 1 as [|x l Hs IH Hx]; simpl; [constructor|].
  apply sort_insert_stable; [|exact IH].
  fold (js_sort (after_tagged after) l). now rewrite js_sort_perm.
Qed.

End Stability.


Lemma indexed_snd {A : Type} (l : list A) : map snd (indexed l) = l.
Proof.
  unfold indexed.
  assert (forall g : nat -> A -> nat * A,
             (forall i a, snd (g i a) = a) -> map snd (imap g l) = l) as H.
  { induction l as [|a l IH]; intros g Hg; simpl; [reflexivity|].
    rewrite Hg. f_equal. apply IH. intros i b. apply Hg. }
  now apply H.
Qed.

Lemma indexed_elem {A : Type} (l : list A) (i : nat) (a : A) :
  (i, a) ∈ indexed l <-> l !! i = Some a.
Proof.
  unfold indexed. rewrite elem_of_lookup_imap. split.
  - intros (j & b & [= -> ->] & H). exact H.
  - intros H. now exists i, a.
Qed.

Lemma indexed_sorted {A : Type} (l : list A) :
  StronglySorted (fun a b : nat * A => (fst a < fst b)%nat) (indexed l).
Proof.
  unfold indexed.
  assert (forall k, StronglySorted (fun a b : nat * A => (fst a < fst b)%nat)
                      (imap (fun i => pair (k + i)%nat) l)) as H.
  { induction l as [|a l IH]; intros k; simpl; constructor.
    - rewrite (imap_ext _ (fun i => pair (S k + i)%nat) l); [apply IH|].
      intros i b _. simpl. f_equal. lia.
    - apply Forall_forall. intros [j b] Hj.
      apply elem_of_lookup_imap in Hj as (i & c & [= -> ->] & _).
      simpl. lia. }
  exact (H 0%nat).
Qed.

Lemma StronglySorted_filter {A : Type} (R : A -> A -> Prop) (f : A -> bool)
    (l : list A) :
  StronglySorted R l -> StronglySorted R (List.filter f l).
Proof.
  induction 1 as [|x l Hs IH Hx]; simpl; [constructor|].
  destruct (f x); [|exact IH].
  constructor; [exact IH|].
  apply Forall_forall. intros y Hy.
  apply list_elem_of_In, filter_In in Hy as [Hy _].
  rewrite Forall_forall in Hx. now apply Hx, list_elem_of_In.
Qed.

Lemma StronglySorted_take {A : Type} (R : A -> A -> Prop) (n : nat)
    (l : list A) :
  StronglySorted R l -> StronglySorted R (take n l).
Proof.
  intros Hs. revert n. induction Hs as [|x l Hs IH Hx]; intros [|n]; simpl;
    try constructor.
  - apply IH.
  - apply Forall_forall. intros y Hy.
    rewrite Forall_forall in Hx. apply Hx.
    apply elem_of_take in Hy as (i & Hi & _).
    now apply list_elem_of_lookup_2 with i.
Qed.

Lemma StronglySorted_weaken {A : Type} (R1 R2 : A -> A -> Prop) (l : list A) :
  (forall a b, R1 a b -> R2 a b) -> StronglySorted R1 l -> StronglySorted R2 l.
Proof.
  intros HR. induction 1 as [|x l Hs IH Hx]; constructor; [exact IH|].
  eapply Forall_impl; [exact Hx|]. intros y. apply HR.
Qed.

Lemma js_sort_sorted_id {A : Type} (after : A -> A -> bool) (l : list A) :
  StronglySorted (in_order after) l -> js_sort after l = l.
Proof.
  induction 1 as [|x l Hs IH Hx]; cbn; [reflexivity|].
  fold (js_sort after l). rewrite IH.
  destruct l as [|y l]; [reflexivity|]. cbn.
  apply Forall_inv in Hx. unfold in_order in Hx. now rewrite Hx.
Qed.

Lemma js_sort_ext {A : Type} (after1 after2 : A -> A -> bool) (l : list A) :
  (forall a b, a ∈ l -> b ∈ l -> after1 a b = after2 a b) ->
  js_sort after1 l = js_sort after2 l.
Proof.
  induction l as [|x l IH]; intros H; cbn; [reflexivity|].
  fold (js_sort after1 l) (js_sort after2 l).
  rewrite IH by (intros a b Ha Hb; apply H; now apply list_elem_of_further).
  assert (forall b, b ∈ js_sort after2 l -> after1 x b = after2 x b) as Hx.
  { intros b Hb. rewrite js_sort_perm in Hb.
    apply H; [apply list_elem_of_here | now apply list_elem_of_further]. }
  revert Hx. generalize (js_sort after2 l) as t.
  induction t as [|y t IHt]; intros Hx; cbn; [reflexivity|].
  rewrite (Hx y) by apply list_elem_of_here.
  destruct (after2 x y); [|reflexivity].
  f_equal. apply IHt. intros b Hb. apply Hx. now apply list_elem_of_further.
Qed.

(** With a comparator that is only asymmetric, the sort still never leaves
    an element directly before one it has to come after, and it leaves such
    a list as it is. *)
Lemma sort_insert_adjacent {A : Type} (after : A -> A -> bool) (x : A)
    (l : list A) :
  (forall a b, after a b = true -> after b a = false) ->
  Sorted (in_order after) l -> Sorted (in_order after) (sort_insert after x l).
Proof.
  intros Hasym. induction 1 as [|y l Hs IH Hy]; cbn.
  - repeat constructor.
  - destruct (after x y) eqn:E.
    + constructor; [exact IH|].
      destruct l as [|z l]; cbn.
      * constructor. apply Hasym, E.
      * destruct (after x z); constructor;
          [now apply HdRel_inv in Hy | apply Hasym, E].
    + constructor; [now constructor|]. constructor. exact E.
Qed.

Lemma js_sort_adjacent {A : Type} (after : A -> A -> bool) (l : list A) :
  (forall a b, after a b = true -> after b a = false) ->
  Sorted (in_order after) (js_sort after l).
Proof.
  intros Hasym. induction l as [|x l IH]; cbn; [constructor|].
  now apply sort_insert_adjacent.
Qed.

Lemma js_sort_adjacent_id {A : Type} (after : A -> A -> bool) (l : list A) :
  Sorted (in_order after) l -> js_sort after l = l.
Proof.
  induction 1 as [|x l Hs IH Hx]; cbn; [reflexivity|].
  fold (js_sort after l). rewrite IH.
  destruct l as [|y l]; [reflexivity|]. cbn.
  apply HdRel_inv in Hx. unfold in_order in Hx. now rewrite Hx.
Qed.

(** ** Doubles *)

Section DoubleFacts.
Local Open Scope Z_scope.

Lemma emin_value : emin Double.prec Double.emax = -1074.
Proof. reflexivity. Qed.

Lemma fexp_ge (e : Z) : -1074 <= fexp Double.prec Double.emax e.
Proof. unfold fexp. rewrite emin_value. lia. Qed.

Lemma shr_fexp_exponent (m e : Z) (l : location) :
  -1074 <= snd (shr_fexp Double.prec Double.emax m e l).
Proof.
  unfold shr_fexp, shr.
  pose proof (fexp_ge (Zdigits2 m + e)) as H.
  destruct (fexp Double.prec Double.emax (Zdigits2 m + e) - e) eqn:E; cbn [snd]; lia.
Qed.

Lemma binary_round_aux_wf (s : bool) (m e : Z) (l : location) :
  Double.wf (binary_round_aux Double.prec Double.emax s m e l).
Proof.
  unfold binary_round_aux.
  destruct (shr_fexp Double.prec Double.emax m e l) as [mrs' e'].
  pose proof (shr_fexp_exponent
                (round_nearest_even (shr_m mrs') (loc_of_shr_record mrs')) e'
                loc_Exact) as H.
  destruct (shr_fexp Double.prec Double.emax _ e' loc_Exact) as [mrs'' e'']. cbn [snd] in H.
  destruct (shr_m mrs''); cbn; [exact I| |exact I].
  destruct (e'' <=? Double.emax - Double.prec); cbn; [exact H | exact I].
Qed.

Lemma binary_round_wf (s : bool) (m : BinNums.positive) (e : Z) :
  Double.wf (binary_round Double.prec Double.emax s m e).
Proof.
  unfold binary_round. destruct (shl_align _ _ _). apply binary_round_aux_wf.
Qed.

Lemma binary_normalize_wf (m e : Z) (szero : bool) :
  Double.wf (binary_normalize Double.prec Double.emax m e szero).
Proof. destruct m; cbn [binary_normalize]; [exact I| |]; apply binary_round_wf. Qed.

Lemma add_wf (x y : spec_float) : Double.wf x -> Double.wf y -> Double.wf (Double.add x y).
Proof.
  intros Hx Hy. unfold Double.add.
  destruct x as [sx|sx| |sx mx ex], y as [sy|sy| |sy my ey]; cbn [SFadd];
    try exact I; try assumption;
    try (destruct sx, sy; exact I).
  apply binary_normalize_wf.
Qed.

Lemma sub_wf (x y : spec_float) : Double.wf x -> Double.wf y -> Double.wf (Double.sub x y).
Proof.
  intros Hx Hy. unfold Double.sub.
  destruct x as [sx|sx| |sx mx ex], y as [sy|sy| |sy my ey]; cbn [SFsub];
    try exact I; try assumption;
    try (destruct sx, sy; exact I).
  apply binary_normalize_wf.
Qed.

Lemma mul_wf (x y : spec_float) : Double.wf (Double.mul x y).
Proof.
  unfold Double.mul.
  destruct x as [sx|sx| |sx mx ex], y as [sy|sy| |sy my ey]; cbn [SFmul];
    try exact I.
  apply binary_round_aux_wf.
Qed.

(** ** The sign of a rounded number *)

Lemma shr_record_of_loc_m (m : Z) (l : location) :
  shr_m (shr_record_of_loc m l) = m.
Proof. destruct l as [|[]]; reflexivity. Qed.

Lemma shr_1_m (mrs : shr_record) :
  0 <= shr_m mrs -> shr_m (shr_1 mrs) = shr_m mrs / 2.
Proof.
  destruct mrs as [m r s]. cbn [shr_m]. intros Hm.
  destruct m as [|p|p]; [reflexivity| |lia].
  destruct p as [p|p|]; cbn [shr_1 shr_m].
  - rewrite Pos2Z.inj_xI. apply Z.div_unique with 1; lia.
  - rewrite Pos2Z.inj_xO. apply Z.div_unique with 0; lia.
  - reflexivity.
Qed.

Lemma pow2_xO (p : BinNums.positive) : 2 ^ Zpos p~0 = 2 ^ Zpos p * 2 ^ Zpos p.
Proof. rewrite <- Z.pow_add_r by lia. f_equal. lia. Qed.

Lemma pow2_xI (p : BinNums.positive) : 2 ^ Zpos p~1 = 2 * (2 ^ Zpos p * 2 ^ Zpos p).
Proof.
  rewrite <- Z.pow_add_r by lia. rewrite <- Z.pow_succ_r by lia. f_equal. lia.
Qed.

Lemma iter_pos_shr_1_m (p : BinNums.positive) (mrs : shr_record) :
  0 <= shr_m mrs ->
  shr_m (SpecFloat.iter_pos shr_1 p mrs) = shr_m mrs / 2 ^ Zpos p.
Proof.
  revert mrs. induction p as [p IH|p IH|]; intros mrs Hm;
    cbn [SpecFloat.iter_pos].
  - assert (0 <= shr_m (shr_1 mrs)) as H1
      by (rewrite shr_1_m by exact Hm; apply Z.div_pos; lia).
    assert (0 <= shr_m (SpecFloat.iter_pos shr_1 p (shr_1 mrs))) as H2
      by (rewrite IH by exact H1; apply Z.div_pos; lia).
    rewrite IH by exact H2. rewrite IH by exact H1. rewrite shr_1_m by exact Hm.
    rewrite !Z.div_div by lia. now rewrite pow2_xI.
  - assert (0 <= shr_m (SpecFloat.iter_pos shr_1 p mrs)) as H2
      by (rewrite IH by exact Hm; apply Z.div_pos; lia).
    rewrite IH by exact H2. rewrite IH by exact Hm.
    rewrite !Z.div_div by lia. now rewrite pow2_xO.
  - rewrite shr_1_m by exact Hm. reflexivity.
Qed.

Lemma digits2_pos_lower (m : BinNums.positive) :
  2 ^ (Zpos (digits2_pos m) - 1) <= Zpos m.
Proof.
  induction m as [m IH|m IH|]; cbn [digits2_pos].
  - rewrite Pos2Z.inj_succ.
    replace (Z.succ (Z.pos (digits2_pos m)) - 1)
      with (Z.succ (Z.pos (digits2_pos m) - 1)) by lia.
    rewrite Z.pow_succ_r by lia.
    change (Z.pos m~1) with (2 * Z.pos m + 1). lia.
  - rewrite Pos2Z.inj_succ.
    replace (Z.succ (Z.pos (digits2_pos m)) - 1)
      with (Z.succ (Z.pos (digits2_pos m) - 1)) by lia.
    rewrite Z.pow_succ_r by lia.
    change (Z.pos m~0) with (2 * Z.pos m). lia.
  - reflexivity.
Qed.

Lemma shr_fexp_positive (m e : Z) (l : location) :
  0 < m -> -1074 <= e -> 0 < shr_m (fst (shr_fexp Double.prec Double.emax m e l)).
Proof.
  intros Hm He. unfold shr_fexp, shr.
  destruct m as [|p|p]; try lia. cbn [Zdigits2].
  destruct (fexp Double.prec Double.emax (Z.pos (digits2_pos p) + e) - e) as [|n|n] eqn:E;
    cbn [fst]; try (rewrite shr_record_of_loc_m; lia).
  rewrite iter_pos_shr_1_m by (rewrite shr_record_of_loc_m; lia).
  rewrite shr_record_of_loc_m.
  apply Z.div_str_pos. split; [lia|].
  pose proof (digits2_pos_lower p) as Hd.
  unfold fexp in E. rewrite emin_value in E. unfold Double.prec in E.
  assert (Z.pos n <= Z.pos (digits2_pos p) - 1) as Hn by lia.
  eapply Z.le_trans; [|exact Hd]. apply Z.pow_le_mono_r; lia.
Qed.

Lemma round_nearest_even_ge (m : Z) (l : location) :
  m <= round_nearest_even m l.
Proof.
  destruct l as [|[]]; cbn [round_nearest_even]; try lia.
  destruct (Z.even m); lia.
Qed.

Lemma binary_round_aux_signed (s : bool) (m e : Z) (l : location) :
  0 < m -> -1074 <= e -> Double.signed s (binary_round_aux Double.prec Double.emax s m e l).
Proof.
  intros Hm He. unfold binary_round_aux.
  pose proof (shr_fexp_positive m e l Hm He) as H1.
  pose proof (shr_fexp_exponent m e l) as He1.
  destruct (shr_fexp Double.prec Double.emax m e l) as [mrs' e']. cbn [fst snd] in *.
  pose proof (round_nearest_even_ge (shr_m mrs') (loc_of_shr_record mrs')) as Hr.
  pose proof (shr_fexp_positive
                (round_nearest_even (shr_m mrs') (loc_of_shr_record mrs')) e'
                loc_Exact ltac:(lia) He1) as H2.
  destruct (shr_fexp Double.prec Double.emax _ e' loc_Exact) as [mrs'' e'']. cbn [fst] in H2.
  destruct (shr_m mrs''); try lia.
  destruct (e'' <=? Double.emax - Double.prec); reflexivity.
Qed.

Lemma shl_align_exponent (m : BinNums.positive) (e e' : Z) :
  -1074 <= e -> -1074 <= e' -> -1074 <= snd (shl_align m e e').
Proof.
  intros He He'. unfold shl_align. destruct (e' - e); cbn [snd]; lia.
Qed.

Lemma binary_round_signed (s : bool) (m : BinNums.positive) (e : Z) :
  -1074 <= e -> Double.signed s (binary_round Double.prec Double.emax s m e).
Proof.
  intros He. unfold binary_round.
  pose proof (shl_align_exponent m e (fexp Double.prec Double.emax (Z.pos (digits2_pos m) + e))
                He (fexp_ge _)) as H.
  destruct (shl_align _ _ _) as [mz ez]. cbn [snd] in H.
  apply binary_round_aux_signed; lia.
Qed.

(** The sign of [binary_normalize m e] is the sign of [m]. *)
Lemma binary_normalize_positive (m e : Z) (szero : bool) :
  -1074 <= e ->
  Double.is_positive (binary_normalize Double.prec Double.emax m e szero) = (0 <? m).
Proof.
  intros He. destruct m as [|p|p]; cbn [binary_normalize].
  - destruct szero; reflexivity.
  - pose proof (binary_round_signed false p e He) as H.
    destruct (binary_round Double.prec Double.emax false p e); cbn in H; try contradiction;
      subst; reflexivity.
  - pose proof (binary_round_signed true p e He) as H.
    destruct (binary_round Double.prec Double.emax true p e); cbn in H; try contradiction;
      subst; reflexivity.
Qed.

(** ** The sign of a difference *)

Lemma iter_xO_value (m d : BinNums.positive) :
  Zpos (Pos.iter xO m d) = Zpos m * 2 ^ Zpos d.
Proof.
  induction d as [|d IH] using Pos.peano_ind.
  - cbn [Pos.iter]. change (Z.pos m~0) with (2 * Z.pos m). lia.
  - rewrite Pos.iter_succ, Pos2Z.inj_succ, Z.pow_succ_r by lia.
    change (Z.pos (Pos.iter xO m d)~0) with (2 * Z.pos (Pos.iter xO m d)).
    rewrite IH. lia.
Qed.

Lemma shl_align_value (m : BinNums.positive) (e e' : Z) :
  e' <= e -> Zpos (fst (shl_align m e e')) = Zpos m * 2 ^ (e - e').
Proof.
  intros He. unfold shl_align.
  destruct (e' - e) as [|d|d] eqn:E; cbn [fst]; try lia.
  - replace (e - e') with 0 by lia. lia.
  - rewrite iter_xO_value. f_equal. f_equal. lia.
Qed.

Lemma units_aligned (m : BinNums.positive) (e e' : Z) :
  -1074 <= e' -> e' <= e ->
  Zpos m * 2 ^ (e + 1074) = Zpos m * 2 ^ (e - e') * 2 ^ (e' + 1074).
Proof.
  intros H1 H2. rewrite <- Z.mul_assoc, <- Z.pow_add_r by lia.
  f_equal. f_equal. lia.
Qed.

(** The test [y - x > 0] of two numbers, neither of them NaN, says that
    the Double.value of [x] is less than the Double.value of [y]. *)
Lemma sub_positive (x y : spec_float) (vx vy : Double.extended) :
  Double.wf x -> Double.wf y -> Double.value x = Some vx -> Double.value y = Some vy ->
  Double.is_positive (Double.sub y x) = Double.extended_ltb vx vy.
Proof.
  intros Hx Hy Ex Ey. unfold Double.sub.
  destruct y as [sy|sy| |sy my ey], x as [sx|sx| |sx mx ex];
    cbn [Double.value] in Ex, Ey; try discriminate;
    repeat match goal with
           | H : Some _ = Some _ |- _ => injection H as <-
           | H : (if ?b then _ else _) = Some _ |- _ => destruct b
           end;
    cbn [SFsub]; try reflexivity.
  - destruct sx, sy; reflexivity.
  - (* 0 - x *)
    cbn in Hx. assert (0 < 2 ^ (ex + 1074)) by (apply Z.pow_pos_nonneg; lia).
    destruct sx; cbn [negb cond_Zopp Double.extended_ltb]; apply eq_true_iff_eq;
      rewrite Z.ltb_lt; cbn; split; intros; try discriminate; try reflexivity;
      lia.
  - (* y - 0 *)
    cbn in Hy. assert (0 < 2 ^ (ey + 1074)) by (apply Z.pow_pos_nonneg; lia).
    destruct sy; cbn [negb cond_Zopp Double.extended_ltb]; apply eq_true_iff_eq;
      rewrite Z.ltb_lt; cbn; split; intros; try discriminate; try reflexivity;
      lia.
  - (* finite - finite *)
    cbn in Hx, Hy.
    rewrite binary_normalize_positive by lia.
    rewrite !shl_align_value by lia.
    cbn [Double.extended_ltb].
    rewrite (units_aligned mx ex (Z.min ey ex)) by lia.
    rewrite (units_aligned my ey (Z.min ey ex)) by lia.
    set (A := Z.pos my * 2 ^ (ey - Z.min ey ex)).
    set (B := Z.pos mx * 2 ^ (ex - Z.min ey ex)).
    assert (0 < 2 ^ (Z.min ey ex + 1074)) as HK
      by (apply Z.pow_pos_nonneg; lia).
    set (K := 2 ^ (Z.min ey ex + 1074)) in *.
    destruct sx, sy; cbn [cond_Zopp]; apply eq_true_iff_eq;
      rewrite !Z.ltb_lt; split; intros H; nia.
Qed.

Lemma binary_normalize_positive_inv (m e : Z) (szero : bool) :
  Double.is_positive (binary_normalize Double.prec Double.emax m e szero) = true -> 0 < m.
Proof.
  destruct m as [|p|p]; cbn [binary_normalize]; [destruct szero; discriminate|lia|].
  unfold binary_round. destruct (shl_align _ _ _) as [mz ez].
  unfold binary_round_aux.
  destruct (shr_fexp Double.prec Double.emax (Z.pos mz) ez loc_Exact) as [mrs' e'].
  destruct (shr_fexp Double.prec Double.emax _ e' loc_Exact) as [mrs'' e''].
  destruct (shr_m mrs''); [discriminate| |discriminate].
  destruct (e'' <=? Double.emax - Double.prec); discriminate.
Qed.

(** The comparator [(a, b) => b - a] never puts each of two numbers after
    the other, whatever the numbers are. *)
Lemma sub_positive_asym (x y : spec_float) :
  Double.is_positive (Double.sub y x) = true -> Double.is_positive (Double.sub x y) = false.
Proof.
  unfold Double.sub.
  destruct y as [sy|sy| |sy my ey], x as [sx|sx| |sx mx ex]; cbn [SFsub];
    intros H.
  16: { apply binary_normalize_positive_inv in H.
        destruct (Double.is_positive _) eqn:H'; [|reflexivity].
        apply binary_normalize_positive_inv in H'.
        rewrite (Z.min_comm ex ey) in H'. lia. }
  all: repeat match goal with s : bool |- _ => destruct s end;
    first [discriminate H | reflexivity].
Qed.

(** ** Rounding keeps the order *)

Lemma round_quotient_bounds (m n : Z) :
  m / 2 ^ n <= round_quotient m n <= m / 2 ^ n + 1.
Proof.
  unfold round_quotient. cbv zeta.
  destruct (2 * (m mod 2 ^ n) <? 2 ^ n); [lia|].
  destruct (2 ^ n <? 2 * (m mod 2 ^ n)); [lia|].
  destruct (Z.even (m / 2 ^ n)); lia.
Qed.

Lemma round_quotient_mono (m1 m2 n : Z) :
  0 <= n -> m1 <= m2 -> round_quotient m1 n <= round_quotient m2 n.
Proof.
  intros Hn Hm.
  assert (0 < 2 ^ n) as Hp by (apply Z.pow_pos_nonneg; lia).
  pose proof (Z.div_le_mono m1 m2 (2 ^ n) Hp Hm) as Hq.
  destruct (Z.eq_dec (m1 / 2 ^ n) (m2 / 2 ^ n)) as [E|E].
  - assert (m1 mod 2 ^ n <= m2 mod 2 ^ n) as Hr.
    { rewrite !Z.mod_eq by lia. rewrite E. lia. }
    unfold round_quotient. cbv zeta. rewrite E.
    destruct (Z.ltb_spec (2 * (m1 mod 2 ^ n)) (2 ^ n)),
             (Z.ltb_spec (2 * (m2 mod 2 ^ n)) (2 ^ n)),
             (Z.ltb_spec (2 ^ n) (2 * (m1 mod 2 ^ n))),
             (Z.ltb_spec (2 ^ n) (2 * (m2 mod 2 ^ n)));
      destruct (Z.even (m2 / 2 ^ n)); lia.
  - pose proof (round_quotient_bounds m1 n).
    pose proof (round_quotient_bounds m2 n). lia.
Qed.

Lemma round_quotient_scale (m n k : Z) :
  0 <= n -> 0 <= k -> round_quotient (m * 2 ^ k) (n + k) = round_quotient m n.
Proof.
  intros Hn Hk.
  assert (0 < 2 ^ n) as Hpn by (apply Z.pow_pos_nonneg; lia).
  assert (0 < 2 ^ k) as Hpk by (apply Z.pow_pos_nonneg; lia).
  unfold round_quotient. cbv zeta.
  rewrite Z.pow_add_r by lia.
  rewrite Z.div_mul_cancel_r by lia.
  rewrite Z.mul_mod_distr_r by lia.
  destruct (Z.ltb_spec (2 * (m mod 2 ^ n)) (2 ^ n)),
           (Z.ltb_spec (2 * (m mod 2 ^ n * 2 ^ k)) (2 ^ n * 2 ^ k)),
           (Z.ltb_spec (2 ^ n) (2 * (m mod 2 ^ n))),
           (Z.ltb_spec (2 ^ n * 2 ^ k) (2 * (m mod 2 ^ n * 2 ^ k)));
    try reflexivity; nia.
Qed.

Lemma round_quotient_exact (c n : Z) :
  0 <= n -> round_quotient (c * 2 ^ n) n = c.
Proof.
  intros Hn.
  assert (0 < 2 ^ n) as Hpn by (apply Z.pow_pos_nonneg; lia).
  unfold round_quotient. cbv zeta.
  rewrite Z.div_mul, Z.mod_mul by lia.
  destruct (Z.ltb_spec (2 * 0) (2 ^ n)); [reflexivity|lia].
Qed.

Lemma round_quotient_ge (c m n : Z) :
  0 <= n -> c * 2 ^ n <= m -> c <= round_quotient m n.
Proof.
  intros Hn H. rewrite <- (round_quotient_exact c n Hn).
  now apply round_quotient_mono.
Qed.

Lemma round_quotient_le (c m n : Z) :
  0 <= n -> m <= c * 2 ^ n -> round_quotient m n <= c.
Proof.
  intros Hn H. rewrite <- (round_quotient_exact c n Hn).
  now apply round_quotient_mono.
Qed.

Lemma round_quotient_0 (m : Z) : round_quotient m 0 = m.
Proof.
  replace m with (m * 2 ^ 0) at 1 by (cbn; lia).
  now apply round_quotient_exact.
Qed.

Lemma shr_inv_start (m : Z) : shr_inv m 0 (shr_record_of_loc m loc_Exact).
Proof.
  unfold shr_inv. cbn [shr_record_of_loc shr_m shr_r shr_s].
  change (2 ^ 0) with 1. rewrite Z.div_1_r, Z.mod_1_r. auto.
Qed.

Lemma shr_1_inv (m k : Z) (mrs : shr_record) :
  0 <= m -> 0 <= k -> shr_inv m k mrs -> shr_inv m (k + 1) (shr_1 mrs).
Proof.
  intros Hm Hk [Hq Hr]. destruct mrs as [mm r s].
  cbn [shr_m shr_r shr_s] in Hq, Hr.
  assert (0 < 2 ^ k) as Hp by (apply Z.pow_pos_nonneg; lia).
  assert (m / 2 ^ (k + 1) = mm / 2) as Hdiv
    by (rewrite Z.pow_add_r, <- Z.div_div, <- Hq by lia; reflexivity).
  assert (m mod 2 ^ (k + 1) = m mod 2 ^ k + 2 ^ k * (mm mod 2)) as Hmod
    by (rewrite Z.pow_add_r, Z.rem_mul_r, <- Hq by lia; reflexivity).
  pose proof (Z.mod_pos_bound m (2 ^ k) Hp) as HR.
  assert (2 ^ (k + 1) = 2 * 2 ^ k) as Hpow
    by (rewrite Z.pow_add_r by lia; change (2 ^ 1) with 2; lia).
  assert (0 <= mm) as Hmm by (rewrite Hq; apply Z.div_pos; lia).
  unfold shr_inv. rewrite Hdiv, Hmod, Hpow.
  set (R := m mod 2 ^ k) in *. set (H := 2 ^ k) in *.
  destruct mm as [|[p|p|]|]; [| | | |lia]; cbn [shr_1 shr_m shr_r shr_s].
  - change (0 / 2) with 0. change (0 mod 2) with 0.
    split; [reflexivity|]. destruct r, s; cbn [orb]; lia.
  - assert (Z.pos p~1 / 2 = Z.pos p) as -> 
      by (symmetry; apply Z.div_unique with 1; lia).
    assert (Z.pos p~1 mod 2 = 1) as ->
      by (symmetry; apply Z.mod_unique with (Z.pos p); lia).
    split; [reflexivity|]. destruct r, s; cbn [orb]; lia.
  - assert (Z.pos p~0 / 2 = Z.pos p) as ->
      by (symmetry; apply Z.div_unique with 0; lia).
    assert (Z.pos p~0 mod 2 = 0) as ->
      by (symmetry; apply Z.mod_unique with (Z.pos p); lia).
    split; [reflexivity|]. destruct r, s; cbn [orb]; lia.
  - change (1 / 2) with 0. change (1 mod 2) with 1.
    split; [reflexivity|]. destruct r, s; cbn [orb]; lia.
Qed.

Lemma iter_shr_1_inv (p : BinNums.positive) (m k : Z) (mrs : shr_record) :
  0 <= m -> 0 <= k -> shr_inv m k mrs ->
  shr_inv m (k + Zpos p) (SpecFloat.iter_pos shr_1 p mrs).
Proof.
  intros Hm. revert k mrs.
  induction p as [p IH|p IH|]; intros k mrs Hk H; cbn [SpecFloat.iter_pos].
  - replace (k + Z.pos p~1) with (k + 1 + Z.pos p + Z.pos p) by lia.
    apply IH; [lia|]. apply IH; [lia|]. now apply shr_1_inv.
  - replace (k + Z.pos p~0) with (k + Z.pos p + Z.pos p) by lia.
    apply IH; [lia|]. now apply IH.
  - now apply shr_1_inv.
Qed.

Lemma shr_inv_round (m k : Z) (mrs : shr_record) :
  0 <= k -> shr_inv m k mrs ->
  round_nearest_even (shr_m mrs) (loc_of_shr_record mrs) = round_quotient m k.
Proof.
  intros Hk [Hq Hr]. destruct mrs as [mm r s].
  cbn [shr_m shr_r shr_s] in Hq, Hr. cbn [shr_m loc_of_shr_record].
  unfold round_quotient. cbv zeta. rewrite <- Hq.
  destruct r, s; cbn [round_nearest_even].
  - destruct (Z.ltb_spec (2 * (m mod 2 ^ k)) (2 ^ k)); [lia|].
    destruct (Z.ltb_spec (2 ^ k) (2 * (m mod 2 ^ k))); [reflexivity|lia].
  - destruct (Z.ltb_spec (2 * (m mod 2 ^ k)) (2 ^ k)); [lia|].
    destruct (Z.ltb_spec (2 ^ k) (2 * (m mod 2 ^ k))); [lia|reflexivity].
  - destruct (Z.ltb_spec (2 * (m mod 2 ^ k)) (2 ^ k)); [reflexivity|lia].
  - rewrite Hr. destruct (Z.ltb_spec (2 * 0) (2 ^ k)); [reflexivity|].
    assert (0 < 2 ^ k) by (apply Z.pow_pos_nonneg; lia). lia.
Qed.

Lemma fexp_eq (e : Z) : fexp Double.prec Double.emax e = Z.max (e - 53) (-1074).
Proof. reflexivity. Qed.

Lemma digits2_pos_upper (m : BinNums.positive) :
  Zpos m < 2 ^ Zpos (digits2_pos m).
Proof.
  induction m as [m IH|m IH|]; cbn [digits2_pos].
  - rewrite Pos2Z.inj_succ, Z.pow_succ_r by lia.
    change (Z.pos m~1) with (2 * Z.pos m + 1). lia.
  - rewrite Pos2Z.inj_succ, Z.pow_succ_r by lia.
    change (Z.pos m~0) with (2 * Z.pos m). lia.
  - reflexivity.
Qed.

Lemma digits_le (m : BinNums.positive) (k : Z) :
  Zpos m < 2 ^ k -> Zpos (digits2_pos m) <= k.
Proof.
  intros H. pose proof (digits2_pos_lower m) as Hl.
  destruct (Z.le_gt_cases (Zpos (digits2_pos m)) k) as [|Hgt]; [assumption|].
  assert (2 ^ k <= 2 ^ (Zpos (digits2_pos m) - 1))
    by (apply Z.pow_le_mono_r; lia).
  lia.
Qed.

(** The first shift of [binary_round_aux], followed by the rounding. *)
Lemma shr_fexp_round (m : BinNums.positive) (e : Z) :
  e <= fexp Double.prec Double.emax (Zpos (digits2_pos m) + e) ->
  snd (shr_fexp Double.prec Double.emax (Zpos m) e loc_Exact)
  = fexp Double.prec Double.emax (Zpos (digits2_pos m) + e) /\
  round_nearest_even
    (shr_m (fst (shr_fexp Double.prec Double.emax (Zpos m) e loc_Exact)))
    (loc_of_shr_record
       (fst (shr_fexp Double.prec Double.emax (Zpos m) e loc_Exact)))
  = round_quotient (Zpos m)
      (fexp Double.prec Double.emax (Zpos (digits2_pos m) + e) - e).
Proof.
  intros He. unfold shr_fexp, shr. cbn [Zdigits2].
  set (E := fexp Double.prec Double.emax (Z.pos (digits2_pos m) + e)) in *.
  destruct (E - e) as [|n|n] eqn:En; [| |lia]; cbn [fst snd].
  - split; [lia|]. now apply shr_inv_round, shr_inv_start.
  - split; [lia|]. apply shr_inv_round; [lia|].
    apply (iter_shr_1_inv n (Zpos m) 0); [lia|lia|apply shr_inv_start].
Qed.

(** The second shift of [binary_round_aux] and the final test. *)
Lemma shr_fexp_pack (s : bool) (M E : Z) :
  0 <= M <= 2 ^ 53 -> -1074 <= E ->
  (let '(mrs, e) := shr_fexp Double.prec Double.emax M E loc_Exact in
   match shr_m mrs with
   | Z0 => S754_zero s
   | Zpos m =>
       if e <=? Double.emax - Double.prec then S754_finite s m e
       else S754_infinity s
   | Zneg _ => S754_nan
   end) = pack s M E.
Proof.
  intros HM HE. unfold shr_fexp, shr, pack.
  destruct M as [|p|p]; [| |lia].
  - cbn [Zdigits2]. rewrite fexp_eq.
    destruct (Z.max (0 + E - 53) (-1074) - E) eqn:En; try lia; reflexivity.
  - cbn [Zdigits2]. rewrite fexp_eq.
    destruct (Z.ltb_spec (Z.pos p) (2 ^ 53)) as [Hlt|Hge].
    + pose proof (digits_le p 53 Hlt).
      destruct (Z.max (Z.pos (digits2_pos p) + E - 53) (-1074) - E) eqn:En;
        try lia; reflexivity.
    + assert (p = 9007199254740992%positive) as ->.
      { change (2 ^ 53) with 9007199254740992 in *. lia. }
      change (Z.pos (digits2_pos 9007199254740992)) with 54.
      replace (Z.max (54 + E - 53) (-1074) - E) with 1 by lia.
      cbn [SpecFloat.iter_pos shr_1 shr_record_of_loc shr_m fst snd].
      reflexivity.
Qed.

(** [binary_round_aux] on a mantissa that is not too short for its exponent
    rounds the quotient by the power of two that brings the exponent to
    [fexp]. *)
Lemma binary_round_aux_pack (s : bool) (m : BinNums.positive) (e : Z) :
  e <= fexp Double.prec Double.emax (Zpos (digits2_pos m) + e) ->
  binary_round_aux Double.prec Double.emax s (Zpos m) e loc_Exact
  = pack s (round_quotient (Zpos m)
              (fexp Double.prec Double.emax (Zpos (digits2_pos m) + e) - e))
           (fexp Double.prec Double.emax (Zpos (digits2_pos m) + e)).
Proof.
  intros He. unfold binary_round_aux.
  destruct (shr_fexp_round m e He) as [H1 H2].
  destruct (shr_fexp Double.prec Double.emax (Z.pos m) e loc_Exact)
    as [mrs' e'].
  cbn [fst snd] in H1, H2. rewrite H2, H1.
  set (E := fexp Double.prec Double.emax (Z.pos (digits2_pos m) + e)) in *.
  apply shr_fexp_pack.
  - pose proof (round_quotient_bounds (Zpos m) (E - e)) as Hb.
    assert (0 < 2 ^ (E - e)) as Hp by (apply Z.pow_pos_nonneg; lia).
    split; [pose proof (Z.div_pos (Zpos m) (2 ^ (E - e))); lia|].
    assert (Zpos m / 2 ^ (E - e) < 2 ^ 53); [|lia].
    apply Z.div_lt_upper_bound; [lia|].
    rewrite <- Z.pow_add_r by lia.
    eapply Z.lt_le_trans; [apply digits2_pos_upper|].
    apply Z.pow_le_mono_r; [lia|]. unfold E. rewrite fexp_eq. lia.
  - unfold E. rewrite fexp_eq. lia.
Qed.

(** ** The rounded value as an integer *)

Lemma pow2_pos (n : Z) : 0 <= n -> 0 < 2 ^ n.
Proof. intros. apply Z.pow_pos_nonneg; lia. Qed.

Lemma pow2_le (a b : Z) : 0 <= a <= b -> 2 ^ a <= 2 ^ b.
Proof. intros. apply Z.pow_le_mono_r; lia. Qed.

Lemma pow2_lt (a b : Z) : 0 <= a < b -> 2 ^ a < 2 ^ b.
Proof. intros. apply Z.pow_lt_mono_r; lia. Qed.

Lemma pow2_split (a b : Z) : 0 <= a <= b -> 2 ^ b = 2 ^ (b - a) * 2 ^ a.
Proof. intros. rewrite <- Z.pow_add_r by lia. f_equal. lia. Qed.

Lemma log2_bounds (a : Z) : 0 < a -> 2 ^ Z.log2 a <= a < 2 ^ (Z.log2 a + 1).
Proof. intros H. apply (Z.log2_spec a H). Qed.

Lemma rounded_mantissa_nonneg (a n : Z) :
  0 <= n -> 0 <= a -> 0 <= round_quotient a n.
Proof.
  intros Hn Ha. apply (round_quotient_ge 0); [assumption|lia].
Qed.

Lemma rounded_mantissa_le (t a : Z) :
  0 <= t -> 0 < a ->
  round_quotient a (Z.max (Z.log2 a + 1 - 53) t) <= 2 ^ 53.
Proof.
  intros Ht Ha. apply round_quotient_le; [lia|].
  destruct (log2_bounds a Ha) as [_ Hu]. pose proof (Z.log2_nonneg a).
  rewrite <- Z.pow_add_r by lia.
  assert (2 ^ (Z.log2 a + 1) <= 2 ^ (53 + Z.max (Z.log2 a + 1 - 53) t))
    by (apply pow2_le; lia).
  lia.
Qed.

Lemma rounded_mantissa_ge (t a : Z) :
  0 <= t -> 0 < a -> t < Z.log2 a + 1 - 53 ->
  2 ^ 52 <= round_quotient a (Z.max (Z.log2 a + 1 - 53) t).
Proof.
  intros Ht Ha Hn. apply round_quotient_ge; [lia|].
  destruct (log2_bounds a Ha) as [Hl _].
  rewrite <- Z.pow_add_r by lia.
  replace (52 + Z.max (Z.log2 a + 1 - 53) t) with (Z.log2 a) by lia.
  assumption.
Qed.

Lemma rounded_units_nonneg (t a : Z) :
  0 <= t -> 0 <= a -> 0 <= rounded_units t a.
Proof.
  intros Ht Ha. unfold rounded_units. cbv zeta.
  apply Z.mul_nonneg_nonneg.
  - apply rounded_mantissa_nonneg; lia.
  - apply Z.pow_nonneg. lia.
Qed.

(** Rounding keeps the order. *)
Lemma rounded_units_mono (t a1 a2 : Z) :
  0 <= t -> 0 < a1 <= a2 -> rounded_units t a1 <= rounded_units t a2.
Proof.
  intros Ht [H1 H12]. unfold rounded_units. cbv zeta.
  pose proof (Z.log2_le_mono a1 a2 H12) as HL.
  pose proof (Z.log2_nonneg a1) as HL1.
  set (L1 := Z.log2 a1) in *. set (L2 := Z.log2 a2) in *.
  destruct (log2_bounds a1 H1) as [_ Hu1]. fold L1 in Hu1.
  destruct (log2_bounds a2 ltac:(lia)) as [Hl2 _]. fold L2 in Hl2.
  set (n1 := Z.max (L1 + 1 - 53) t). set (n2 := Z.max (L2 + 1 - 53) t).
  destruct (Z.eq_dec n1 n2) as [Heq|Hne].
  - rewrite <- Heq. apply Z.mul_le_mono_nonneg_r.
    + apply Z.pow_nonneg. lia.
    + apply round_quotient_mono; lia.
  - assert (n1 < n2) as Hlt by lia.
    assert (n2 = L2 - 52) as Hn2 by lia.
    assert (L1 < L2) as HLlt by lia.
    assert (2 ^ 52 <= round_quotient a2 n2) as HM2.
    { apply round_quotient_ge; [lia|]. rewrite <- Z.pow_add_r by lia.
      replace (52 + n2) with L2 by lia. assumption. }
    assert (2 ^ (L2 - t) <= round_quotient a2 n2 * 2 ^ (n2 - t)) as HV2.
    { replace (L2 - t) with (52 + (n2 - t)) by lia.
      rewrite Z.pow_add_r by lia.
      apply Z.mul_le_mono_nonneg_r; [apply Z.pow_nonneg; lia|assumption]. }
    eapply Z.le_trans; [|exact HV2].
    destruct (Z.le_gt_cases n1 (L1 + 1)) as [Hle|Hgt].
    + assert (round_quotient a1 n1 <= 2 ^ (L1 + 1 - n1)) as HM1.
      { apply round_quotient_le; [lia|]. rewrite <- Z.pow_add_r by lia.
        replace (L1 + 1 - n1 + n1) with (L1 + 1) by lia. lia. }
      eapply Z.le_trans.
      * apply Z.mul_le_mono_nonneg_r; [apply Z.pow_nonneg; lia|exact HM1].
      * rewrite <- Z.pow_add_r by lia. apply pow2_le. lia.
    + assert (n1 = t) as Hn1 by lia.
      assert (round_quotient a1 n1 <= 1) as HM1.
      { apply round_quotient_le; [lia|].
        assert (2 ^ (L1 + 1) <= 2 ^ n1) by (apply pow2_le; lia). lia. }
      replace (n1 - t) with 0 by lia. change (2 ^ 0) with 1.
      pose proof (pow2_pos (L2 - t) ltac:(lia)). lia.
Qed.

(** A rounded value rounds to itself. *)
Lemma rounded_units_idem (t a : Z) :
  0 <= t -> 0 < a -> 0 < rounded_units t a ->
  rounded_units 0 (rounded_units t a) = rounded_units t a.
Proof.
  intros Ht Ha. unfold rounded_units at 1 3. cbv zeta.
  pose proof (rounded_mantissa_le t a Ht Ha) as HM.
  pose proof (Z.log2_nonneg a) as HL.
  set (n := Z.max (Z.log2 a + 1 - 53) t) in *.
  set (M := round_quotient a n) in *.
  intros Hu.
  assert (0 < 2 ^ (n - t)) as Hp by (apply pow2_pos; lia).
  assert (0 < M) as HM0 by nia.
  assert (M * 2 ^ (n - t) = rounded_units t a) as Hr by reflexivity.
  rewrite <- Hr. unfold rounded_units. cbv zeta.
  rewrite Z.log2_mul_pow2 by lia.
  set (j := n - t) in *.
  set (n' := Z.max (j + Z.log2 M + 1 - 53) 0).
  assert (exists c, M * 2 ^ j = c * 2 ^ n') as [c Hc].
  { destruct (Z.eq_dec M (2 ^ 53)) as [HM53|HMne].
    - exists (2 ^ (j + 53 - n')). rewrite HM53.
      assert (Z.log2 M = 53) as Hl by (rewrite HM53; apply Z.log2_pow2; lia).
      rewrite <- !Z.pow_add_r by lia. f_equal. lia.
    - assert (Z.log2 M < 53) as Hl by (apply Z.log2_lt_pow2; lia).
      pose proof (Z.log2_nonneg M).
      exists (M * 2 ^ (j - n')). rewrite <- Z.mul_assoc.
      rewrite <- Z.pow_add_r by lia. do 2 f_equal. lia. }
  rewrite Hc, round_quotient_exact by lia.
  replace (n' - 0) with n' by lia. reflexivity.
Qed.

(** ** The value of a rounded number *)

Lemma mul_pow2_lt (M j a b : Z) :
  0 <= M < 2 ^ a -> 0 <= j <= b -> 0 <= a -> M * 2 ^ j < 2 ^ (a + b).
Proof.
  intros HM Hj Ha. rewrite Z.pow_add_r by lia.
  pose proof (pow2_le j b Hj). pose proof (pow2_pos j ltac:(lia)).
  pose proof (pow2_pos a Ha). nia.
Qed.

Lemma mul_pow2_ge (M j a b : Z) :
  2 ^ a <= M -> 0 <= b <= j -> 0 <= a -> 2 ^ (a + b) <= M * 2 ^ j.
Proof.
  intros HM Hj Ha. rewrite Z.pow_add_r by lia.
  pose proof (pow2_le b j Hj). pose proof (pow2_pos b ltac:(lia)).
  pose proof (pow2_pos a Ha). nia.
Qed.

Lemma value_pack (s : bool) (M E : Z) :
  0 <= M <= 2 ^ 53 -> -1074 <= E -> (-1074 < E -> 2 ^ 52 <= M) ->
  Double.value (pack s M E) = Some (clamp s (M * 2 ^ (E + 1074))).
Proof.
  intros HM HE Hn. unfold pack, clamp.
  destruct M as [|p|p]; [| |lia].
  - rewrite Z.mul_0_l.
    destruct (Z.ltb_spec 0 (2 ^ 2098)) as [_|H];
      [|pose proof (pow2_pos 2098); lia].
    now destruct s.
  - destruct (Z.ltb_spec (Z.pos p) (2 ^ 53)) as [Hlt|Hge].
    + destruct (Z.leb_spec E 971) as [Hle|Hgt].
      * pose proof (mul_pow2_lt (Z.pos p) (E + 1074) 53 2045) as Hb.
        change (53 + 2045) with 2098 in Hb.
        destruct (Z.ltb_spec (Z.pos p * 2 ^ (E + 1074)) (2 ^ 2098));
          [reflexivity|lia].
      * pose proof (mul_pow2_ge (Z.pos p) (E + 1074) 52 2046) as Hb.
        change (52 + 2046) with 2098 in Hb.
        destruct (Z.ltb_spec (Z.pos p * 2 ^ (E + 1074)) (2 ^ 2098));
          [lia|now destruct s].
    + assert (p = 9007199254740992%positive) as ->.
      { change (2 ^ 53) with 9007199254740992 in *. lia. }
      change (Z.to_pos (Z.pos 9007199254740992 / 2))
        with 4503599627370496%positive.
      change (Z.pos 9007199254740992) with (2 ^ 53).
      change (Z.pos 4503599627370496) with (2 ^ 52).
      destruct (Z.leb_spec (E + 1) 971) as [Hle|Hgt].
      * cbn [Double.value].
        change (Z.pos 4503599627370496) with (2 ^ 52).
        replace (2 ^ 52 * 2 ^ (E + 1 + 1074)) with (2 ^ 53 * 2 ^ (E + 1074))
          by (rewrite <- !Z.pow_add_r by lia; f_equal; lia).
        rewrite <- Z.pow_add_r by lia.
        pose proof (pow2_lt (53 + (E + 1074)) 2098 ltac:(lia)).
        destruct (Z.ltb_spec (2 ^ (53 + (E + 1074))) (2 ^ 2098));
          [reflexivity|lia].
      * rewrite <- Z.pow_add_r by lia.
        pose proof (pow2_le 2098 (53 + (E + 1074)) ltac:(lia)).
        destruct (Z.ltb_spec (2 ^ (53 + (E + 1074))) (2 ^ 2098));
          [lia|now destruct s].
Qed.

Lemma digits2_pos_log2 (p : BinNums.positive) :
  Zpos (digits2_pos p) = Z.log2 (Zpos p) + 1.
Proof.
  pose proof (digits2_pos_lower p). pose proof (digits2_pos_upper p).
  assert (Z.log2 (Z.pos p) = Z.pos (digits2_pos p) - 1) as ->; [|lia].
  apply Z.log2_unique; [lia|].
  replace (Z.succ (Z.pos (digits2_pos p) - 1)) with (Z.pos (digits2_pos p))
    by lia.
  lia.
Qed.

Lemma binary_round_aux_units (s : bool) (p : BinNums.positive) (e k : Z) :
  e <= fexp Double.prec Double.emax (Zpos (digits2_pos p) + e) ->
  k <= e -> k <= -1074 ->
  Double.value (binary_round_aux Double.prec Double.emax s (Zpos p) e loc_Exact)
  = Some (clamp s (rounded_units (-1074 - k) (Zpos p * 2 ^ (e - k)))).
Proof.
  intros He Hk Hk'. rewrite binary_round_aux_pack by assumption.
  rewrite fexp_eq in *. rewrite digits2_pos_log2 in *.
  pose proof (Z.log2_nonneg (Z.pos p)) as HL.
  assert (0 < Z.pos p * 2 ^ (e - k)) as Ha
    by (pose proof (pow2_pos (e - k)); nia).
  assert (Z.log2 (Z.pos p * 2 ^ (e - k)) = e - k + Z.log2 (Z.pos p)) as Hlog
    by (apply Z.log2_mul_pow2; lia).
  set (E := Z.max (Z.log2 (Z.pos p) + 1 + e - 53) (-1074)) in *.
  set (a := Z.pos p * 2 ^ (e - k)) in *.
  assert (Z.max (Z.log2 a + 1 - 53) (-1074 - k) = E - k) as Hn by lia.
  assert (round_quotient (Z.pos p) (E - e) = round_quotient a (E - k)) as HM.
  { unfold a. replace (E - k) with (E - e + (e - k)) by lia.
    symmetry. apply round_quotient_scale; lia. }
  rewrite HM.
  pose proof (rounded_mantissa_le (-1074 - k) a ltac:(lia) Ha) as Hle.
  rewrite Hn in Hle.
  rewrite value_pack.
  - unfold rounded_units. cbv zeta. rewrite Hn.
    replace (E - k - (-1074 - k)) with (E + 1074) by lia. reflexivity.
  - split; [apply rounded_mantissa_nonneg; lia|assumption].
  - lia.
  - intros HE. rewrite <- Hn.
    apply rounded_mantissa_ge; lia.
Qed.

Lemma binary_round_units (s : bool) (p : BinNums.positive) (e k : Z) :
  k <= e -> k <= -1074 ->
  Double.value (binary_round Double.prec Double.emax s p e)
  = Some (clamp s (rounded_units (-1074 - k) (Zpos p * 2 ^ (e - k)))).
Proof.
  intros Hk Hk'. unfold binary_round.
  set (E := fexp Double.prec Double.emax (Z.pos (digits2_pos p) + e)).
  assert (-1074 <= E) as HE by (unfold E; rewrite fexp_eq; lia).
  destruct (Z.le_gt_cases e E) as [Hle|Hgt].
  - assert (shl_align p e E = (p, e)) as ->.
    { unfold shl_align. destruct (E - e) eqn:En; try lia; reflexivity. }
    now apply binary_round_aux_units.
  - pose proof (shl_align_value p e E ltac:(lia)) as Hv.
    assert (snd (shl_align p e E) = E) as Hs.
    { unfold shl_align. destruct (E - e) eqn:En; try lia; reflexivity. }
    destruct (shl_align p e E) as [mz ez]. cbn [fst snd] in Hv, Hs.
    subst ez.
    assert (Z.pos (digits2_pos mz) + E = Z.pos (digits2_pos p) + e) as Hd.
    { rewrite !digits2_pos_log2, Hv, Z.log2_mul_pow2 by lia. lia. }
    rewrite (binary_round_aux_units s mz E k).
    + rewrite Hv, <- Z.mul_assoc, <- Z.pow_add_r by lia.
      do 5 f_equal. lia.
    + rewrite Hd. fold E. lia.
    + lia.
    + assumption.
Qed.

(** [binary_normalize] gives the double nearest to [z * 2^e]. *)
Lemma binary_normalize_value (z e k : Z) (sz : bool) :
  k <= e -> k <= -1074 ->
  Double.value (binary_normalize Double.prec Double.emax z e sz)
  = Some (round_value (-1074 - k) (z * 2 ^ (e - k))).
Proof.
  intros Hk Hk'. pose proof (pow2_pos (e - k) ltac:(lia)) as Hp.
  destruct z as [|p|p]; cbn [binary_normalize].
  - reflexivity.
  - rewrite (binary_round_units false p e k) by assumption.
    unfold round_value.
    destruct (Z.pos p * 2 ^ (e - k)) eqn:Ea; try lia. reflexivity.
  - rewrite (binary_round_units true p e k) by assumption.
    unfold round_value.
    destruct (Z.neg p * 2 ^ (e - k)) eqn:Ea; try lia.
    rewrite <- Ea. do 3 f_equal. lia.
Qed.

(** ** Order and rounding *)

Lemma extended_ltb_minus (a : Double.extended) :
  Double.extended_ltb a Double.MinusInfinity = false.
Proof. now destruct a. Qed.

Lemma extended_ltb_plus (a : Double.extended) :
  Double.extended_ltb Double.PlusInfinity a = false.
Proof. now destruct a. Qed.

Lemma extended_ltb_irrefl (a : Double.extended) :
  Double.extended_ltb a a = false.
Proof. destruct a; cbn; try reflexivity. apply Z.ltb_irrefl. Qed.

Lemma clamp_cases (s : bool) (u : Z) :
  (u < 2 ^ 2098 /\ clamp s u = Double.Finite (cond_Zopp s u)) \/
  (2 ^ 2098 <= u /\
   clamp s u = if s then Double.MinusInfinity else Double.PlusInfinity).
Proof.
  unfold clamp. destruct (Z.ltb_spec u (2 ^ 2098)); [left|right]; auto.
Qed.

Lemma round_value_mono (t a1 a2 : Z) :
  0 <= t -> a1 <= a2 ->
  Double.extended_ltb (round_value t a2) (round_value t a1) = false.
Proof.
  intros Ht H. unfold round_value.
  destruct a1 as [|p1|p1], a2 as [|p2|p2]; try lia; try reflexivity.
  - pose proof (rounded_units_nonneg t (Z.pos p2) Ht ltac:(lia)).
    destruct (clamp_cases false (rounded_units t (Z.pos p2))) as [[_ ->]|[_ ->]];
      cbn; first [reflexivity|lia].
  - pose proof (rounded_units_mono t (Z.pos p1) (Z.pos p2) Ht ltac:(lia)).
    destruct (clamp_cases false (rounded_units t (Z.pos p1))) as [[? ->]|[? ->]],
      (clamp_cases false (rounded_units t (Z.pos p2))) as [[? ->]|[? ->]];
      cbn; first [reflexivity|lia].
  - pose proof (rounded_units_nonneg t (- Z.neg p1) Ht ltac:(lia)).
    destruct (clamp_cases true (rounded_units t (- Z.neg p1))) as [[_ ->]|[_ ->]];
      cbn; first [reflexivity|lia].
  - pose proof (rounded_units_nonneg t (- Z.neg p1) Ht ltac:(lia)).
    pose proof (rounded_units_nonneg t (Z.pos p2) Ht ltac:(lia)).
    destruct (clamp_cases true (rounded_units t (- Z.neg p1))) as [[? ->]|[? ->]],
      (clamp_cases false (rounded_units t (Z.pos p2))) as [[? ->]|[? ->]];
      cbn; first [reflexivity|lia].
  - pose proof (rounded_units_mono t (- Z.neg p2) (- Z.neg p1) Ht ltac:(lia)).
    destruct (clamp_cases true (rounded_units t (- Z.neg p1))) as [[? ->]|[? ->]],
      (clamp_cases true (rounded_units t (- Z.neg p2))) as [[? ->]|[? ->]];
      cbn; first [reflexivity|lia].
Qed.

Lemma round_value_idem (t a u : Z) :
  0 <= t -> round_value t a = Double.Finite u ->
  round_value 0 u = Double.Finite u.
Proof.
  intros Ht. unfold round_value at 1.
  destruct a as [|p|p].
  - intros [= <-]. reflexivity.
  - pose proof (rounded_units_nonneg t (Z.pos p) Ht ltac:(lia)) as H0.
    pose proof (rounded_units_idem t (Z.pos p) Ht ltac:(lia)) as Hi.
    destruct (clamp_cases false (rounded_units t (Z.pos p)))
      as [[Hlt ->]|[_ ->]]; [|discriminate].
    cbn [cond_Zopp]. intros [= <-].
    set (r := rounded_units t (Z.pos p)) in *.
    unfold round_value. destruct r as [|q|q] eqn:Er; [reflexivity| |lia].
    rewrite Hi by lia. unfold clamp.
    destruct (Z.ltb_spec (Z.pos q) (2 ^ 2098)); [reflexivity|lia].
  - pose proof (rounded_units_nonneg t (- Z.neg p) Ht ltac:(lia)) as H0.
    pose proof (rounded_units_idem t (- Z.neg p) Ht ltac:(lia)) as Hi.
    destruct (clamp_cases true (rounded_units t (- Z.neg p)))
      as [[Hlt ->]|[_ ->]]; [|discriminate].
    cbn [cond_Zopp]. intros [= <-].
    set (r := rounded_units t (- Z.neg p)) in *.
    unfold round_value. destruct r as [|q|q] eqn:Er; [reflexivity| |lia].
    change (- Z.pos q) with (Z.neg q). cbv iota.
    change (- Z.neg q) with (Z.pos q).
    rewrite Hi by lia. unfold clamp.
    destruct (Z.ltb_spec (Z.pos q) (2 ^ 2098)); [reflexivity|lia].
Qed.

Lemma value_nan (x : spec_float) : Double.value x = None -> x = S754_nan.
Proof. destruct x as [s|s| |s m e]; try destruct s; now cbn. Qed.

Lemma rounded_normalize (z e : Z) (sz : bool) :
  rounded (binary_normalize Double.prec Double.emax z e sz).
Proof.
  intros u.
  rewrite (binary_normalize_value z e (Z.min e (-1074))) by lia.
  intros [= H]. apply round_value_idem in H; [assumption|lia].
Qed.

Lemma rounded_zero (s : bool) : rounded (S754_zero s).
Proof. intros u [= <-]. reflexivity. Qed.

Lemma rounded_infinity (s : bool) : rounded (S754_infinity s).
Proof. intros u. now destruct s. Qed.

Lemma rounded_nan : rounded S754_nan.
Proof. intros u. discriminate. Qed.

(** ** The operations on values *)

Lemma of_Z_value (z : Z) :
  Double.value (Double.of_Z z) = Some (round_value 0 (z * 2 ^ 1074)).
Proof.
  unfold Double.of_Z.
  now rewrite (binary_normalize_value z 0 (-1074)) by lia.
Qed.

Lemma aligned_sum (sx sy : bool) (mx my : BinNums.positive) (ex ey : Z) :
  -1074 <= ex -> -1074 <= ey ->
  (cond_Zopp sx (Zpos (fst (shl_align mx ex (Z.min ex ey))))
   + cond_Zopp sy (Zpos (fst (shl_align my ey (Z.min ex ey)))))
  * 2 ^ (Z.min ex ey - -1074)
  = cond_Zopp sx (Zpos mx * 2 ^ (ex + 1074))
    + cond_Zopp sy (Zpos my * 2 ^ (ey + 1074)).
Proof.
  intros Hx Hy.
  rewrite !shl_align_value by lia.
  rewrite (units_aligned mx ex (Z.min ex ey)) by lia.
  rewrite (units_aligned my ey (Z.min ex ey)) by lia.
  replace (Z.min ex ey - -1074) with (Z.min ex ey + 1074) by lia.
  destruct sx, sy; cbn [cond_Zopp]; ring.
Qed.

Lemma aligned_difference (sx sy : bool) (mx my : BinNums.positive)
    (ex ey : Z) :
  -1074 <= ex -> -1074 <= ey ->
  (cond_Zopp sx (Zpos (fst (shl_align mx ex (Z.min ex ey))))
   - cond_Zopp sy (Zpos (fst (shl_align my ey (Z.min ex ey)))))
  * 2 ^ (Z.min ex ey - -1074)
  = cond_Zopp sx (Zpos mx * 2 ^ (ex + 1074))
    - cond_Zopp sy (Zpos my * 2 ^ (ey + 1074)).
Proof.
  intros Hx Hy.
  rewrite !shl_align_value by lia.
  rewrite (units_aligned mx ex (Z.min ex ey)) by lia.
  rewrite (units_aligned my ey (Z.min ex ey)) by lia.
  replace (Z.min ex ey - -1074) with (Z.min ex ey + 1074) by lia.
  destruct sx, sy; cbn [cond_Zopp]; ring.
Qed.

Lemma clamp_opp (s : bool) (u : Z) : clamp (negb s) u = ext_opp (clamp s u).
Proof.
  unfold clamp. destruct (u <? 2 ^ 2098), s; cbn; try reflexivity.
  now rewrite Z.opp_involutive.
Qed.

Lemma round_value_opp (t a : Z) :
  round_value t (- a) = ext_opp (round_value t a).
Proof.
  destruct a as [|p|p]; cbn [Z.opp round_value]; [reflexivity| |].
  - apply (clamp_opp false).
  - apply (clamp_opp true).
Qed.

Lemma add_value (x y : spec_float) (a b : Double.extended) :
  Double.wf x -> Double.wf y -> rounded x -> rounded y ->
  Double.value x = Some a -> Double.value y = Some b ->
  Double.value (Double.add x y) = ext_add a b.
Proof.
  intros Wx Wy Rx Ry Ex Ey. unfold Double.add.
  destruct x as [sx|sx| |sx mx ex], y as [sy|sy| |sy my ey];
    known_values;
    try reflexivity; try (now destruct sx); try (now destruct sy).
  - now destruct sx, sy.
  - cbn [SFadd ext_add Double.value]. rewrite Z.add_0_l.
    now rewrite (Ry _ eq_refl).
  - cbn [SFadd ext_add Double.value]. rewrite Z.add_0_r.
    now rewrite (Rx _ eq_refl).
  - cbn [SFadd ext_add]. cbn in Wx, Wy.
    rewrite (binary_normalize_value _ _ (-1074)) by lia.
    rewrite aligned_sum by assumption. reflexivity.
Qed.

Lemma sub_value (x y : spec_float) (a b : Double.extended) :
  Double.wf x -> Double.wf y -> rounded x -> rounded y ->
  Double.value x = Some a -> Double.value y = Some b ->
  Double.value (Double.sub x y) = ext_sub a b.
Proof.
  intros Wx Wy Rx Ry Ex Ey. unfold Double.sub.
  destruct x as [sx|sx| |sx mx ex], y as [sy|sy| |sy my ey];
    known_values;
    try reflexivity; try (now destruct sx); try (now destruct sy).
  - now destruct sx, sy.
  - cbn [SFsub ext_sub Double.value]. rewrite Z.sub_0_l.
    rewrite round_value_opp, (Ry _ eq_refl). cbn [ext_opp].
    destruct sy; cbn [negb cond_Zopp]; now rewrite ?Z.opp_involutive.
  - cbn [SFsub ext_sub Double.value]. rewrite Z.sub_0_r.
    now rewrite (Rx _ eq_refl).
  - cbn [SFsub ext_sub]. cbn in Wx, Wy.
    rewrite (binary_normalize_value _ _ (-1074)) by lia.
    rewrite aligned_difference by assumption. reflexivity.
Qed.

Lemma mul_minus_half_value (x : spec_float) (a : Double.extended) :
  Double.wf x -> Double.value x = Some a ->
  Double.value (Double.mul x Double.minus_half) = Some (ext_half_opp a).
Proof.
  intros Wx Ex. unfold Double.mul, Double.minus_half.
  destruct x as [sx|sx| |sx mx ex]; known_values; try reflexivity.
  cbn [SFmul ext_half_opp]. cbn in Wx.
  rewrite (binary_round_aux_units _ _ _ (-1127)); [| |lia|lia].
  - rewrite Pos2Z.inj_mul.
    change (Z.pos 4503599627370496) with (2 ^ 52).
    replace (ex + -53 - -1127) with (ex + 1074) by lia.
    change (-1074 - -1127) with 53.
    pose proof (pow2_pos (ex + 1074) ltac:(lia)) as Hp.
    pose proof (pow2_pos 52 ltac:(lia)) as Hp'.
    assert (0 < Z.pos mx * 2 ^ (ex + 1074) * 2 ^ 52) as Hpos by nia.
    replace (Z.pos mx * 2 ^ 52 * 2 ^ (ex + 1074))
      with (Z.pos mx * 2 ^ (ex + 1074) * 2 ^ 52) by ring.
    unfold round_value.
    destruct sx; cbn [xorb cond_Zopp].
    + rewrite Z.opp_involutive.
      destruct (Z.pos mx * 2 ^ (ex + 1074) * 2 ^ 52) eqn:E; try lia.
      reflexivity.
    + destruct (- (Z.pos mx * 2 ^ (ex + 1074)) * 2 ^ 52) eqn:E; try lia.
      rewrite <- E. do 3 f_equal. ring.
  - rewrite fexp_eq, digits2_pos_log2, Pos2Z.inj_mul.
    change (Z.pos 4503599627370496) with (2 ^ 52).
    rewrite Z.log2_mul_pow2 by lia.
    pose proof (Z.log2_nonneg (Z.pos mx)). lia.
Qed.

Lemma ext_add_mono (a1 a2 b1 b2 : Double.extended) :
  Double.extended_ltb a2 a1 = false -> Double.extended_ltb b2 b1 = false ->
  match ext_add a1 b1, ext_add a2 b2 with
  | Some c1, Some c2 => Double.extended_ltb c2 c1 = false
  | _, _ => True
  end.
Proof.
  intros Ha Hb.
  destruct a1, a2, b1, b2; cbn in *; try discriminate; try exact I;
    try reflexivity; try assumption;
    try apply extended_ltb_minus; try apply extended_ltb_plus.
  apply round_value_mono; lia.
Qed.

Lemma ext_sub_mono (a1 a2 b1 b2 : Double.extended) :
  Double.extended_ltb a2 a1 = false -> Double.extended_ltb b1 b2 = false ->
  match ext_sub a1 b1, ext_sub a2 b2 with
  | Some c1, Some c2 => Double.extended_ltb c2 c1 = false
  | _, _ => True
  end.
Proof.
  intros Ha Hb.
  destruct a1, a2, b1, b2; cbn in *; try discriminate; try exact I;
    try reflexivity; try assumption;
    try apply extended_ltb_minus; try apply extended_ltb_plus.
  apply round_value_mono; lia.
Qed.

Lemma ext_half_opp_mono (a1 a2 : Double.extended) :
  Double.extended_ltb a2 a1 = false ->
  Double.extended_ltb (ext_half_opp a1) (ext_half_opp a2) = false.
Proof.
  intros Ha.
  destruct a1, a2; cbn in *; try discriminate; try reflexivity;
    try apply extended_ltb_minus; try apply extended_ltb_plus.
  apply round_value_mono; [lia|].
  pose proof (pow2_pos 52 ltac:(lia)). apply Z.ltb_ge in Ha. nia.
Qed.

(** ** Order of the results *)

Lemma leq_nan_l (x : spec_float) : leq S754_nan x.
Proof. unfold leq, Double.below. now destruct (Double.value x). Qed.

Lemma leq_nan_r (x : spec_float) : leq x S754_nan.
Proof. reflexivity. Qed.

Lemma leq_refl (x : spec_float) : leq x x.
Proof.
  unfold leq, Double.below. destruct (Double.value x); [|reflexivity].
  apply extended_ltb_irrefl.
Qed.

Lemma leq_values (x y : spec_float) (a b : Double.extended) :
  Double.value x = Some a -> Double.value y = Some b ->
  leq x y <-> Double.extended_ltb b a = false.
Proof. intros Ex Ey. unfold leq, Double.below. now rewrite Ex, Ey. Qed.

Lemma add_nan_l (y : spec_float) : Double.add S754_nan y = S754_nan.
Proof. reflexivity. Qed.

Lemma add_nan_r (x : spec_float) : Double.add x S754_nan = S754_nan.
Proof. now destruct x. Qed.

Lemma sub_nan_l (y : spec_float) : Double.sub S754_nan y = S754_nan.
Proof. reflexivity. Qed.

Lemma sub_nan_r (x : spec_float) : Double.sub x S754_nan = S754_nan.
Proof. now destruct x. Qed.

Lemma of_Z_mono (z1 z2 : Z) :
  z1 <= z2 -> leq (Double.of_Z z1) (Double.of_Z z2).
Proof.
  intros H.
  apply (leq_values _ _ _ _ (of_Z_value z1) (of_Z_value z2)).
  apply round_value_mono; [lia|].
  apply Z.mul_le_mono_nonneg_r; [apply Z.pow_nonneg; lia|assumption].
Qed.

(** [x + y] grows with [x] and with [y]. *)
Lemma add_mono (x1 x2 y1 y2 : spec_float) :
  Double.wf x1 -> Double.wf x2 -> Double.wf y1 -> Double.wf y2 ->
  rounded x1 -> rounded x2 -> rounded y1 -> rounded y2 ->
  leq x1 x2 -> leq y1 y2 ->
  leq (Double.add x1 y1) (Double.add x2 y2).
Proof.
  intros Wx1 Wx2 Wy1 Wy2 Rx1 Rx2 Ry1 Ry2 Hx Hy.
  destruct (Double.value x1) as [a1|] eqn:Ex1;
    [|apply value_nan in Ex1; subst x1; apply leq_nan_l].
  destruct (Double.value x2) as [a2|] eqn:Ex2;
    [|apply value_nan in Ex2; subst x2; apply leq_nan_r].
  destruct (Double.value y1) as [b1|] eqn:Ey1;
    [|apply value_nan in Ey1; subst y1; rewrite add_nan_r; apply leq_nan_l].
  destruct (Double.value y2) as [b2|] eqn:Ey2;
    [|apply value_nan in Ey2; subst y2; rewrite add_nan_r; apply leq_nan_r].
  apply (leq_values _ _ _ _ Ex1 Ex2) in Hx.
  apply (leq_values _ _ _ _ Ey1 Ey2) in Hy.
  pose proof (ext_add_mono a1 a2 b1 b2 Hx Hy) as H.
  unfold leq, Double.below.
  rewrite (add_value x1 y1 a1 b1), (add_value x2 y2 a2 b2) by assumption.
  destruct (ext_add a1 b1), (ext_add a2 b2); auto.
Qed.

(** [x - y] grows with [x] and falls as [y] grows. *)
Lemma sub_mono (x1 x2 y1 y2 : spec_float) :
  Double.wf x1 -> Double.wf x2 -> Double.wf y1 -> Double.wf y2 ->
  rounded x1 -> rounded x2 -> rounded y1 -> rounded y2 ->
  leq x1 x2 -> leq y2 y1 ->
  leq (Double.sub x1 y1) (Double.sub x2 y2).
Proof.
  intros Wx1 Wx2 Wy1 Wy2 Rx1 Rx2 Ry1 Ry2 Hx Hy.
  destruct (Double.value x1) as [a1|] eqn:Ex1;
    [|apply value_nan in Ex1; subst x1; apply leq_nan_l].
  destruct (Double.value x2) as [a2|] eqn:Ex2;
    [|apply value_nan in Ex2; subst x2; apply leq_nan_r].
  destruct (Double.value y1) as [b1|] eqn:Ey1;
    [|apply value_nan in Ey1; subst y1; rewrite sub_nan_r; apply leq_nan_l].
  destruct (Double.value y2) as [b2|] eqn:Ey2;
    [|apply value_nan in Ey2; subst y2; rewrite sub_nan_r; apply leq_nan_r].
  apply (leq_values _ _ _ _ Ex1 Ex2) in Hx.
  apply (leq_values _ _ _ _ Ey2 Ey1) in Hy.
  pose proof (ext_sub_mono a1 a2 b1 b2 Hx Hy) as H.
  unfold leq, Double.below.
  rewrite (sub_value x1 y1 a1 b1), (sub_value x2 y2 a2 b2) by assumption.
  destruct (ext_sub a1 b1), (ext_sub a2 b2); auto.
Qed.

(** [x * -0.5] falls as [x] grows. *)
Lemma mul_minus_half_mono (x1 x2 : spec_float) :
  Double.wf x1 -> Double.wf x2 -> leq x1 x2 ->
  leq (Double.mul x2 Double.minus_half) (Double.mul x1 Double.minus_half).
Proof.
  intros W1 W2 H.
  destruct (Double.value x1) as [a1|] eqn:E1;
    [|apply value_nan in E1; subst x1; apply leq_nan_r].
  destruct (Double.value x2) as [a2|] eqn:E2;
    [|apply value_nan in E2; subst x2; apply leq_nan_l].
  apply (leq_values _ _ _ _ E1 E2) in H.
  apply (leq_values _ _ _ _ (mul_minus_half_value x2 a2 W2 E2)
                            (mul_minus_half_value x1 a1 W1 E1)).
  now apply ext_half_opp_mono.
Qed.

Lemma rounded_of_Z (z : Z) : rounded (Double.of_Z z).
Proof. apply rounded_normalize. Qed.

Lemma rounded_mul_minus_half (x : spec_float) :
  Double.wf x -> rounded (Double.mul x Double.minus_half).
Proof.
  intros W u.
  destruct (Double.value x) as [a|] eqn:E;
    [|apply value_nan in E; subst x; discriminate].
  rewrite (mul_minus_half_value x a W E). intros [= H].
  destruct a; try discriminate.
  cbn [ext_half_opp] in H. apply round_value_idem in H; [assumption|lia].
Qed.

Lemma rounded_Math_log (engine : spec_float -> Z * Z) (x : spec_float) :
  rounded (Double.Math_log engine x).
Proof.
  unfold Double.Math_log.
  destruct x as [s|[]| |[] m e];
    auto using rounded_zero, rounded_infinity, rounded_nan.
  destruct (SFeqb _ _); [apply rounded_zero|].
  destruct (engine _). apply rounded_normalize.
Qed.

Lemma rounded_one : rounded Double.one.
Proof. change Double.one with (Double.of_Z 1). apply rounded_of_Z. Qed.

End DoubleFacts.

Lemma Math_log_wf (engine : spec_float -> Z * Z) (x : spec_float) :
  Double.wf (Double.Math_log engine x).
Proof.
  destruct x as [sx|sx| |sx mx ex]; cbn [Double.Math_log]; try exact I.
  - destruct sx; exact I.
  - destruct sx; [exact I|].
    destruct (SFeqb _ _); [exact I|].
    destruct (engine _) as [m e]. apply binary_normalize_wf.
Qed.

Lemma of_Z_wf (z : Z) : Double.wf (Double.of_Z z).
Proof. apply binary_normalize_wf. Qed.

Lemma extended_ltb_asym (a b : Double.extended) :
  Double.extended_ltb a b = true -> Double.extended_ltb b a = false.
Proof.
  destruct a, b; cbn; try discriminate; try reflexivity.
  intros H. apply Z.ltb_lt in H. apply Z.ltb_ge. lia.
Qed.

Lemma extended_ltb_negtrans (a b c : Double.extended) :
  Double.extended_ltb a b = false -> Double.extended_ltb b c = false ->
  Double.extended_ltb a c = false.
Proof.
  destruct a, b, c; cbn; try discriminate; try reflexivity.
  intros H1 H2. apply Z.ltb_ge in H1, H2. apply Z.ltb_ge. lia.
Qed.

Lemma value_not_nan (x : spec_float) :
  Double.is_nan x = false -> exists v, Double.value x = Some v.
Proof.
  destruct x as [sx|sx| |sx mx ex]; cbn; try discriminate; eauto.
  destruct sx; eauto.
Qed.

(** Adding [0] leaves the value as it is. *)
Lemma add_zero_value (x : spec_float) :
  Double.value (Double.add x Double.zero) = Double.value x.
Proof. destruct x as [[]|[]| |sx mx ex]; reflexivity. Qed.

Lemma StronglySorted_weaken_on {A : Type} (P : A -> Prop)
    (R1 R2 : A -> A -> Prop) (l : list A) :
  Forall P l -> (forall a b, P a -> P b -> R1 a b -> R2 a b) ->
  StronglySorted R1 l -> StronglySorted R2 l.
Proof.
  intros HP HR. induction 1 as [|x l Hs IH Hx]; [constructor|].
  apply Forall_cons in HP as [Px Pl].
  constructor; [exact (IH Pl)|].
  rewrite Forall_forall in Hx, Pl. apply Forall_forall. intros y Hy.
  apply HR; auto.
Qed.

(** ** The trending ranker *)

Section Trending.
Variable log : spec_float -> Z * Z.
Variable currentYear : Z.

Local Abbreviation score := (trending_score log currentYear).
Local Abbreviation no_nan :=
  (fun p : Paper => Double.is_nan (trending_score log currentYear p) = false).

Lemma trending_score_wf (a : Paper) : Double.wf (score a).
Proof.
  unfold trending_score. apply add_wf; [apply Math_log_wf|].
  destruct (truthy_num (year a)); [apply mul_wf | exact I].
Qed.

(** The comparator never places each of two papers after the other. *)
Lemma trending_after_asym (a b : Paper) :
  trending_after log currentYear a b = true ->
  trending_after log currentYear b a = false.
Proof. unfold trending_after. cbv zeta. apply sub_positive_asym. Qed.

(** Between two scores that are not NaN the comparator compares the
    values. *)
Lemma trending_after_value (a b : Paper) :
  no_nan a -> no_nan b ->
  trending_after log currentYear a b = after_by_value log currentYear a b.
Proof.
  intros Ha Hb.
  destruct (value_not_nan _ Ha) as [va Ea], (value_not_nan _ Hb) as [vb Eb].
  unfold trending_after, after_by_value, rank_key. cbv zeta.
  rewrite Ea, Eb. cbn [default from_option].
  apply sub_positive; auto using trending_score_wf.
Qed.

Lemma after_by_value_below (a b : Paper) :
  after_by_value log currentYear a b = false ->
  Double.below (score a) (score b) = false.
Proof.
  unfold after_by_value, rank_key, Double.below.
  destruct (Double.value (score a)), (Double.value (score b)); auto.
Qed.

Lemma trending_after_below (a b : Paper) :
  no_nan a -> no_nan b ->
  trending_after log currentYear a b = Double.below (score a) (score b).
Proof.
  intros Ha Hb. rewrite trending_after_value by assumption.
  destruct (value_not_nan _ Ha) as [va Ea], (value_not_nan _ Hb) as [vb Eb].
  unfold after_by_value, rank_key, Double.below. now rewrite Ea, Eb.
Qed.

Lemma rank_perm (l : list Paper) : Permutation (rank log currentYear l) l.
Proof. apply js_sort_perm. Qed.

Lemma rank_by_value (l : list Paper) :
  Forall no_nan l ->
  rank log currentYear l = js_sort (after_by_value log currentYear) l.
Proof.
  intros H. rewrite Forall_forall in H. apply js_sort_ext.
  intros a b Ha Hb. apply trending_after_value; auto.
Qed.

(** When no score is NaN, the ranking is descending by the value of the
    score. *)
Lemma rank_descending (l : list Paper) :
  Forall no_nan l ->
  StronglySorted (fun a b => Double.below (score a) (score b) = false)
                 (rank log currentYear l).
Proof.
  intros H. rewrite rank_by_value by exact H.
  eapply StronglySorted_weaken;
    [|apply (js_sort_sorted (after_by_value log currentYear))].
  - intros a b. apply after_by_value_below.
  - intros a b. apply extended_ltb_asym.
  - intros a b c. apply extended_ltb_negtrans.
Qed.

Lemma rank_indexed_snd (l : list Paper) :
  map snd (rank_indexed log currentYear l) = rank log currentYear l.
Proof.
  unfold rank_indexed, after_tagged, rank.
  now rewrite js_sort_map, indexed_snd.
Qed.

Lemma rank_indexed_elem (l : list Paper) (i : nat) (p : Paper) :
  (i, p) ∈ rank_indexed log currentYear l <-> l !! i = Some p.
Proof.
  unfold rank_indexed. rewrite js_sort_perm. apply indexed_elem.
Qed.

(** When no score is NaN, the ranking is stable: of two papers neither of
    which the comparator places after the other, the one that arrived first
    comes first. *)
Lemma rank_stable (l : list Paper) :
  Forall no_nan l ->
  StronglySorted (stable_order (trending_after log currentYear))
                 (rank_indexed log currentYear l).
Proof.
  intros H.
  assert (Forall (fun x : nat * Paper => no_nan (snd x)) (indexed l)) as Hi.
  { rewrite Forall_forall in H. apply Forall_forall. intros [i p] Hp.
    apply indexed_elem in Hp. apply H. eapply list_elem_of_lookup_2, Hp. }
  assert (rank_indexed log currentYear l
          = js_sort (after_tagged (after_by_value log currentYear)) (indexed l))
    as E.
  { unfold rank_indexed. apply js_sort_ext. rewrite Forall_forall in Hi.
    intros a b Ha Hb. unfold after_tagged.
    apply trending_after_value; [exact (Hi a Ha) | exact (Hi b Hb)]. }
  rewrite E.
  eapply (StronglySorted_weaken_on (fun x : nat * Paper => no_nan (snd x)));
    [| |apply (js_sort_stable (after_by_value log currentYear)),
          indexed_sorted].
  - rewrite js_sort_perm. exact Hi.
  - intros a b Ha Hb [H1 H2]. unfold stable_order.
    rewrite !trending_after_value by assumption. split; assumption.
  - intros a b. apply extended_ltb_asym.
  - intros a b c. apply extended_ltb_negtrans.
Qed.

(** A paper of unknown year carries no recency penalty: its score has the
    value of [Math.log(citations + 1)]. *)
Lemma trending_score_unknown_year (a : Paper) :
  year a = 0%Z ->
  Double.value (score a)
  = Double.value
      (Double.Math_log log
         (Double.add (Double.of_Z (Z.of_N (citations a))) Double.one)).
Proof.
  intros H. unfold trending_score. rewrite H. cbn [truthy_num Z.eqb negb].
  apply add_zero_value.
Qed.

(** For equal citations, the later of two known years has the score that
    is not below the other's: the score falls, or stays, as the age grows. *)
Lemma trending_score_year_mono (a b : Paper) :
  citations a = citations b -> year a <> 0%Z -> year b <> 0%Z ->
  (year a <= year b)%Z ->
  Double.below (score b) (score a) = false.
Proof.
  intros Hc Ha Hb Hy. change (leq (score a) (score b)).
  unfold trending_score, truthy_num. rewrite Hc.
  destruct (Z.eqb_spec (year a) 0), (Z.eqb_spec (year b) 0);
    try contradiction.
  cbn [negb].
  apply add_mono;
    try apply Math_log_wf; try apply mul_wf; try apply rounded_Math_log;
    try (apply rounded_mul_minus_half, sub_wf; apply of_Z_wf).
  - apply leq_refl.
  - apply mul_minus_half_mono; try (apply sub_wf; apply of_Z_wf).
    apply sub_mono; try apply of_Z_wf; try apply rounded_of_Z.
    + apply leq_refl.
    + now apply of_Z_mono.
Qed.

(** For equal years, when the engine's [Math.log] keeps the order, the
    paper with more citations has the score that is not below the other's. *)
Lemma trending_score_citations_mono (a b : Paper) :
  monotone_log log -> year a = year b -> (citations a <= citations b)%N ->
  Double.below (score b) (score a) = false.
Proof.
  intros Hlog Hy Hc. change (leq (score a) (score b)).
  unfold trending_score. rewrite Hy.
  assert (Double.wf Double.one) as W1 by (cbn; lia).
  assert (Double.wf (if truthy_num (year b)
                     then Double.mul (Double.sub (Double.of_Z currentYear)
                                                 (Double.of_Z (year b)))
                                     Double.minus_half
                     else Double.zero)) as WT
    by (destruct (truthy_num (year b)); [apply mul_wf|exact I]).
  assert (rounded (if truthy_num (year b)
                   then Double.mul (Double.sub (Double.of_Z currentYear)
                                               (Double.of_Z (year b)))
                                   Double.minus_half
                   else Double.zero)) as RT.
  { destruct (truthy_num (year b)); [|apply rounded_zero].
    apply rounded_mul_minus_half, sub_wf; apply of_Z_wf. }
  apply add_mono; try assumption;
    try apply Math_log_wf; try apply rounded_Math_log.
  - apply Hlog; try (apply add_wf; [apply of_Z_wf|assumption]).
    apply add_mono; try assumption;
      try apply of_Z_wf; try apply rounded_of_Z; try apply rounded_one.
    + apply of_Z_mono. lia.
    + apply leq_refl.
  - apply leq_refl.
Qed.

End Trending.

Section CoarseLog.
Local Open Scope Z_scope.

Lemma SFeqb_finite (m m' : BinNums.positive) (e e' : Z) :
  SFeqb (S754_finite false m e) (S754_finite false m' e') = true ->
  m = m' /\ e = e'.
Proof.
  unfold SFeqb. cbn [SFcompare].
  destruct (Z.compare_spec e e'); try discriminate.
  pose proof (Pos.compare_spec m m') as Hc.
  unfold Pos.compare in Hc.
  destruct Hc as [Hm|Hm|Hm]; try discriminate. auto.
Qed.

Lemma SFeqb_one (m : BinNums.positive) (e : Z) :
  SFeqb (S754_finite false m e) Double.one = true ->
  m = 4503599627370496%positive /\ e = -52.
Proof. apply SFeqb_finite. Qed.

Lemma coarse_log_value (m : BinNums.positive) (e : Z) :
  Double.value (Double.Math_log coarse_log (S754_finite false m e))
  = Some (round_value 0
            ((Z.log2 (Zpos m) + e) * 6243314768165359 * 2 ^ 1021)).
Proof.
  cbn [Double.Math_log].
  destruct (SFeqb _ _) eqn:E.
  - apply SFeqb_one in E as [-> ->]. reflexivity.
  - cbn [coarse_log].
    now rewrite (binary_normalize_value _ (-53) (-1074)) by lia.
Qed.

(** The coarse logarithm keeps the order. *)
Lemma coarse_log_monotone : monotone_log coarse_log.
Proof.
  intros x y Wx Wy H.
  destruct x as [sx|[]| |[] mx ex]; try apply leq_nan_l.
  - unfold leq, Double.below. cbn [Double.Math_log Double.value].
    destruct (Double.value _); [apply extended_ltb_minus|reflexivity].
  - destruct y as [sy|[]| |sy my ey]; try discriminate H;
      first [apply leq_nan_r|apply leq_refl].
  - cbn in Wx.
    assert (0 < Z.pos mx * 2 ^ (ex + 1074)) as Hx
      by (pose proof (pow2_pos (ex + 1074) ltac:(lia)); nia).
    destruct y as [sy|[]| |[] my ey]; try apply leq_nan_r.
    + unfold leq, Double.below in H. cbn in H.
      apply Z.ltb_ge in H. lia.
    + unfold leq, Double.below. cbn [Double.Math_log Double.value].
      destruct (Double.value _); [apply extended_ltb_plus|reflexivity].
    + cbn in Wy.
      apply (leq_values _ _ _ _ (coarse_log_value mx ex)
                                (coarse_log_value my ey)).
      unfold leq, Double.below in H. cbn in H. apply Z.ltb_ge in H.
      apply round_value_mono; [lia|].
      apply Z.log2_le_mono in H.
      rewrite !Z.log2_mul_pow2 in H by lia.
      apply Z.mul_le_mono_nonneg_r; [apply Z.pow_nonneg; lia|].
      apply Z.mul_le_mono_nonneg_r; lia.
Qed.

End CoarseLog.

(** C2, as amended: the score is computed in doubles as
    Math.log(citations + 1) + (year <> 0 ? (currentYear - year) * -0.5 : 0):
    the penalty is dropped for the year 0 only, and a paper of unknown year
    (0) has the value of Math.log(citations + 1) as its score.  The ranking
    is a rearrangement of the list; it never leaves a paper directly before
    one that the comparator places before it; and when no score is NaN it is
    descending by the value of the score and stable.  For equal citations
    and known years the score of the older paper is never above the score
    of the younger one.  For equal years the score of the paper with fewer
    citations is never above the score of the other, provided the engine's
    Math.log keeps the order of its arguments.  Neither order is strict:
    the citation counts 2^53 and 2^53 + 1 give the same score. *)
Theorem rank_descending_by_trending_score (log : spec_float -> Z * Z)
    (currentYear : Z) :
  (forall a : Paper,
     trending_score log currentYear a =
     Double.add
       (Double.Math_log log
          (Double.add (Double.of_Z (Z.of_N (citations a))) Double.one))
       (if decide (year a = 0%Z) then Double.zero
        else Double.mul (Double.sub (Double.of_Z currentYear)
                                    (Double.of_Z (year a)))
                        Double.minus_half)) /\
  (forall a : Paper,
     year a = 0%Z ->
     Double.value (trending_score log currentYear a)
     = Double.value
         (Double.Math_log log
            (Double.add (Double.of_Z (Z.of_N (citations a))) Double.one))) /\
  (forall l : list Paper, Permutation (rank log currentYear l) l) /\
  (forall l : list Paper,
     Sorted (in_order (trending_after log currentYear))
            (rank log currentYear l)) /\
  (forall l : list Paper,
     Forall (fun p => Double.is_nan (trending_score log currentYear p) = false)
            l ->
     StronglySorted
       (fun a b =>
          Double.below (trending_score log currentYear a)
                       (trending_score log currentYear b) = false)
       (rank log currentYear l) /\
     map snd (rank_indexed log currentYear l) = rank log currentYear l /\
     (forall i p, (i, p) ∈ rank_indexed log currentYear l <-> l !! i = Some p) /\
     StronglySorted (stable_order (trending_after log currentYear))
                    (rank_indexed log currentYear l)) /\
  (forall a b : Paper,
     citations a = citations b -> year a <> 0%Z -> year b <> 0%Z ->
     (year a <= year b)%Z ->
     Double.below (trending_score log currentYear b)
                  (trending_score log currentYear a) = false) /\
  (monotone_log log ->
   forall a b : Paper,
     year a = year b -> (citations a <= citations b)%N ->
     Double.below (trending_score log currentYear b)
                  (trending_score log currentYear a) = false) /\
  (forall a b : Paper,
     year a = year b ->
     citations a = 9007199254740992%N -> citations b = 9007199254740993%N ->
     trending_score log currentYear a = trending_score log currentYear b).
Proof.
  split; [|split; [|split; [|split; [|split; [|split; [|split]]]]]].
  - intros a. unfold trending_score, truthy_num.
    destruct (Z.eqb_spec (year a) 0), (decide (year a = 0%Z));
      try reflexivity; contradiction.
  - apply trending_score_unknown_year.
  - apply rank_perm.
  - intros l. unfold rank. apply js_sort_adjacent, trending_after_asym.
  - intros l H. split; [now apply rank_descending|].
    split; [apply rank_indexed_snd|].
    split; [intros i p; apply rank_indexed_elem | now apply rank_stable].
  - apply trending_score_year_mono.
  - intros Hlog a b. now apply trending_score_citations_mono.
  - intros a b Hy Ha Hb. unfold trending_score. rewrite Hy, Ha, Hb.
    reflexivity.
Qed.

(** C2, as stated, fails: with the test [year > 0] of the specification a
    paper of negative year would carry no penalty and rank first, while the
    code penalizes it and ranks it last.  In 2026, the papers of year -1 and
    of year 2020, in this order, come out as 2020 then -1. *)
Lemma rank_not_descending_by_spec_score :
  rank coarse_log 2026 [paper_of_year "a" (-1); paper_of_year "b" 2020]
  = [paper_of_year "b" 2020; paper_of_year "a" (-1)] /\
  ~ StronglySorted
      (fun a b =>
         Double.below (spec_trending_score coarse_log 2026 a)
                      (spec_trending_score coarse_log 2026 b) = false)
      (rank coarse_log 2026 [paper_of_year "a" (-1); paper_of_year "b" 2020]).
Proof.
  assert (rank coarse_log 2026 [paper_of_year "a" (-1); paper_of_year "b" 2020]
          = [paper_of_year "b" 2020; paper_of_year "a" (-1)]) as E
    by (vm_compute; reflexivity).
  split; [exact E|]. rewrite E. intros H.
  apply StronglySorted_inv in H as [_ H]. apply Forall_inv in H.
  vm_compute in H. discriminate H.
Qed.

(** ** Badges *)

(** C4: "Highly Cited" is a badge exactly when citations >= 50, "Open
    Access" exactly when the source contains "arxiv" in any letter case,
    "New" exactly when year >= currentYear - 1, and there is no other badge.
    The badges do not depend on the tags a provider supplied, and every
    paper of a freshly aggregated answer carries exactly its badges as tags.
    A paper with 50 citations, source "arXiv" and the current year has the
    three badges. *)
Theorem assignBadges_overwrites_tags (currentYear : Z) :
  (forall p : Paper,
     "Highly Cited" ∈ assignBadges currentYear p <-> (50 <= citations p)%N) /\
  (forall p : Paper,
     "Open Access" ∈ assignBadges currentYear p <->
     exists pre post, toLowerCase (source p) = pre +:+ "arxiv" +:+ post) /\
  (forall p : Paper,
     "New" ∈ assignBadges currentYear p <-> (currentYear - 1 <= year p)%Z) /\
  (forall (p : Paper) (b : string),
     b ∈ assignBadges currentYear p ->
     b ∈ ["Highly Cited"; "Open Access"; "New"]) /\
  (forall (p : Paper) (t : list string),
     assignBadges currentYear (with_tags p t) = assignBadges currentYear p) /\
  (forall (w : World) (q : option string) (s : Server),
     get_property (topicCache s) (or_text q "") = Undefined ->
     exists papers,
       (papers_handler w currentYear q s).1.1 = PapersJson papers /\
       Permutation papers
         (map (fun p => with_tags p (assignBadges currentYear p))
              (aggregate w (or_text q ""))) /\
       Forall (fun p => tags p = assignBadges currentYear p) papers) /\
  (forall (t a l : string) (au tg : list string),
     assignBadges currentYear
       {| title := t; summary := a; link := l; authors := au;
          source := "arXiv"; year := currentYear; citations := 50%N;
          tags := tg |}
     = ["Highly Cited"; "Open Access"; "New"]).
Proof.
  split; [|split; [|split; [|split; [|split; [|split]]]]].
  - intros p. rewrite assignBadges_eq.
    destruct (N.leb_spec 50 (citations p)) as [H|H];
      destruct (includes "arxiv" (toLowerCase (source p)));
      destruct (currentYear - 1 <=? year p)%Z; cbn [app];
      (split; [intros ?; try lia | intros ?; try lia]);
      badge_membership.
  - intros p. rewrite <- includes_spec, assignBadges_eq.
    destruct (50 <=? citations p)%N;
      destruct (includes "arxiv" (toLowerCase (source p)));
      destruct (currentYear - 1 <=? year p)%Z; cbn [app];
      (split; [intros ?; try reflexivity | intros ?; try discriminate]);
      badge_membership.
  - intros p. rewrite assignBadges_eq.
    destruct (50 <=? citations p)%N;
      destruct (includes "arxiv" (toLowerCase (source p)));
      destruct (Z.leb_spec (currentYear - 1) (year p)) as [H|H]; cbn [app];
      (split; [intros ?; try lia | intros ?; try lia]);
      badge_membership.
  - intros p b. rewrite assignBadges_eq.
    destruct (50 <=? citations p)%N;
      destruct (includes "arxiv" (toLowerCase (source p)));
      destruct (currentYear - 1 <=? year p)%Z; cbn [app]; intros Hin;
      repeat match goal with
             | Hin : _ ∈ _ |- _ => inversion Hin; clear Hin; subst
             end;
      badge_membership.
  - intros p t. apply assignBadges_with_tags.
  - intros w q s Hmiss. rewrite papers_handler_miss by exact Hmiss.
    exists (ranked_papers w currentYear q). split; [reflexivity|].
    split; [apply rank_perm|].
    unfold ranked_papers, badged_papers. rewrite rank_perm.
    apply Forall_forall. intros p Hp.
    apply list_elem_of_fmap in Hp as (p0 & -> & _). reflexivity.
  - intros t a l au tg. rewrite assignBadges_eq. cbn [citations source year].
    replace (currentYear - 1 <=? currentYear)%Z with true
      by (symmetry; apply Z.leb_le; lia).
    reflexivity.
Qed.

(** ** Failure isolation in the aggregation *)

Section Adapters.
Variables (w : World) (topic : string).

Lemma fetchOpenAlex_thrown (e : string) :
  openalex_body w topic = Thrown e -> fetchOpenAlex w topic = [].
Proof. unfold fetchOpenAlex. now intros ->. Qed.

Lemma fetchArxiv_thrown (e : string) :
  arxiv_body w topic = Thrown e -> fetchArxiv w topic = [].
Proof. unfold fetchArxiv. now intros ->. Qed.

Lemma fetchSemantic_thrown (e : string) :
  semantic_body w topic = Thrown e -> fetchSemantic w topic = [].
Proof. unfold fetchSemantic. now intros ->. Qed.

Lemma fetchSpringer_thrown (e : string) :
  springer_body w topic = Thrown e -> fetchSpringer w topic = [].
Proof. unfold fetchSpringer. now intros ->. Qed.

Lemma openalex_rejected (e : string) :
  openalex_api w (openalex_request topic) = Rejected e ->
  openalex_body w topic = Thrown e.
Proof. unfold openalex_body. now intros ->. Qed.

Lemma arxiv_rejected (e : string) :
  arxiv_api w (arxiv_request topic) = Rejected e ->
  arxiv_body w topic = Thrown e.
Proof. unfold arxiv_body. now intros ->. Qed.

Lemma semantic_rejected (e : string) :
  semantic_api w (semantic_request topic) = Rejected e ->
  semantic_body w topic = Thrown e.
Proof. unfold semantic_body. now intros ->. Qed.

Lemma springer_rejected (e : string) :
  springer_api w (springer_request (SPRINGER_API_KEY w) topic) = Rejected e ->
  springer_body w topic = Thrown e.
Proof. unfold springer_body. now intros ->. Qed.

End Adapters.



Example springer_malformed_record :
  map_throwing springer_paper [record_without_url]
  = Thrown "TypeError: Cannot read properties of undefined".
Proof. reflexivity. Qed.

Example offline_aggregate : aggregate offline "graph neural networks" = [].
Proof. reflexivity. Qed.

(** X7: on payloads of the expected types no adapter raises.  Whatever its
    provider does, an adapter returns a list, and the list is empty when its
    request is rejected (a transport error, a refused or missing credential)
    and when reading the payload throws (absent data, an authorship without
    author, a record without url).  The aggregation is the concatenation of
    the four contributions, each of which depends on its own provider only,
    so a failed or empty adapter leaves the contributions of the others in
    place; when all four fail the aggregation is empty and a computed answer
    is the empty list.  [fetchSpringer] has no guard for a missing key: it
    sends its request without one. *)
Theorem aggregate_absorbs_failures (w : World) (topic : string) :
  (forall e, openalex_body w topic = Thrown e -> fetchOpenAlex w topic = []) /\
  (forall e, arxiv_body w topic = Thrown e -> fetchArxiv w topic = []) /\
  (forall e, semantic_body w topic = Thrown e -> fetchSemantic w topic = []) /\
  (forall e, springer_body w topic = Thrown e -> fetchSpringer w topic = []) /\
  (forall e, openalex_api w (openalex_request topic) = Rejected e ->
             fetchOpenAlex w topic = []) /\
  (forall e, arxiv_api w (arxiv_request topic) = Rejected e ->
             fetchArxiv w topic = []) /\
  (forall e, semantic_api w (semantic_request topic) = Rejected e ->
             fetchSemantic w topic = []) /\
  (forall e, springer_api w (springer_request (SPRINGER_API_KEY w) topic)
             = Rejected e ->
             fetchSpringer w topic = []) /\
  (openalex_api w (openalex_request topic) = Resolved None ->
   fetchOpenAlex w topic = []) /\
  (semantic_api w (semantic_request topic) = Resolved None ->
   fetchSemantic w topic = []) /\
  (springer_api w (springer_request (SPRINGER_API_KEY w) topic) = Resolved None ->
   fetchSpringer w topic = []) /\
  aggregate w topic
  = fetchOpenAlex w topic ++ fetchArxiv w topic ++ fetchSemantic w topic
    ++ fetchSpringer w topic /\
  (forall w' : World,
     (openalex_api w' = openalex_api w ->
      fetchOpenAlex w' topic = fetchOpenAlex w topic) /\
     (arxiv_api w' = arxiv_api w ->
      fetchArxiv w' topic = fetchArxiv w topic) /\
     (semantic_api w' = semantic_api w ->
      fetchSemantic w' topic = fetchSemantic w topic) /\
     (springer_api w' = springer_api w ->
      SPRINGER_API_KEY w' = SPRINGER_API_KEY w ->
      fetchSpringer w' topic = fetchSpringer w topic)) /\
  (fetchOpenAlex w topic = [] -> fetchArxiv w topic = [] ->
   fetchSemantic w topic = [] -> fetchSpringer w topic = [] ->
   aggregate w topic = [] /\
   forall (currentYear : Z) (q : option string) (s : Server),
     or_text q "" = topic ->
     get_property (topicCache s) topic = Undefined ->
     (papers_handler w currentYear q s).1.1 = PapersJson []) /\
  (SPRINGER_API_KEY w = None ->
   springer_request (SPRINGER_API_KEY w) topic
   = {| url := "https://api.springernature.com/openaccess/json";
        params := [("q", String.append "keyword:" topic)] |} /\
   aggregate_requests w topic
   = [ openalex_request topic; arxiv_request topic; semantic_request topic;
       springer_request None topic ]).
Proof.
  repeat match goal with |- _ /\ _ => split end.
  15: { intros H. unfold aggregate_requests. rewrite H. split; reflexivity. }
  - apply fetchOpenAlex_thrown.
  - apply fetchArxiv_thrown.
  - apply fetchSemantic_thrown.
  - apply fetchSpringer_thrown.
  - intros e H. eapply fetchOpenAlex_thrown, openalex_rejected, H.
  - intros e H. eapply fetchArxiv_thrown, arxiv_rejected, H.
  - intros e H. eapply fetchSemantic_thrown, semantic_rejected, H.
  - intros e H. eapply fetchSpringer_thrown, springer_rejected, H.
  - intros H. unfold fetchOpenAlex, openalex_body. now rewrite H.
  - intros H. unfold fetchSemantic, semantic_body. now rewrite H.
  - intros H. unfold fetchSpringer, springer_body. now rewrite H.
  - reflexivity.
  - intros w'. repeat split.
    + intros H. unfold fetchOpenAlex, openalex_body. now rewrite H.
    + intros H. unfold fetchArxiv, arxiv_body. now rewrite H.
    + intros H. unfold fetchSemantic, semantic_body. now rewrite H.
    + intros H K. unfold fetchSpringer, springer_body. now rewrite H, K.
  - intros H1 H2 H3 H4.
    assert (aggregate w topic = []) as Hagg
      by (unfold aggregate; now rewrite H1, H2, H3, H4).
    split; [exact Hagg|].
    intros currentYear q s Hq Hmiss. subst topic.
    rewrite papers_handler_miss by exact Hmiss.
    unfold ranked_papers, badged_papers. now rewrite Hagg.
Qed.

(** ** A payload that makes the handler raise *)

Lemma map_throwing_thrown {A B : Type} (f : A -> outcome B) (l : list A)
    (a : A) (e : string) :
  a ∈ l -> f a = Thrown e -> exists e', map_throwing f l = Thrown e'.
Proof.
  induction l as [|x l IH]; intros Hin Hf; [inversion Hin|].
  cbn [map_throwing]. apply elem_of_cons in Hin as [<-|Hin].
  - rewrite Hf. cbn. eauto.
  - destruct (f x) as [b|e0]; cbn; [|eauto].
    destruct (IH Hin Hf) as [e' ->]. cbn. eauto.
Qed.

Lemma map_throwing_text_source (currentYear : Z) (l : list Paper) :
  map_throwing (badge_json currentYear) (map text_source l)
  = Returned (map (fun p => with_tags p (assignBadges currentYear p)) l).
Proof.
  induction l as [|p l IH]; [reflexivity|].
  cbn [map map_throwing]. rewrite IH. reflexivity.
Qed.

Lemma springer_json_paper_typed (p : SpringerRecord) :
  springer_json_paper (springer_as_json p)
  = match springer_paper p with
    | Returned paper => Returned (text_source paper)
    | Thrown e => Thrown e
    end.
Proof.
  unfold springer_json_paper, springer_paper, springer_as_json. cbn [sj_url].
  destruct (sp_url p) as [entries|]; [|reflexivity]. cbn.
  destruct (sp_publisher p) as [text|]; reflexivity.
Qed.

Lemma map_throwing_springer_typed (l : list SpringerRecord) :
  map_throwing springer_json_paper (map springer_as_json l)
  = match map_throwing springer_paper l with
    | Returned papers => Returned (map text_source papers)
    | Thrown e => Thrown e
    end.
Proof.
  induction l as [|p l IH]; [reflexivity|].
  cbn [map map_throwing]. rewrite springer_json_paper_typed.
  destruct (springer_paper p) as [paper|e]; [|reflexivity]. cbn.
  rewrite IH. destruct (map_throwing springer_paper l); reflexivity.
Qed.

Lemma fetchSpringer_json_typed (w : World) (topic : string) :
  fetchSpringer_json (SPRINGER_API_KEY w) (typed_springer w) topic
  = map text_source (fetchSpringer w topic).
Proof.
  unfold fetchSpringer_json, fetchSpringer, springer_body, typed_springer.
  destruct (springer_api w _) as [e|[d|]]; try reflexivity. cbn.
  destruct (sp_records d) as [l|]; [|reflexivity]. cbn.
  rewrite map_throwing_springer_typed.
  destruct (map_throwing springer_paper l); reflexivity.
Qed.

(** On payloads of the expected types the handler is [papers_handler],
    which always sends a response. *)
Lemma papers_handler_json_typed (w : World) (currentYear : Z)
    (q : option string) (s : Server) :
  papers_handler_json w (typed_springer w) currentYear q s
  = (Some (papers_handler w currentYear q s).1.1,
     (papers_handler w currentYear q s).1.2,
     (papers_handler w currentYear q s).2).
Proof.
  unfold papers_handler_json, papers_handler. cbv zeta.
  destruct (get_property (topicCache s) (or_text q "")); try reflexivity.
  rewrite fetchSpringer_json_typed, <- map_app, !app_assoc.
  rewrite map_throwing_text_source. unfold aggregate.
  rewrite !app_assoc. reflexivity.
Qed.

(** C5: the aggregation CAN raise.  A Springer record whose publisher text
    is a truthy value that is not a text passes through [fetchSpringer],
    which reads no property of that value, and makes [assignBadges] throw at
    l.243, outside every [try]: the handler sends no response and leaves the
    cache and the corpus as they were, after the four requests were sent. *)
Theorem malformed_publisher_raises (w : World)
    (springer : Request -> reply SpringerJsonData) (currentYear : Z)
    (q : option string) (s : Server) (p : FetchedPaper) :
  get_property (topicCache s) (or_text q "") = Undefined ->
  p ∈ fetchSpringer_json (SPRINGER_API_KEY w) springer (or_text q "") ->
  source_is_text p = false ->
  papers_handler_json w springer currentYear q s
  = (None, s, aggregate_requests w (or_text q "")).
Proof.
  intros Hmiss Hp Hsrc. unfold papers_handler_json. cbv zeta. rewrite Hmiss.
  destruct (map_throwing_thrown (badge_json currentYear)
              (map text_source
                 (fetchOpenAlex w (or_text q "") ++ fetchArxiv w (or_text q "")
                  ++ fetchSemantic w (or_text q ""))
               ++ fetchSpringer_json (SPRINGER_API_KEY w) springer (or_text q ""))
              p "TypeError: p.source.toLowerCase is not a function")
    as [e' ->]; [| |reflexivity].
  - apply elem_of_app. now right.
  - unfold badge_json. now rewrite Hsrc.
Qed.

Lemma malformed_publisher_raises_witness :
  map source_is_text (fetchSpringer_json None numeric_publisher "ai") = [false] /\
  papers_handler_json offline numeric_publisher 2026 (Some "ai") initial
  = (None, initial, aggregate_requests offline "ai").
Proof.
  split; [reflexivity|].
  apply (malformed_publisher_raises offline numeric_publisher 2026 (Some "ai")
           initial
           {| fields := with_source kernels_paper "";
              source_is_text := false |}).
  - reflexivity.
  - apply list_elem_of_here.
  - reflexivity.
Defined.

(** ** Related papers *)

Lemma array_get_none {A : Type} (arr : list A) (index : jsint) :
  array_get arr index = None <->
  match index with
  | NaN => True
  | Int z => (z < 0 \/ Z.of_nat (length arr) <= z)%Z
  end.
Proof.
  destruct index as [|z]; simpl; [tauto|].
  destruct (Z.ltb_spec z 0) as [H|H]; [split; [auto|reflexivity]|].
  rewrite lookup_ge_None. lia.
Qed.

Lemma array_get_some {A : Type} (arr : list A) (z : Z) (a : A) :
  array_get arr (Int z) = Some a <->
  (0 <= z)%Z /\ arr !! Z.to_nat z = Some a.
Proof.
  simpl. destruct (Z.ltb_spec z 0) as [H|H].
  - split; [discriminate | intros [? _]; lia].
  - tauto.
Qed.

Lemma positive_lt (s : scored) : positive s = true <-> (0 < score s)%Q.
Proof.
  unfold positive. rewrite Qlt_alt.
  destruct (0 ?= score s)%Q; split; congruence.
Qed.

Lemma score_after_lt (a b : scored) :
  score_after a b = true <-> (score a < score b)%Q.
Proof.
  unfold score_after. rewrite (Qlt_minus_iff (score a) (score b)), Qlt_alt.
  destruct (0 ?= score b - score a)%Q eqn:E; unfold Qminus in E; rewrite E;
    split; congruence.
Qed.

Lemma score_after_ge (a b : scored) :
  score_after a b = false <-> (score b <= score a)%Q.
Proof.
  split.
  - intros H. apply Qnot_lt_le. intros Hlt. apply score_after_lt in Hlt.
    congruence.
  - intros H. destruct (score_after a b) eqn:E; [|reflexivity].
    apply score_after_lt in E. exfalso. eapply Qlt_not_le; eauto.
Qed.

Lemma score_after_asym (a b : scored) :
  score_after a b = true -> score_after b a = false.
Proof. rewrite score_after_lt, score_after_ge. apply Qlt_le_weak. Qed.

Lemma score_after_negtrans (a b c : scored) :
  score_after a b = false -> score_after b c = false -> score_after a c = false.
Proof. rewrite !score_after_ge. intros H1 H2. eapply Qle_trans; eauto. Qed.

Lemma filter_map_snd {A B : Type} (f : B -> bool) (l : list (A * B)) :
  map snd (List.filter (fun x => f (snd x)) l) = List.filter f (map snd l).
Proof.
  induction l as [|x l IH]; simpl; [reflexivity|].
  destruct (f (snd x)); simpl; now rewrite IH.
Qed.

Section RelatedFacts.
Variable tfidf : list string -> string -> nat -> Q.
Variables (corpus : list Paper) (index : jsint) (clickedText : string).


Lemma related_indexed_papers :
  map (fun x => paper (snd x)) (related_indexed tfidf corpus index clickedText)
  = map paper
      (take 5
         (js_sort score_after
            (List.filter positive
               (related_scores tfidf corpus index clickedText)))).
Proof.
  unfold related_indexed.
  rewrite <- (indexed_snd (related_scores tfidf corpus index clickedText)) at 2.
  rewrite <- filter_map_snd, <- js_sort_map.
  change (map snd ?l) with (snd <$> l). rewrite <- fmap_take.
  change (paper <$> (snd <$> ?l)) with (map paper (map snd l)).
  now rewrite map_map.
Qed.

Lemma related_scores_lookup (i : nat) (x : scored) :
  related_scores tfidf corpus index clickedText !! i = Some x <->
  exists p, corpus !! i = Some p /\
            x = if same_index i index then {| paper := p; score := -1 |}
                else {| paper := p;
                        score := tfidf (map document corpus) clickedText i |}.
Proof.
  unfold related_scores. rewrite list_lookup_imap.
  destruct (corpus !! i) as [p|]; simpl.
  - split; [intros [= <-]; now exists p | intros (p' & [= <-] & ->); reflexivity].
  - split; [discriminate | intros (p' & H & _); discriminate].
Qed.

Lemma related_indexed_elem (i : nat) (x : scored) :
  (i, x) ∈ (related_indexed tfidf corpus index clickedText) ->
  corpus !! i = Some (paper x) /\
  same_index i index = false /\
  score x = tfidf (map document corpus) clickedText i /\
  (0 < score x)%Q.
Proof.
  unfold related_indexed. intros H.
  apply elem_of_take in H as (k & H & _). apply list_elem_of_lookup_2 in H.
  rewrite js_sort_perm in H.
  apply list_elem_of_In, filter_In in H as [H Hpos].
  apply list_elem_of_In, indexed_elem, related_scores_lookup in H as (p & Hp & ->).
  apply positive_lt in Hpos. cbn [snd] in Hpos.
  destruct (same_index i index); cbn [paper score] in *.
  - exfalso. revert Hpos. apply Qle_not_lt. discriminate.
  - auto.
Qed.

Lemma related_indexed_length : (length (related_indexed tfidf corpus index clickedText) <= 5)%nat.
Proof. unfold related_indexed. rewrite length_take. lia. Qed.

Lemma related_indexed_sorted :
  StronglySorted
    (fun a b : nat * scored =>
       (score (snd b) < score (snd a))%Q
       \/ ((score (snd a) == score (snd b))%Q /\ (fst a < fst b)%nat))
    (related_indexed tfidf corpus index clickedText).
Proof.
  unfold related_indexed. apply StronglySorted_take.
  eapply StronglySorted_weaken;
    [|apply (js_sort_stable score_after score_after_asym score_after_negtrans),
        StronglySorted_filter, indexed_sorted].
  intros a b [H1 H2]. apply score_after_ge in H1.
  destruct (Qlt_le_dec (score (snd b)) (score (snd a))) as [Hlt|Hle];
    [now left|right].
  split; [now apply Qle_antisym|].
  apply H2. now apply score_after_ge.
Qed.

End RelatedFacts.


(** C1: for an index inside the corpus, [/related] answers with the clicked
    paper and the list of related papers.  That list is read off at most
    five positions of the corpus, none of them the clicked position; the
    paper at each of them has a strictly positive TF-IDF score against the
    clicked document; the positions come by descending score, equal scores
    by increasing position; and the score of the clicked position itself is
    -1. *)
Theorem related_top5_positive_descending
    (tfidf : list string -> string -> nat -> Q)
    (z : Z) (s : Server) (clicked : Paper) :
  (0 <= z)%Z ->
  deref s (cachedPapers s) !! Z.to_nat z = Some clicked ->
  let corpus := deref s (cachedPapers s) in
  let picks := related_indexed tfidf corpus (Int z) (document clicked) in
  related_handler tfidf (Int z) s
  = RelatedJson clicked (map (fun x => paper (snd x)) picks) /\
  (length picks <= 5)%nat /\
  (forall (i : nat) (x : scored),
     (i, x) ∈ picks ->
     Z.of_nat i <> z /\
     corpus !! i = Some (paper x) /\
     score x = tfidf (map document corpus) (document clicked) i /\
     (0 < score x)%Q) /\
  StronglySorted
    (fun a b : nat * scored =>
       (score (snd b) < score (snd a))%Q
       \/ ((score (snd a) == score (snd b))%Q /\ (fst a < fst b)%nat))
    picks /\
  related_scores tfidf corpus (Int z) (document clicked) !! Z.to_nat z
  = Some {| paper := clicked; score := -1 |}.
Proof.
  intros Hz Hclicked corpus picks.
  split; [|split; [|split; [|split]]].
  - unfold related_handler.
    rewrite (proj2 (array_get_some _ z clicked)) by (split; assumption).
    cbv zeta. f_equal. symmetry. apply related_indexed_papers.
  - apply related_indexed_length.
  - intros i x Hin.
    apply related_indexed_elem in Hin as (Hp & Hi & Hs & Hpos).
    repeat split; try assumption.
    simpl in Hi. now apply Z.eqb_neq in Hi.
  - apply related_indexed_sorted.
  - apply related_scores_lookup. exists clicked. split; [exact Hclicked|].
    simpl. rewrite Z2Nat.id by exact Hz. now rewrite Z.eqb_refl.
Qed.

Lemma related_top5_positive_descending_witness :
  (0 <= 0)%Z /\
  deref demo_server (cachedPapers demo_server) !! Z.to_nat 0
  = Some (paper_of_year "graph networks" 2024) /\
  related_handler unit_tfidf (Int 0) demo_server
  = RelatedJson (paper_of_year "graph networks" 2024)
      (map (fun x => paper (snd x))
         (related_indexed unit_tfidf (deref demo_server (cachedPapers demo_server))
            (Int 0) (document (paper_of_year "graph networks" 2024)))).
Proof.
  split; [lia|]. split; [reflexivity|].
  apply (related_top5_positive_descending unit_tfidf 0 demo_server
           (paper_of_year "graph networks" 2024)); [lia | reflexivity].
Defined.

Example related_demo :
  related_handler unit_tfidf (Int 0) demo_server
  = RelatedJson (paper_of_year "graph networks" 2024)
                [paper_of_year "graph kernels" 2021].
Proof. reflexivity. Qed.

(** C6: [/related] answers 404 exactly when the index is not a position of
    the corpus: it is not a number, it is negative, or it is at least the
    size of the corpus.  In particular the indices -1 and the size of the
    corpus are not found, and every index inside the corpus is answered. *)
Theorem related_not_found_iff_out_of_bounds
    (tfidf : list string -> string -> nat -> Q) (s : Server) :
  (forall index : jsint,
     related_handler tfidf index s = NotFound <->
     match index with
     | NaN => True
     | Int z => (z < 0 \/ Z.of_nat (length (deref s (cachedPapers s))) <= z)%Z
     end) /\
  related_handler tfidf (Int (-1)) s = NotFound /\
  related_handler tfidf (Int (Z.of_nat (length (deref s (cachedPapers s))))) s
  = NotFound.
Proof.
  assert (forall index : jsint,
            related_handler tfidf index s = NotFound <->
            match index with
            | NaN => True
            | Int z => (z < 0 \/ Z.of_nat (length (deref s (cachedPapers s))) <= z)%Z
            end) as H.
  { intros index. rewrite <- array_get_none. unfold related_handler.
    destruct (array_get (deref s (cachedPapers s)) index);
      split; intros; try reflexivity; discriminate. }
  split; [exact H|]. split; apply H; lia.
Qed.

(** ** The topic cache and the corpus *)

Lemma get_property_own (object : gmap string ref) (key : string) (r : ref) :
  object !! key = Some r -> get_property object key = Own r.
Proof. unfold get_property. now intros ->. Qed.

Lemma get_property_own_inv (object : gmap string ref) (key : string) (r : ref) :
  get_property object key = Own r -> object !! key = Some r.
Proof.
  unfold get_property. destruct (object !! key); [now intros [= ->]|].
  destruct (bool_decide _); discriminate.
Qed.

Lemma get_property_miss (object : gmap string ref) (key : string) :
  get_property object key = Undefined -> object !! key = None.
Proof.
  unfold get_property. destruct (object !! key); [discriminate|reflexivity].
Qed.


(** An entry of the cache and the array it refers to outlive every
    request: entries are never replaced or removed, arrays are never touched
    after the sort that follows their creation. *)
Lemma cache_entry_stable (s : Server) (key : string) (r : ref)
    (l : list Paper) (req : request) :
  topicCache s !! key = Some r -> heap s !! r = Some l ->
  topicCache (serve s req) !! key = Some r /\ heap (serve s req) !! r = Some l.
Proof.
  intros Hk Hr. destruct req as [w cy q|index|]; simpl; [|auto|auto].
  destruct (get_property (topicCache s) (or_text q "")) eqn:E.
  - erewrite papers_handler_hit by exact E. auto.
  - rewrite papers_handler_inherited by exact E. auto.
  - rewrite papers_handler_miss by exact E. simpl. split.
    + rewrite lookup_insert_ne; [exact Hk|].
      intros <-. apply get_property_miss in E. congruence.
    + now apply lookup_app_l_Some.
Qed.

Lemma cache_entry_stable_all (reqs : list request) (s : Server) (key : string)
    (r : ref) (l : list Paper) :
  topicCache s !! key = Some r -> heap s !! r = Some l ->
  topicCache (serve_all s reqs) !! key = Some r /\
  heap (serve_all s reqs) !! r = Some l.
Proof.
  revert s. induction reqs as [|req reqs IH]; intros s Hk Hr; simpl; [auto|].
  destruct (cache_entry_stable s key r l req Hk Hr) as [Hk' Hr'].
  now apply IH.
Qed.


(** A request answered from the cache leaves the corpus variable where the
    last computed aggregation put it. *)
Lemma hit_keeps_previous_corpus (w : World) (currentYear : Z)
    (q : option string) (s : Server) (r : ref) :
  get_property (topicCache s) (or_text q "") = Own r ->
  cachedPapers (papers_handler w currentYear q s).1.2 = cachedPapers s.
Proof. intros H. now rewrite (papers_handler_hit w currentYear q s r H). Qed.

(** A topic that names an inherited property is answered with the inherited
    value, straight away and on a fresh server too. *)
Example constructor_topic_is_inherited :
  papers_handler offline 2026 (Some "constructor") initial
  = (InheritedJson "constructor", initial, []).
Proof. reflexivity. Qed.

(** The subjects Springer supplies as tags do not survive the badges. *)
Example springer_subjects_are_dropped :
  map tags (fetchSpringer springer_six "ai")
  = repeat ["Computer Science"] 6 /\
  map tags (badged_papers springer_six 2026 (Some "ai")) = repeat [] 6 /\
  map tags (badged_papers springer_six 2025 (Some "ai")) = repeat ["New"] 6.
Proof. repeat split; reflexivity. Qed.








(** ** The size of a contribution *)


Lemma map_throwing_length {A B : Type} (f : A -> outcome B) (l : list A)
    (l' : list B) :
  map_throwing f l = Returned l' -> length l' = length l.
Proof.
  revert l'. induction l as [|a l IH]; intros l'; simpl.
  - now intros [= <-].
  - destruct (f a) as [b|e]; simpl; [|discriminate].
    destruct (map_throwing f l) as [bs|e]; simpl; [|discriminate].
    intros [= <-]. simpl. f_equal. now apply IH.
Qed.

(** An adapter passes on one paper per record it is given, or nothing: it
    never cuts the list itself. *)
Lemma fetchOpenAlex_length (w : World) (topic : string)
    (works : list OpenAlexWork) :
  openalex_api w (openalex_request topic)
  = Resolved (Some {| oa_results := Some works |}) ->
  (length (fetchOpenAlex w topic) <= length works)%nat.
Proof.
  intros H. unfold fetchOpenAlex, openalex_body. rewrite H. simpl.
  destruct (map_throwing openalex_paper works) as [l|e] eqn:E; simpl; [|lia].
  apply map_throwing_length in E. lia.
Qed.

Lemma fetchArxiv_length (w : World) (topic : string) (entries : list ArxivEntry) :
  arxiv_api w (arxiv_request topic) = Resolved (Some entries) ->
  length (fetchArxiv w topic) = length entries.
Proof.
  intros H. unfold fetchArxiv, arxiv_body. rewrite H. simpl.
  apply length_map.
Qed.

Lemma fetchSemantic_length (w : World) (topic : string)
    (papers : list SemanticPaper) :
  semantic_api w (semantic_request topic)
  = Resolved (Some {| ss_data := Some papers |}) ->
  length (fetchSemantic w topic) = length papers.
Proof.
  intros H. unfold fetchSemantic, semantic_body. rewrite H. simpl.
  apply length_map.
Qed.

Lemma map_throwing_returns {A B : Type} (f : A -> outcome B) (l : list A) :
  Forall (fun a => exists b, f a = Returned b) l ->
  exists l', map_throwing f l = Returned l'.
Proof.
  induction 1 as [|a l [b Hb] _ [l' IH]]; cbn [map_throwing].
  - now exists [].
  - rewrite Hb, IH. now exists (b :: l').
Qed.

Lemma springer_paper_returns (p : SpringerRecord) :
  sp_url p <> None -> exists x, springer_paper p = Returned x.
Proof.
  intros H. unfold springer_paper.
  destruct (sp_url p) as [u|]; [|contradiction]. eexists. reflexivity.
Qed.

Lemma fetchSpringer_length (w : World) (topic : string)
    (records : list SpringerRecord) :
  springer_api w (springer_request (SPRINGER_API_KEY w) topic)
  = Resolved (Some {| sp_records := Some records |}) ->
  Forall (fun p => sp_url p <> None) records ->
  length (fetchSpringer w topic) = length records.
Proof.
  intros H Hurl. unfold fetchSpringer, springer_body. rewrite H. simpl.
  destruct (map_throwing_returns springer_paper records) as [l E].
  { eapply Forall_impl; [exact Hurl|]. apply springer_paper_returns. }
  rewrite E. now apply map_throwing_length in E.
Qed.


(** C9 on the code: the requests of the OpenAlex, arXiv and Semantic Scholar
    adapters ask for 5 results, but the request of [fetchSpringer] carries
    the key and the query only and names no count; no adapter cuts what it
    receives, so when Springer answers with six records, [fetchSpringer]
    contributes six papers and all six are in the answer of [/papers]. *)
Theorem springer_request_is_unbounded :
  (forall topic, requested_count (openalex_request topic) = Some "5") /\
  (forall topic, requested_count (arxiv_request topic) = Some "5") /\
  (forall topic, requested_count (semantic_request topic) = Some "5") /\
  (forall key topic, requested_count (springer_request key topic) = None) /\
  (forall key topic kv,
     kv ∈ params (springer_request key topic) ->
     fst kv = "api_key" \/ fst kv = "q") /\
  length (fetchSpringer springer_six "ai") = 6%nat /\
  (exists papers,
     (papers_handler springer_six 2026 (Some "ai") initial).1.1
     = PapersJson papers /\ length papers = 6%nat).
Proof.
  repeat split; try reflexivity.
  - intros [k|] topic; reflexivity.
  - intros [k|] topic kv Hkv; cbn in Hkv;
      repeat match goal with
             | H : _ ∈ _ |- _ => inversion H; clear H; subst
             end; cbn; auto.
  - rewrite papers_handler_miss by reflexivity. eexists. split; [reflexivity|].
    unfold ranked_papers, rank. rewrite js_sort_length. reflexivity.
Qed.

(** * Further properties of the server *)

(** ** normalizeSource as a normal form *)

Lemma upper_char_lower (c : ascii) : lower_char (upper_char c) = lower_char c.
Proof. destruct c as [[] [] [] [] [] [] [] []]; reflexivity. Qed.

Lemma toLowerCase_toUpperCase (s : string) :
  toLowerCase (toUpperCase s) = toLowerCase s.
Proof.
  induction s as [|c s IH]; simpl; [reflexivity|].
  now rewrite upper_char_lower, IH.
Qed.

Lemma toUpperCase_truthy (s : string) : truthy (toUpperCase s) = truthy s.
Proof. now destruct s. Qed.

Lemma capitalize_truthy (s : string) : truthy (capitalize s) = truthy s.
Proof. now destruct s. Qed.

(** The result depends on the lowercased input only. *)
Lemma normalizeSource_lower (a b : string) :
  toLowerCase a = toLowerCase b ->
  normalizeSource (Some a) = normalizeSource (Some b).
Proof.
  intros H.
  assert (truthy a = truthy b) as Ht
    by (rewrite <- (toLowerCase_truthy a), <- (toLowerCase_truthy b); now rewrite H).
  destruct a as [|c a]; destruct b as [|d b]; try discriminate; [reflexivity|].
  rewrite !normalizeSource_some by discriminate. now rewrite H.
Qed.

Lemma normalizeSource_truthy (source : option string) :
  truthy (normalizeSource source) = true.
Proof.
  destruct source as [raw|]; [|reflexivity].
  unfold normalizeSource. destruct (truthy raw) eqn:E; [|reflexivity].
  cbn [negb]. cbv zeta.
  repeat match goal with
         | |- context [if ?b then _ else _] => destruct b; [reflexivity|]
         end.
  now rewrite capitalize_truthy, toLowerCase_truthy.
Qed.

Lemma normalizeSource_cases (raw : string) :
  truthy raw = true ->
  normalizeSource (Some raw)
  ∈ ["arXiv"; "OpenAlex"; "IEEE"; "Springer"; "Elsevier"; "ACM"]
  \/ (table_label (toLowerCase raw) = None /\
      normalizeSource (Some raw) = capitalize (toLowerCase raw)).
Proof.
  intros Hraw. unfold normalizeSource, table_label, source_table.
  rewrite Hraw. cbn [negb List.find fst snd]. cbv zeta.
  repeat match goal with
         | |- context [if includes ?k (toLowerCase raw) then _ else _] =>
             destruct (includes k (toLowerCase raw));
             [left; badge_membership|]
         end.
  right. split; reflexivity.
Qed.

(** X1: on ASCII text, a label that [normalizeSource] produced is left as
    it is by [normalizeSource]: normalizing twice is normalizing once. *)
Theorem normalizeSource_idempotent (raw : string) :
  ascii_text raw = true ->
  normalizeSource (Some (normalizeSource (Some raw))) = normalizeSource (Some raw).
Proof.
  intros _.
  destruct (truthy raw) eqn:Hraw; [|destruct raw; [reflexivity|discriminate]].
  destruct (normalizeSource_cases raw Hraw) as [Hin|[Hnone Heq]].
  - repeat (apply elem_of_cons in Hin as [->|Hin]; [reflexivity|]).
    inversion Hin.
  - rewrite Heq. rewrite normalizeSource_some.
    + now rewrite toLowerCase_capitalize, Hnone.
    + intros H. pose proof (capitalize_truthy (toLowerCase raw)) as Ht.
      rewrite H, toLowerCase_truthy, Hraw in Ht. discriminate.
Qed.

Lemma normalizeSource_idempotent_witness :
  normalizeSource (Some (normalizeSource (Some "Nature Communications")))
  = normalizeSource (Some "Nature Communications").
Proof. apply (normalizeSource_idempotent "Nature Communications"). reflexivity. Defined.

(** X2: on ASCII text, the letter case of the input does not matter: the
    input, its lowercase form and its uppercase form get the same label, and
    the label is never the empty string. *)
Theorem normalizeSource_ignores_case (raw : string) :
  ascii_text raw = true ->
  normalizeSource (Some (toLowerCase raw)) = normalizeSource (Some raw) /\
  normalizeSource (Some (toUpperCase raw)) = normalizeSource (Some raw) /\
  normalizeSource (Some raw) <> "".
Proof.
  intros _. split; [|split].
  - apply normalizeSource_lower, toLowerCase_idem.
  - apply normalizeSource_lower, toLowerCase_toUpperCase.
  - intros H. pose proof (normalizeSource_truthy (Some raw)) as Ht.
    rewrite H in Ht. discriminate.
Qed.

Lemma normalizeSource_ignores_case_witness :
  normalizeSource (Some (toLowerCase "Journal of the ACM"))
  = normalizeSource (Some "Journal of the ACM") /\
  normalizeSource (Some (toUpperCase "Journal of the ACM"))
  = normalizeSource (Some "Journal of the ACM") /\
  normalizeSource (Some "Journal of the ACM") <> "".
Proof. apply (normalizeSource_ignores_case "Journal of the ACM"). reflexivity. Defined.

(** ** What the adapters always fill in *)

Lemma or_text_truthy (x : option string) (d : string) :
  truthy d = true -> truthy (or_text x d) = true.
Proof.
  intros Hd. unfold or_text. destruct x as [s|]; [|exact Hd].
  destruct (truthy s) eqn:E; [exact E | exact Hd].
Qed.

Lemma map_throwing_Forall {A B : Type} (f : A -> outcome B) (P : B -> Prop)
    (l : list A) (l' : list B) :
  (forall a b, f a = Returned b -> P b) ->
  map_throwing f l = Returned l' -> Forall P l'.
Proof.
  intros Hf. revert l'. induction l as [|a l IH]; intros l'; cbn [map_throwing].
  - intros [= <-]. constructor.
  - destruct (f a) as [b|e] eqn:Ea; [|discriminate].
    destruct (map_throwing f l) as [bs|e] eqn:El; [|discriminate].
    intros [= <-]. constructor; [now apply Hf with a | now apply IH].
Qed.

Lemma openalex_paper_populated (p : OpenAlexWork) (x : Paper) :
  openalex_paper p = Returned x -> populated x.
Proof.
  unfold openalex_paper.
  destruct (match oa_authorships p with
            | Some l => map_throwing _ l
            | None => Returned []
            end) as [names|e]; [|discriminate].
  intros [= <-]. repeat split; cbn [title summary link source];
    first [now apply or_text_truthy
          | exact (normalizeSource_truthy
                     (Some (or_text (oa_host_venue p) "OpenAlex")))].
Qed.

Lemma arxiv_paper_populated (e : ArxivEntry) : populated (arxiv_paper e).
Proof. repeat split; cbn [title summary link source]; first [now apply or_text_truthy | reflexivity]. Qed.

Lemma semantic_paper_populated (p : SemanticPaper) : populated (semantic_paper p).
Proof.
  repeat split; cbn [title summary link source];
    first [now apply or_text_truthy
          | exact (normalizeSource_truthy
                     (Some (or_text (ss_venue p) "Semantic Scholar")))].
Qed.

Lemma springer_paper_populated (p : SpringerRecord) (x : Paper) :
  springer_paper p = Returned x -> populated x.
Proof.
  unfold springer_paper. destruct (sp_url p) as [u|]; [|discriminate].
  intros [= <-]. repeat split; cbn [title summary link source]; now apply or_text_truthy.
Qed.

Lemma aggregate_populated (w : World) (topic : string) :
  Forall populated (aggregate w topic).
Proof.
  unfold aggregate. repeat apply Forall_app_2.
  - unfold fetchOpenAlex, openalex_body.
    destruct (openalex_api w (openalex_request topic)) as [e|[d|]]; cbn;
      try constructor.
    destruct (map_throwing openalex_paper (default [] (oa_results d)))
      as [l|e] eqn:E; cbn; [|constructor].
    eapply map_throwing_Forall; [|exact E]. apply openalex_paper_populated.
  - unfold fetchArxiv, arxiv_body.
    destruct (arxiv_api w (arxiv_request topic)) as [e|d]; cbn; [constructor|].
    apply Forall_forall. intros x Hx.
    apply list_elem_of_fmap in Hx as (e & -> & _). apply arxiv_paper_populated.
  - unfold fetchSemantic, semantic_body.
    destruct (semantic_api w (semantic_request topic)) as [e|[d|]]; cbn;
      try constructor.
    apply Forall_forall. intros x Hx.
    apply list_elem_of_fmap in Hx as (e & -> & _). apply semantic_paper_populated.
  - unfold fetchSpringer, springer_body.
    destruct (springer_api w (springer_request (SPRINGER_API_KEY w) topic))
      as [e|[d|]]; cbn; try constructor.
    destruct (map_throwing springer_paper (default [] (sp_records d)))
      as [l|e] eqn:E; cbn; [|constructor].
    eapply map_throwing_Forall; [|exact E]. apply springer_paper_populated.
Qed.

Lemma ranked_papers_populated (w : World) (currentYear : Z) (q : option string) :
  Forall populated (ranked_papers w currentYear q).
Proof.
  unfold ranked_papers. rewrite rank_perm. unfold badged_papers.
  apply Forall_forall. intros x Hx.
  apply list_elem_of_fmap in Hx as (p & -> & Hp).
  pose proof (aggregate_populated w (or_text q "")) as H.
  rewrite Forall_forall in H. exact (H p Hp).
Qed.

(** ** The invariant of the state *)

Lemma consistent_initial : consistent initial.
Proof.
  unfold consistent, initial. cbn.
  repeat split; try lia; try (intros; simplify_map_eq; fail); auto.
Qed.

Lemma get_property_undefined (object : gmap string ref) (key : string) :
  get_property object key = Undefined ->
  object !! key = None /\ key ∉ object_prototype.
Proof.
  unfold get_property. destruct (object !! key); [discriminate|].
  destruct (bool_decide (key ∈ object_prototype)) eqn:E; [discriminate|].
  intros _. split; [reflexivity|]. now apply bool_decide_eq_false in E.
Qed.

Lemma consistent_serve (s : Server) (req : request) :
  consistent s -> consistent (serve s req).
Proof.
  intros Hs. destruct req as [w cy q|index|]; cbn [serve]; [|exact Hs|exact Hs].
  destruct (get_property (topicCache s) (or_text q "")) eqn:E.
  - now rewrite (papers_handler_hit w cy q s r E).
  - now rewrite (papers_handler_inherited w cy q s E).
  - rewrite (papers_handler_miss w cy q s E). cbn [fst snd].
    apply get_property_undefined in E as [Hnone Hproto].
    destruct Hs as (Hc & Hrefs & Hcorpus & Hinj & Hinh & Hzero & Hpop).
    assert (0 < length (heap s))%nat as Hlen by (apply lookup_lt_Some in Hzero; lia).
    unfold consistent. cbn [heap cachedPapers topicCache].
    rewrite length_app. cbn [length].
    split; [lia|]. split; [|split; [|split; [|split; [|split]]]].
    + intros k r Hk. destruct (decide (k = or_text q "")) as [->|Hne].
      * rewrite lookup_insert_eq in Hk. injection Hk as <-. lia.
      * rewrite lookup_insert_ne in Hk by congruence.
        apply Hrefs in Hk. lia.
    + right. exists (or_text q ""). apply lookup_insert_eq.
    + intros k k' r Hk Hk'.
      destruct (decide (k = or_text q "")) as [->|Hne];
        destruct (decide (k' = or_text q "")) as [->|Hne']; [reflexivity| | |].
      * rewrite lookup_insert_eq in Hk. injection Hk as <-.
        rewrite lookup_insert_ne in Hk' by congruence. apply Hrefs in Hk'. lia.
      * rewrite lookup_insert_eq in Hk'. injection Hk' as <-.
        rewrite lookup_insert_ne in Hk by congruence. apply Hrefs in Hk. lia.
      * rewrite lookup_insert_ne in Hk, Hk' by congruence. eauto.
    + intros k Hk. rewrite lookup_insert_ne; [now apply Hinh|].
      intros <-. contradiction.
    + now apply lookup_app_l_Some.
    + apply Forall_app_2; [exact Hpop|].
      constructor; [apply ranked_papers_populated | constructor].
Qed.

Lemma consistent_serve_all (reqs : list request) (s : Server) :
  consistent s -> consistent (serve_all s reqs).
Proof.
  revert s. induction reqs as [|req reqs IH]; intros s Hs; cbn; [exact Hs|].
  apply IH, consistent_serve, Hs.
Qed.

(** X3: in every state the server reaches from its start, the corpus
    variable and all cache entries refer to existing arrays, the corpus is
    the initial empty array or the array of a cached topic, two topics never
    share an array, no entry is stored under a property name inherited from
    Object.prototype, and every paper held has a non-empty title, summary,
    link and source. *)
Theorem reachable_states_are_consistent (reqs : list request) :
  consistent (serve_all initial reqs).
Proof. apply consistent_serve_all, consistent_initial. Qed.

Lemma prototype_name_is_topic (k : string) :
  k ∈ object_prototype -> or_text (Some k) "" = k.
Proof.
  unfold object_prototype. intros H.
  repeat (apply elem_of_cons in H as [->|H]; [reflexivity|]). inversion H.
Qed.

(** With requests that overlap, too, no entry is ever stored under a name
    every object inherits: a request for such a name stops at the guard, so
    none is ever in flight. *)
Lemma happen_no_inherited_key (r : Running) (h : happening) :
  no_inherited_key r -> no_inherited_key (happen r h).1.1.
Proof.
  intros [Hc Hw]. destruct h as [w q|i currentYear]; cbn [happen].
  - destruct (get_property (topicCache (server r)) (or_text q "")) eqn:E;
      cbn [fst]; try (split; assumption).
    split; [exact Hc|]. cbn [waiting].
    apply Forall_app. split; [exact Hw|]. constructor; [|constructor].
    now apply get_property_undefined in E.
  - destruct (waiting r !! i) as [wt|] eqn:E; cbn [fst];
      try (split; assumption).
    assert (or_text (wt_topic wt) "" ∉ object_prototype) as Hne.
    { rewrite Forall_forall in Hw. apply Hw.
      eapply list_elem_of_lookup_2, E. }
    split; cbn [server waiting topicCache].
    + intros k Hk. rewrite lookup_insert_ne; [now apply Hc|].
      intros Heq. now rewrite Heq in Hne.
    + apply Forall_delete, Hw.
Qed.

Lemma happen_all_no_inherited_key (r : Running) (hs : list happening) :
  no_inherited_key r -> no_inherited_key (happen_all r hs).
Proof.
  revert r. induction hs as [|h hs IH]; intros r Hr; [exact Hr|].
  apply IH, happen_no_inherited_key, Hr.
Qed.

(** C10: the empty result of a total failure is NOT stored for every topic.
    A topic that names a property every object inherits from
    Object.prototype ("constructor", "toString", ...) never reaches the
    aggregation: on a server that has served any requests since its start,
    one after the other or overlapping, the guard finds the inherited
    value, and the handler answers with that value and not with the empty
    list, asks no provider and stores nothing, so the cache holds no entry
    for the topic afterwards either. *)
Theorem inherited_topic_is_never_memoized (w : World) (currentYear : Z)
    (k : string) (reqs : list request) (hs : list happening) :
  k ∈ object_prototype ->
  papers_handler w currentYear (Some k) (serve_all initial reqs)
  = (InheritedJson k, serve_all initial reqs, []) /\
  (papers_handler w currentYear (Some k) (serve_all initial reqs)).1.1
  <> PapersJson [] /\
  topicCache (papers_handler w currentYear (Some k) (serve_all initial reqs)).1.2
    !! k = None /\
  happen (happen_all start hs) (Arrives w (Some k))
  = (happen_all start hs, Some (InheritedJson k), []) /\
  topicCache (server (happen_all start hs)) !! k = None.
Proof.
  intros Hk.
  pose proof (consistent_serve_all reqs initial consistent_initial)
    as (_ & _ & _ & _ & Hproto & _).
  assert (papers_handler w currentYear (Some k) (serve_all initial reqs)
          = (InheritedJson k, serve_all initial reqs, [])) as E.
  { rewrite <- (prototype_name_is_topic k Hk) at 2.
    apply papers_handler_inherited. rewrite (prototype_name_is_topic k Hk).
    unfold get_property. rewrite (Hproto k Hk).
    now rewrite bool_decide_eq_true_2. }
  rewrite E. cbn [fst snd]. split; [reflexivity|].
  split; [discriminate|]. split; [exact (Hproto k Hk)|].
  assert (no_inherited_key (happen_all start hs)) as [Hc _].
  { apply happen_all_no_inherited_key. split; [|constructor].
    intros k' _. apply lookup_empty. }
  split; [|exact (Hc k Hk)].
  cbn [happen]. rewrite (prototype_name_is_topic k Hk).
  unfold get_property. rewrite (Hc k Hk).
  now rewrite bool_decide_eq_true_2.
Qed.

Lemma inherited_topic_is_never_memoized_witness :
  aggregate offline "constructor" = [] /\
  papers_handler offline 2026 (Some "constructor")
    (serve_all initial [GetPapers offline 2026 (Some "constructor")])
  = (InheritedJson "constructor",
     serve_all initial [GetPapers offline 2026 (Some "constructor")], []).
Proof.
  split; [reflexivity|].
  apply (inherited_topic_is_never_memoized offline 2026 "constructor"
           [GetPapers offline 2026 (Some "constructor")] []).
  apply list_elem_of_here.
Defined.

Lemma consistent_deref_populated (s : Server) (r : ref) :
  consistent s -> Forall populated (deref s r).
Proof.
  intros (_ & _ & _ & _ & _ & _ & Hpop). unfold deref.
  destruct (heap s !! r) as [l|] eqn:E; cbn; [|constructor].
  rewrite Forall_forall in Hpop. apply Hpop.
  now apply list_elem_of_lookup_2 with r.
Qed.

Lemma related_indexed_in_corpus (tfidf : list string -> string -> nat -> Q)
    (corpus : list Paper) (index : jsint) (clickedText : string) (p : Paper) :
  p ∈ map (fun x => paper (snd x))
        (related_indexed tfidf corpus index clickedText) ->
  p ∈ corpus.
Proof.
  intros H. apply list_elem_of_fmap in H as ([i x] & -> & Hx).
  apply related_indexed_elem in Hx as (Hp & _).
  now apply list_elem_of_lookup_2 with i.
Qed.

(** X4: whatever requests came before, every paper the server sends, in
    an answer of [/papers] and as clicked or related paper in an answer of
    [/related], has a non-empty title, summary, link and source. *)
Theorem answers_hold_populated_papers
    (tfidf : list string -> string -> nat -> Q) (reqs : list request)
    (w : World) (currentYear : Z) (q : option string) (index : jsint) :
  (forall papers,
     (papers_handler w currentYear q (serve_all initial reqs)).1.1
     = PapersJson papers ->
     Forall populated papers) /\
  (forall clicked related,
     related_handler tfidf index (serve_all initial reqs)
     = RelatedJson clicked related ->
     populated clicked /\ Forall populated related).
Proof.
  pose proof (reachable_states_are_consistent reqs) as Hs.
  set (s := serve_all initial reqs) in *. split.
  - intros papers.
    destruct (get_property (topicCache s) (or_text q "")) eqn:E.
    + rewrite (papers_handler_hit w currentYear q s r E). intros [= <-].
      now apply consistent_deref_populated.
    + rewrite (papers_handler_inherited w currentYear q s E). discriminate.
    + rewrite (papers_handler_miss w currentYear q s E). intros [= <-].
      apply ranked_papers_populated.
  - intros clicked related. unfold related_handler.
    pose proof (consistent_deref_populated s (cachedPapers s) Hs) as Hc.
    rewrite Forall_forall in Hc.
    destruct (array_get (deref s (cachedPapers s)) index) as [c|] eqn:E;
      [|discriminate].
    cbv zeta. rewrite <- related_indexed_papers. intros [= <- <-]. split.
    + apply Hc. destruct index as [|z]; [discriminate|].
      apply array_get_some in E as [_ E].
      now apply list_elem_of_lookup_2 with (Z.to_nat z).
    + apply Forall_forall. intros p Hp. apply Hc.
      eapply related_indexed_in_corpus, Hp.
Qed.

(** ** The papers of arXiv *)

(** X5: the arXiv adapter sets neither year nor citations, so from the
    year 2 on every paper it contributes gets the single badge "Open
    Access" (never "New", never "Highly Cited") and the trending score 0. *)
Theorem arxiv_papers_are_open_access_only (w : World) (topic : string)
    (currentYear : Z) (p : Paper) :
  (2 <= currentYear)%Z ->
  p ∈ fetchArxiv w topic ->
  source p = "arXiv" /\ year p = 0%Z /\ citations p = 0%N /\
  assignBadges currentYear p = ["Open Access"] /\
  (forall log, trending_score log currentYear p = Double.zero).
Proof.
  intros Hy Hp. unfold fetchArxiv, arxiv_body in Hp.
  destruct (arxiv_api w (arxiv_request topic)) as [e|d]; cbn in Hp;
    [inversion Hp|].
  apply list_elem_of_fmap in Hp as (e & -> & _).
  repeat split; try reflexivity.
  - rewrite assignBadges_eq. cbn [arxiv_paper citations source year].
    replace (currentYear - 1 <=? 0)%Z with false
      by (symmetry; apply Z.leb_gt; lia).
    reflexivity.
Qed.

Lemma arxiv_papers_are_open_access_only_witness :
  (2 <= 2026)%Z /\
  arxiv_paper {| ax_title := None; ax_summary := None; ax_id := None;
                 ax_names := [] |} ∈ fetchArxiv arxiv_two "transformers" /\
  assignBadges 2026
    (arxiv_paper {| ax_title := None; ax_summary := None; ax_id := None;
                    ax_names := [] |})
  = ["Open Access"].
Proof.
  assert (arxiv_paper {| ax_title := None; ax_summary := None; ax_id := None;
                         ax_names := [] |} ∈ fetchArxiv arxiv_two "transformers")
    as Hin by (cbn; apply list_elem_of_further, list_elem_of_here).
  split; [lia|]. split; [exact Hin|].
  apply (arxiv_papers_are_open_access_only arxiv_two "transformers" 2026 _
           ltac:(lia) Hin).
Defined.

(** ** Ranking again, ranking in another year *)

(** X6: ranking a ranked list changes nothing, so the list the cache
    returns unsorted is the list a new sort in the same year would give. *)
Theorem rank_idempotent (log : spec_float -> Z * Z) (currentYear : Z)
    (l : list Paper) :
  rank log currentYear (rank log currentYear l) = rank log currentYear l.
Proof.
  unfold rank. apply js_sort_adjacent_id, js_sort_adjacent.
  apply trending_after_asym.
Qed.

(** ** The cache over a run of requests *)



(** X10: the cache is keyed by the exact topic string: computing and
    caching one topic changes neither the answer to a request for any other
    topic nor the requests it sends. *)
Theorem other_topics_are_unaffected (w w' : World) (currentYear currentYear' : Z)
    (q q' : option string) (s : Server) :
  consistent s ->
  or_text q' "" <> or_text q "" ->
  (papers_handler w' currentYear' q' (serve s (GetPapers w currentYear q))).1.1
  = (papers_handler w' currentYear' q' s).1.1 /\
  (papers_handler w' currentYear' q' (serve s (GetPapers w currentYear q))).2
  = (papers_handler w' currentYear' q' s).2.
Proof.
  intros Hs Hne. cbn [serve].
  destruct (get_property (topicCache s) (or_text q "")) eqn:E.
  - now rewrite (papers_handler_hit w currentYear q s r E).
  - now rewrite (papers_handler_inherited w currentYear q s E).
  - rewrite (papers_handler_miss w currentYear q s E). cbn [fst snd].
    set (s1 := {| heap := heap s ++ [ranked_papers w currentYear q];
                  cachedPapers := length (heap s);
                  topicCache := <[or_text q "" := length (heap s)]> (topicCache s) |}).
    assert (get_property (topicCache s1) (or_text q' "")
            = get_property (topicCache s) (or_text q' "")) as Hget.
    { unfold get_property, s1. cbn [topicCache].
      now rewrite lookup_insert_ne by congruence. }
    destruct (get_property (topicCache s) (or_text q' "")) eqn:E'.
    + rewrite (papers_handler_hit w' currentYear' q' s1 r Hget).
      rewrite (papers_handler_hit w' currentYear' q' s r E'). cbn [fst snd].
      split; [|reflexivity]. f_equal. unfold deref, s1. cbn [heap].
      apply get_property_own_inv in E'.
      destruct Hs as (_ & Hrefs & _). apply Hrefs in E'.
      rewrite lookup_app_l by lia. reflexivity.
    + rewrite (papers_handler_inherited w' currentYear' q' s1 Hget).
      now rewrite (papers_handler_inherited w' currentYear' q' s E').
    + rewrite (papers_handler_miss w' currentYear' q' s1 Hget).
      now rewrite (papers_handler_miss w' currentYear' q' s E').
Qed.

Lemma other_topics_are_unaffected_witness :
  consistent initial /\ or_text (Some "AI") "" <> or_text (Some "ai") "" /\
  (papers_handler offline 2026 (Some "AI")
     (serve initial (GetPapers old_then_undated 2026 (Some "ai")))).2
  = (papers_handler offline 2026 (Some "AI") initial).2.
Proof.
  split; [apply consistent_initial|]. split; [discriminate|].
  apply (other_topics_are_unaffected old_then_undated offline 2026 2026
           (Some "ai") (Some "AI") initial consistent_initial).
  discriminate.
Defined.



(** ** Requests that overlap *)

(** A request that is served before the next one arrives is one step of
    [papers_handler]. *)
Lemma happen_one_at_a_time (w : World) (currentYear : Z) (q : option string)
    (r : Running) :
  match (happen r (Arrives w q)).1.2 with
  | Some response =>
      (response, server (happen r (Arrives w q)).1.1, (happen r (Arrives w q)).2)
      = papers_handler w currentYear q (server r)
  | None =>
      (PapersJson (ranked_papers w currentYear q),
       server (happen_all r [Arrives w q;
                             Completes (length (waiting r)) currentYear]),
       (happen r (Arrives w q)).2)
      = papers_handler w currentYear q (server r) /\
      waiting (happen_all r [Arrives w q;
                             Completes (length (waiting r)) currentYear])
      = waiting r
  end.
Proof.
  unfold happen_all. cbn [foldl happen].
  destruct (get_property (topicCache (server r)) (or_text q "")) eqn:E;
    cbn [fst snd].
  - now rewrite (papers_handler_hit w currentYear q (server r) r0 E).
  - now rewrite (papers_handler_inherited w currentYear q (server r) E).
  - rewrite (papers_handler_miss w currentYear q (server r) E).
    cbn [happen fst snd waiting server].
    rewrite list_lookup_middle by reflexivity. cbn [fst snd server waiting].
    split; [reflexivity|].
    rewrite delete_middle. apply app_nil_r.
Qed.

Section Settled.
Variables (k : string) (array : ref) (papers : list Paper).

(** The topic has an entry, and no request for it is in flight. *)
Local Abbreviation settled :=
  (fun r : Running =>
     topicCache (server r) !! k = Some array /\
     heap (server r) !! array = Some papers /\
     Forall (fun wt => or_text (wt_topic wt) "" <> k) (waiting r)).

Lemma happen_settled (r : Running) (h : happening) :
  settled r -> settled (happen r h).1.1.
Proof.
  intros (Hk & Hh & Hw). destruct h as [w q|i currentYear]; cbn [happen].
  - destruct (get_property (topicCache (server r)) (or_text q "")) eqn:E;
      cbn [fst]; auto.
    cbn [server waiting]. repeat split; auto.
    apply Forall_app. split; [exact Hw|]. constructor; [|constructor].
    cbn [wt_topic]. intros Heq. rewrite Heq in E.
    apply get_property_miss in E. congruence.
  - destruct (waiting r !! i) as [wt|] eqn:E; cbn [fst]; auto.
    cbn [server waiting topicCache heap].
    assert (or_text (wt_topic wt) "" <> k) as Hne.
    { rewrite Forall_forall in Hw. apply Hw.
      eapply list_elem_of_lookup_2, E. }
    split; [now rewrite lookup_insert_ne|].
    split; [apply lookup_app_l_Some, Hh|].
    apply Forall_delete, Hw.
Qed.

Lemma happen_all_settled (hs : list happening) (r : Running) :
  settled r -> settled (happen_all r hs).
Proof.
  revert r. induction hs as [|h hs IH]; intros r H; [exact H|].
  unfold happen_all. cbn [foldl]. apply IH, happen_settled, H.
Qed.

End Settled.

(** X8: while no request for a topic is in flight, the entry of the topic
    stays as it is, whatever happens to other topics, overlapping or not:
    every later request for the topic is answered with the same list, sends
    nothing to the providers and changes nothing.  A request for the topic
    can only be in flight when it arrived before the entry was stored. *)
Theorem settled_topic_keeps_its_answer (r : Running) (k : string)
    (array : ref) (papers : list Paper) (hs : list happening) (w : World)
    (q : option string) :
  topicCache (server r) !! k = Some array ->
  heap (server r) !! array = Some papers ->
  Forall (fun wt => or_text (wt_topic wt) "" <> k) (waiting r) ->
  or_text q "" = k ->
  happen (happen_all r hs) (Arrives w q)
  = (happen_all r hs, Some (PapersJson papers), []) /\
  Forall (fun wt => or_text (wt_topic wt) "" <> k)
         (waiting (happen_all r hs)).
Proof.
  intros Hk Hh Hw Hq.
  destruct (happen_all_settled k array papers hs r (conj Hk (conj Hh Hw)))
    as (Hk' & Hh' & Hw').
  split; [|exact Hw']. unfold happen. cbv zeta. rewrite Hq.
  rewrite (get_property_own _ _ _ Hk'). unfold deref. now rewrite Hh'.
Qed.

Lemma settled_topic_keeps_its_answer_witness :
  happen
    (happen_all
       {| server := serve initial (GetPapers old_then_undated 2026 (Some "ai"));
          waiting := [] |}
       [Arrives springer_six (Some "ml"); Arrives arxiv_two (Some "ml");
        Completes 1 2027; Completes 0 2028])
    (Arrives offline (Some "ai"))
  = (happen_all
       {| server := serve initial (GetPapers old_then_undated 2026 (Some "ai"));
          waiting := [] |}
       [Arrives springer_six (Some "ml"); Arrives arxiv_two (Some "ml");
        Completes 1 2027; Completes 0 2028],
     Some (PapersJson (ranked_papers old_then_undated 2026 (Some "ai"))), []).
Proof.
  apply (settled_topic_keeps_its_answer
           {| server := serve initial (GetPapers old_then_undated 2026 (Some "ai"));
              waiting := [] |}
           "ai" 1%nat (ranked_papers old_then_undated 2026 (Some "ai"))).
  - reflexivity.
  - reflexivity.
  - constructor.
  - reflexivity.
Defined.

(** Two requests for one topic that overlap are both computed, and the one
    that completes last replaces the entry of the other: the answer the
    first one got is not the answer served afterwards. *)
Example overlapping_requests_replace_the_entry :
  let r := happen_all start [Arrives old_then_undated (Some "ai");
                             Arrives arxiv_two (Some "ai");
                             Completes 0 2026; Completes 0 2026] in
  (happen (happen_all start [Arrives old_then_undated (Some "ai");
                             Arrives arxiv_two (Some "ai")])
          (Completes 0 2026)).1.2
  = Some (PapersJson (ranked_papers old_then_undated 2026 (Some "ai"))) /\
  (happen r (Arrives offline (Some "ai"))).1.2
  = Some (PapersJson (ranked_papers arxiv_two 2026 (Some "ai"))) /\
  ranked_papers arxiv_two 2026 (Some "ai")
  <> ranked_papers old_then_undated 2026 (Some "ai") /\
  length (requests_of start [Arrives old_then_undated (Some "ai");
                             Arrives arxiv_two (Some "ai");
                             Completes 0 2026; Completes 0 2026]) = 8%nat /\
  size (topicCache (server r)) = 1%nat.
Proof. vm_compute. repeat split; discriminate. Qed.

Lemma happen_requests (r : Running) (h : happening) :
  (length (happen r h).2
   + 4 * (length (heap (server r)) + length (waiting r))
   = 4 * (length (heap (server (happen r h).1.1))
          + length (waiting (happen r h).1.1)))%nat /\
  (size (topicCache (server (happen r h).1.1))
   + length (heap (server r))
   <= size (topicCache (server r))
      + length (heap (server (happen r h).1.1)))%nat.
Proof.
  destruct h as [w q|i currentYear]; cbn [happen].
  - destruct (get_property (topicCache (server r)) (or_text q ""));
      cbn [fst snd server waiting length]; try lia.
    unfold aggregate_requests. rewrite length_app. cbn [length]. lia.
  - destruct (waiting r !! i) as [wt|] eqn:E;
      cbn [fst snd server waiting heap topicCache length]; [|lia].
    rewrite length_app, length_delete by eauto. cbn [length].
    apply lookup_lt_Some in E.
    rewrite map_size_insert.
    destruct (topicCache (server r) !! or_text (wt_topic wt) "");
      cbn [id]; lia.
Qed.

Lemma happen_all_requests (hs : list happening) (r : Running) :
  (length (requests_of r hs)
   + 4 * (length (heap (server r)) + length (waiting r))
   = 4 * (length (heap (server (happen_all r hs)))
          + length (waiting (happen_all r hs))))%nat /\
  (size (topicCache (server (happen_all r hs))) + length (heap (server r))
   <= size (topicCache (server r))
      + length (heap (server (happen_all r hs))))%nat.
Proof.
  revert r. induction hs as [|h hs IH]; intros r.
  - cbn. lia.
  - unfold happen_all. cbn [foldl requests_of]. rewrite length_app.
    destruct (happen_requests r h) as [H1 H2].
    destruct (IH (happen r h).1.1) as [H3 H4].
    unfold happen_all in H3, H4. lia.
Qed.

(** X11: with payloads of the expected types, and with requests that may
    overlap: from the start of the server, every request that passed the
    guard has four provider requests of its own, all sent by the time it
    completes, so these are four for every array the server has stored or is
    still waiting to compute.  The cache holds at most as many topics as
    arrays were stored (fewer when requests for one topic overlapped), so
    the completed requests alone account for at least four provider
    requests per cached topic. *)
Theorem every_stored_array_cost_four_requests (hs : list happening) :
  (length (requests_of start hs)
   = 4 * (length (heap (server (happen_all start hs))) - 1
          + length (waiting (happen_all start hs))))%nat /\
  (size (topicCache (server (happen_all start hs)))
   <= length (heap (server (happen_all start hs))) - 1)%nat /\
  (4 * size (topicCache (server (happen_all start hs)))
   + 4 * length (waiting (happen_all start hs))
   <= length (requests_of start hs))%nat.
Proof.
  destruct (happen_all_requests hs start) as [H1 H2].
  cbn [start server waiting heap initial topicCache length] in H1, H2.
  rewrite map_size_empty in H2. lia.
Qed.

(** ** The related papers as positions of the corpus *)

Lemma filter_sublist {A : Type} (f : A -> bool) (l : list A) :
  sublist (List.filter f l) l.
Proof.
  induction l as [|x l IH]; cbn; [constructor|].
  destruct (f x); now constructor.
Qed.

Lemma indexed_fst_NoDup {A : Type} (l : list A) : NoDup (map fst (indexed l)).
Proof.
  pose proof (indexed_sorted l) as H.
  induction H as [|x t Hs IH Hx]; cbn; constructor; [|exact IH].
  intros Hin. apply list_elem_of_fmap in Hin as (y & Hy & Hin).
  rewrite Forall_forall in Hx. apply Hx in Hin. lia.
Qed.

Lemma related_indexed_NoDup (tfidf : list string -> string -> nat -> Q)
    (corpus : list Paper) (index : jsint) (clickedText : string) :
  NoDup (map fst (related_indexed tfidf corpus index clickedText)).
Proof.
  unfold related_indexed. change (map fst ?l) with (fst <$> l).
  eapply sublist_NoDup; [|apply fmap_sublist, sublist_take].
  rewrite js_sort_perm.
  eapply sublist_NoDup; [|apply fmap_sublist, filter_sublist].
  apply indexed_fst_NoDup.
Qed.

(** X12: the related papers are read off pairwise different positions of
    the corpus, none of them the clicked one; there are at most five of
    them and fewer than the corpus has papers, so a corpus of one paper has
    no related papers. *)
Theorem related_papers_are_distinct_positions
    (tfidf : list string -> string -> nat -> Q) (z : Z) (s : Server)
    (clicked : Paper) (related : list Paper) :
  related_handler tfidf (Int z) s = RelatedJson clicked related ->
  (length related <= 5)%nat /\
  (length related < length (deref s (cachedPapers s)))%nat /\
  exists positions : list nat,
    NoDup positions /\
    Forall2 (fun i p =>
               deref s (cachedPapers s) !! i = Some p /\ Z.of_nat i <> z)
            positions related.
Proof.
  unfold related_handler.
  destruct (array_get (deref s (cachedPapers s)) (Int z)) as [c|] eqn:E;
    [|discriminate].
  cbv zeta. rewrite <- related_indexed_papers. intros [= <- <-].
  apply array_get_some in E as [Hz Hc].
  set (corpus := deref s (cachedPapers s)) in *.
  set (picks := related_indexed tfidf corpus (Int z) (document c)).
  pose proof (related_indexed_NoDup tfidf corpus (Int z) (document c)) as Hnd.
  fold picks in Hnd.
  assert (forall i x, (i, x) ∈ picks ->
            corpus !! i = Some (paper x) /\ Z.of_nat i <> z) as Hel.
  { intros i x Hin. apply related_indexed_elem in Hin as (Hp & Hi & _).
    split; [exact Hp|]. cbn in Hi. now apply Z.eqb_neq in Hi. }
  rewrite length_map. split; [apply related_indexed_length|]. split.
  - assert (NoDup (Z.to_nat z :: map fst picks)) as Hnd'.
    { constructor; [|exact Hnd]. intros Hin.
      apply list_elem_of_fmap in Hin as ([i x] & Hi & Hin). cbn in Hi. subst i.
      apply Hel in Hin as [_ Hne]. lia. }
    assert (Z.to_nat z :: map fst picks ⊆+ seq 0 (length corpus)) as Hsub.
    { apply NoDup_submseteq; [exact Hnd'|]. intros i Hi.
      apply elem_of_seq. split; [lia|]. cbn.
      apply elem_of_cons in Hi as [->|Hi].
      - now apply lookup_lt_Some in Hc.
      - apply list_elem_of_fmap in Hi as ([j x] & -> & Hin).
        apply Hel in Hin as [Hp _]. now apply lookup_lt_Some in Hp. }
    apply submseteq_length in Hsub. cbn in Hsub.
    rewrite length_map, length_seq in Hsub. lia.
  - exists (map fst picks). split; [exact Hnd|].
    clearbody picks. clear Hnd.
    induction picks as [|[i x] picks IH]; cbn; constructor.
    + apply Hel, list_elem_of_here.
    + apply IH. intros j y Hin. apply Hel. now apply list_elem_of_further.
Qed.

Lemma related_papers_are_distinct_positions_witness :
  related_handler unit_tfidf (Int 0) demo_server
  = RelatedJson (paper_of_year "graph networks" 2024)
                [paper_of_year "graph kernels" 2021] /\
  (length [paper_of_year "graph kernels" 2021]
   < length (deref demo_server (cachedPapers demo_server)))%nat.
Proof.
  split; [reflexivity|].
  apply (related_papers_are_distinct_positions unit_tfidf 0 demo_server
           (paper_of_year "graph networks" 2024)
           [paper_of_year "graph kernels" 2021] eq_refl).
Defined.

(** ** When the handler of /papers raises *)

Lemma badge_json_returns (currentYear : Z) (p : FetchedPaper) :
  source_is_text p = true -> exists b, badge_json currentYear p = Returned b.
Proof. intros H. unfold badge_json. rewrite H. eauto. Qed.

(** X25: a [/papers] request that finds no entry for its topic raises, and
    then sends no response, exactly when a paper of [fetchSpringer] carries a
    source that is not a text; otherwise it answers with a list of papers.
    A Springer record gives such a paper exactly when it has a url and its
    publisher text is a truthy value that is not a text.  (The other three
    adapters set a text as source: a constant, or a result of
    [normalizeSource].) *)
Theorem papers_handler_raises_on_untyped_source_only (w : World)
    (springer : Request -> reply SpringerJsonData) (currentYear : Z)
    (q : option string) (s : Server) :
  get_property (topicCache s) (or_text q "") = Undefined ->
  ((papers_handler_json w springer currentYear q s).1.1 = None <->
   Exists (fun p => source_is_text p = false)
          (fetchSpringer_json (SPRINGER_API_KEY w) springer (or_text q ""))) /\
  ((papers_handler_json w springer currentYear q s).1.1 <> None ->
   exists papers,
     (papers_handler_json w springer currentYear q s).1.1
     = Some (PapersJson papers)) /\
  (forall record : SpringerJson,
     springer_json_paper record = Thrown "TypeError: Cannot read properties of undefined"
     \/ exists p, springer_json_paper record = Returned p /\
                  (source_is_text p = false <->
                   sj_publisher record = Some (JsonOther true))).
Proof.
  intros Hmiss. unfold papers_handler_json. cbv zeta. rewrite Hmiss.
  set (others := map text_source _).
  set (fromSpringer := fetchSpringer_json _ _ _).
  assert (Forall (fun p => source_is_text p = true) others) as Hothers.
  { unfold others. apply Forall_forall. intros p Hp.
    apply list_elem_of_fmap in Hp as (x & -> & _). reflexivity. }
  split; [|split].
  - split.
    + intros Hnone.
      destruct (decide (Forall (fun p => source_is_text p = true) fromSpringer))
        as [Hall|Hnot].
      * destruct (map_throwing_returns (badge_json currentYear)
                    (others ++ fromSpringer)) as [l' E].
        { apply Forall_app. split.
          - eapply Forall_impl; [exact Hothers|].
            intros p. apply badge_json_returns.
          - eapply Forall_impl; [exact Hall|].
            intros p. apply badge_json_returns. }
        rewrite E in Hnone. discriminate Hnone.
      * apply not_Forall_Exists in Hnot; [|intros p; apply _].
        eapply Exists_impl; [exact Hnot|].
        intros p Hp. cbn in Hp. now destruct (source_is_text p).
    + intros Hex. apply Exists_exists in Hex as (p & Hp & Hsrc).
      destruct (map_throwing_thrown (badge_json currentYear)
                  (others ++ fromSpringer) p
                  "TypeError: p.source.toLowerCase is not a function")
        as [e' ->]; [| |reflexivity].
      * apply elem_of_app. now right.
      * unfold badge_json. now rewrite Hsrc.
  - destruct (map_throwing (badge_json currentYear) (others ++ fromSpringer));
      cbn [fst snd]; [eauto|contradiction].
  - intros record. unfold springer_json_paper, property_of.
    destruct (sj_url record) as [entries|]; [right|left; reflexivity].
    eexists. split; [reflexivity|]. cbn [source_is_text].
    unfold publisher_is_text.
    destruct (sj_publisher record) as [[text|[]]|]; split;
      intros H; first [reflexivity|discriminate H].
Qed.

Lemma papers_handler_raises_on_untyped_source_only_witness :
  (papers_handler_json offline numeric_publisher 2026 (Some "ai") initial).1.1
  = None <->
  Exists (fun p => source_is_text p = false)
         (fetchSpringer_json None numeric_publisher "ai").
Proof.
  apply (papers_handler_raises_on_untyped_source_only offline numeric_publisher
           2026 (Some "ai") initial).
  reflexivity.
Defined.

(** * The summary handler *)

(** ** Trimming *)

Lemma drop_spaces_head (s : ustring) (c : N) :
  head (drop_spaces s) = Some c -> is_space c = false.
Proof.
  induction s as [|d s IH]; cbn; [discriminate|].
  destruct (is_space d) eqn:E; [exact IH|]. cbn. now intros [= <-].
Qed.

Lemma drop_spaces_suffix (s : ustring) :
  exists pre, s = pre ++ drop_spaces s.
Proof.
  induction s as [|d s [pre IH]]; cbn; [now exists []|].
  destruct (is_space d); [|now exists []].
  exists (d :: pre). cbn. now f_equal.
Qed.

Lemma drop_spaces_id (s : ustring) :
  (forall c, head s = Some c -> is_space c = false) -> drop_spaces s = s.
Proof.
  destruct s as [|d s]; cbn; [reflexivity|].
  intros H. now rewrite (H d eq_refl).
Qed.

Lemma drop_spaces_idem (s : ustring) :
  drop_spaces (drop_spaces s) = drop_spaces s.
Proof. apply drop_spaces_id, drop_spaces_head. Qed.

Lemma trim_last (s : ustring) (c : N) :
  last (trim s) = Some c -> is_space c = false.
Proof. unfold trim. rewrite last_reverse. apply drop_spaces_head. Qed.

Lemma trim_head (s : ustring) (c : N) :
  head (trim s) = Some c -> is_space c = false.
Proof.
  unfold trim. rewrite head_reverse.
  destruct (drop_spaces_suffix (reverse (drop_spaces s))) as [pre Hpre].
  intros Hlast.
  assert (last (reverse (drop_spaces s)) = Some c) as H.
  { rewrite Hpre, last_app, Hlast. reflexivity. }
  rewrite last_reverse in H. now apply drop_spaces_head in H.
Qed.

(** The trimmed text sits inside the text. *)
Lemma trim_inside (s : ustring) : exists pre post, s = pre ++ trim s ++ post.
Proof.
  unfold trim.
  destruct (drop_spaces_suffix s) as [pre Hpre].
  destruct (drop_spaces_suffix (reverse (drop_spaces s))) as [post Hpost].
  exists pre, (reverse post).
  rewrite Hpre at 1. f_equal.
  rewrite <- reverse_app, <- Hpost. now rewrite reverse_involutive.
Qed.

Lemma trim_id (s : ustring) :
  (forall c, head s = Some c -> is_space c = false) ->
  (forall c, last s = Some c -> is_space c = false) ->
  trim s = s.
Proof.
  intros Hh Hl. unfold trim. rewrite (drop_spaces_id s Hh).
  rewrite drop_spaces_id; [apply reverse_involutive|].
  intros c. rewrite head_reverse. apply Hl.
Qed.

Lemma trim_drop_spaces (s : ustring) : trim (drop_spaces s) = trim s.
Proof. unfold trim. now rewrite drop_spaces_idem. Qed.

(** ** Squeezing runs *)

Lemma squeeze_cons_keep (cls : N -> bool) (c : N) (r : ustring) :
  cls c = false -> squeeze cls (c :: r) = c :: squeeze cls r.
Proof. intros H. cbn. now rewrite H. Qed.

Lemma squeeze_Forall (cls : N -> bool) (P : N -> Prop) (s : ustring) :
  P 32%N -> Forall (fun c => cls c = false -> P c) s ->
  Forall P (squeeze cls s).
Proof.
  intros H32. induction 1 as [|c r Hc Hr IH]; [constructor|].
  cbn [squeeze]. destruct (cls c) eqn:E.
  - destruct r as [|c' r']; [repeat constructor; exact H32|].
    destruct (cls c'); [exact IH | constructor; [exact H32 | exact IH]].
  - constructor; [now apply Hc | exact IH].
Qed.

Lemma squeeze_id (cls : N -> bool) (s : ustring) :
  Forall (fun c => cls c = false) s -> squeeze cls s = s.
Proof.
  induction 1 as [|c r Hc Hr IH]; [reflexivity|].
  rewrite squeeze_cons_keep by exact Hc. now rewrite IH.
Qed.

Lemma single_spaced_cons (c c' : N) (r : ustring) :
  single_spaced (c :: c' :: r)
  = negb (is_space c && is_space c') && single_spaced (c' :: r).
Proof. reflexivity. Qed.

Lemma squeeze_space_single (s : ustring) :
  single_spaced (squeeze is_space s) = true.
Proof.
  induction s as [|c r IH]; [reflexivity|].
  cbn [squeeze]. destruct (is_space c) eqn:E.
  - destruct r as [|c' r']; [reflexivity|].
    destruct (is_space c') eqn:E'; [exact IH|].
    rewrite squeeze_cons_keep in * by exact E'.
    rewrite single_spaced_cons, E', andb_false_r. exact IH.
  - destruct (squeeze is_space r) as [|d t] eqn:Et; [reflexivity|].
    rewrite single_spaced_cons, E. exact IH.
Qed.

Lemma squeeze_space_tidy_id (s : ustring) :
  Forall (fun c => is_space c = true -> c = 32%N) s ->
  single_spaced s = true ->
  squeeze is_space s = s.
Proof.
  induction 1 as [|c r Hc Hr IH]; [reflexivity|].
  intros Hs. cbn [squeeze]. destruct r as [|c' r'].
  - destruct (is_space c) eqn:E; [now rewrite (Hc eq_refl) | reflexivity].
  - rewrite single_spaced_cons in Hs. apply andb_prop in Hs as [Hpair Hs].
    specialize (IH Hs). destruct (is_space c) eqn:E.
    + destruct (is_space c') eqn:E'; [discriminate|].
      rewrite IH. now rewrite (Hc eq_refl).
    + now rewrite IH.
Qed.

Lemma single_spaced_app (a b : ustring) :
  single_spaced (a ++ b) = true ->
  single_spaced a = true /\ single_spaced b = true.
Proof.
  induction a as [|c a IH]; cbn [app]; [auto|].
  destruct a as [|c' a'].
  - cbn [app]. destruct b as [|d b]; [auto|].
    rewrite single_spaced_cons. intros H. apply andb_prop in H as [_ H]. auto.
  - cbn [app] in *. rewrite !single_spaced_cons. intros H.
    apply andb_prop in H as [H1 H2].
    destruct (IH H2) as [Ha Hb]. rewrite H1, Ha. auto.
Qed.

(** ** The cleaned summary *)

Lemma one_paragraph_tidy (s : ustring) : tidy (one_paragraph s).
Proof.
  unfold one_paragraph.
  set (t := squeeze is_space (squeeze is_markup s)).
  assert (Forall (fun c => is_markup c = false /\ (is_space c = true -> c = 32%N)) t)
    as Ht.
  { unfold t. apply squeeze_Forall; [split; [reflexivity|auto]|].
    eapply Forall_impl.
    - apply (squeeze_Forall is_markup (fun c => is_markup c = false));
        [reflexivity|]. apply Forall_forall. auto.
    - cbn. intros c Hm Hs. split; [exact Hm | congruence]. }
  pose proof (squeeze_space_single (squeeze is_markup s)) as Hs. fold t in Hs.
  destruct (trim_inside t) as (pre & post & Heq).
  unfold tidy. split; [|split; [|split]].
  - rewrite Heq in Ht. apply Forall_app in Ht as [_ Ht].
    now apply Forall_app in Ht as [Ht _].
  - rewrite Heq in Hs. apply single_spaced_app in Hs as [_ Hs].
    now apply single_spaced_app in Hs as [Hs _].
  - apply trim_head.
  - apply trim_last.
Qed.

Lemma one_paragraph_id (s : ustring) : tidy s -> one_paragraph s = s.
Proof.
  intros (Hall & Hs & Hh & Hl). unfold one_paragraph.
  rewrite (squeeze_id is_markup s)
    by (eapply Forall_impl; [exact Hall|]; cbn; tauto).
  rewrite squeeze_space_tidy_id;
    [now apply trim_id | eapply Forall_impl; [exact Hall|]; cbn; tauto | exact Hs].
Qed.

Lemma after_colon_app (pre post : ustring) :
  58%N ∉ pre -> after_colon (pre ++ 58%N :: post) = Some post.
Proof.
  induction pre as [|c pre IH]; intros H; cbn; [reflexivity|].
  destruct (N.eqb_spec c 58) as [->|Hne].
  - exfalso. apply H, list_elem_of_here.
  - apply IH. intros Hin. apply H. now apply list_elem_of_further.
Qed.

Lemma after_colon_none (s : ustring) : 58%N ∉ s -> after_colon s = None.
Proof.
  induction s as [|c s IH]; intros H; cbn; [reflexivity|].
  destruct (N.eqb_spec c 58) as [->|Hne].
  - exfalso. apply H, list_elem_of_here.
  - apply IH. intros Hin. apply H. now apply list_elem_of_further.
Qed.

Lemma single_spaced_lookup (s : ustring) (i : nat) (c d : N) :
  single_spaced s = true -> s !! i = Some c -> s !! S i = Some d ->
  is_space c = false \/ is_space d = false.
Proof.
  revert i. induction s as [|x s IH]; intros i Hs Hc Hd; [discriminate|].
  destruct s as [|y s]; [destruct i; discriminate|].
  rewrite single_spaced_cons in Hs. apply andb_prop in Hs as [Hxy Hs].
  destruct i as [|i].
  - cbn in Hc, Hd. injection Hc as <-. injection Hd as <-.
    destruct (is_space x), (is_space y); auto; discriminate.
  - exact (IH i Hs Hc Hd).
Qed.

(** X13: the summary the server returns is one tidy paragraph: it contains
    no line feed, no asterisk and no bullet, its only white space is the
    plain space, no two spaces are adjacent, and it neither starts nor ends
    with a space. *)
Theorem clean_summary_is_one_tidy_paragraph (generated : ustring) :
  Forall (fun c => c <> 10%N /\ c <> 42%N /\ c <> 8226%N /\
                   (is_space c = true -> c = 32%N))
         (clean_summary generated) /\
  (forall i, clean_summary generated !! i = Some 32%N ->
             clean_summary generated !! S i <> Some 32%N) /\
  head (clean_summary generated) <> Some 32%N /\
  last (clean_summary generated) <> Some 32%N.
Proof.
  destruct (one_paragraph_tidy (strip_preamble generated))
    as (Hall & Hs & Hh & Hl).
  fold (clean_summary generated) in *.
  split; [|split; [|split]].
  - eapply Forall_impl; [exact Hall|]. cbn. intros c [Hm Hsp].
    unfold is_markup in Hm.
    apply orb_false_elim in Hm as [Hm H3]. apply orb_false_elim in Hm as [H1 H2].
    apply N.eqb_neq in H1, H2, H3. auto.
  - intros i Hi Hi'.
    destruct (single_spaced_lookup _ i 32%N 32%N Hs Hi Hi'); discriminate.
  - intros H. apply Hh in H. discriminate.
  - intros H. apply Hl in H. discriminate.
Qed.

(** X14: everything up to the first colon of the generated text is thrown
    away, whatever it says: the summary is made of what follows that colon
    alone.  A text without a colon is kept whole. *)
Theorem clean_summary_drops_up_to_first_colon (pre post : ustring) :
  58%N ∉ pre ->
  clean_summary (pre ++ 58%N :: post) = one_paragraph (trim post) /\
  clean_summary pre = one_paragraph (trim pre).
Proof.
  intros H. unfold clean_summary, strip_preamble.
  rewrite (after_colon_app pre post H), (after_colon_none pre H).
  now rewrite trim_drop_spaces.
Qed.

Lemma clean_summary_drops_up_to_first_colon_witness :
  (58%N ∉ units "Deep learning") /\
  clean_summary (units "Deep learning" ++ 58%N :: units " a survey")
  = units "a survey".
Proof.
  assert (58%N ∉ units "Deep learning") as H
    by (intros Hin; cbn in Hin;
        repeat (apply elem_of_cons in Hin as [Hin|Hin]; [discriminate|]);
        inversion Hin).
  split; [exact H|].
  rewrite (proj1 (clean_summary_drops_up_to_first_colon
                    (units "Deep learning") (units " a survey") H)).
  reflexivity.
Defined.

(** X15: a tidy text without colon comes through the cleaning unchanged;
    so cleaning a cleaned summary again changes it only if it still holds a
    colon. *)
Theorem clean_summary_keeps_tidy_text (s : ustring) :
  58%N ∉ clean_summary s ->
  clean_summary (clean_summary s) = clean_summary s.
Proof.
  intros H. pose proof (one_paragraph_tidy (strip_preamble s)) as Ht.
  fold (clean_summary s) in Ht.
  unfold clean_summary at 1. unfold strip_preamble.
  rewrite (after_colon_none _ H).
  destruct Ht as (Hall & Hs & Hh & Hl).
  rewrite (trim_id _ Hh Hl). apply one_paragraph_id. repeat split; assumption.
Qed.

Lemma clean_summary_keeps_tidy_text_witness :
  (58%N ∉ clean_summary (units "No summary generated.")) /\
  clean_summary (clean_summary (units "No summary generated."))
  = clean_summary (units "No summary generated.").
Proof.
  assert (58%N ∉ clean_summary (units "No summary generated.")) as H
    by (intros Hin; vm_compute in Hin;
        repeat (apply elem_of_cons in Hin as [Hin|Hin]; [discriminate|]);
        inversion Hin).
  split; [exact H|].
  apply (clean_summary_keeps_tidy_text (units "No summary generated.") H).
Defined.

(** ** The answers of /summarize *)

(** X16: [/summarize] answers 400 exactly when the title or the summary is
    missing or falsy, and then Gemini is not asked.  When both are truthy
    and the summary is not a text, the handler raises while it builds the
    prompt: it sends no response and Gemini is not asked.  Otherwise Gemini
    is asked once; the answer is 500 exactly when that request fails or
    yields a truthy value that is not a text, and a success carries the
    cleaned text ("No summary generated." when Gemini sent no text), the
    authors (an empty list for none) and the year (null for none and for
    0). *)
Theorem summarize_answers
    (gemini : SummarizeBody -> reply (json_text ustring))
    (body : SummarizeBody) :
  ((summarize_handler gemini body).1 = Some BadRequest <->
   json_truthy truthy (sb_title body) = false \/
   json_truthy truthy (sb_summary body) = false) /\
  ((summarize_handler gemini body).1 = None <->
   json_truthy truthy (sb_title body) = true /\
   sb_summary body = Some (JsonOther true)) /\
  ((summarize_handler gemini body).1 = Some BadRequest \/
   (summarize_handler gemini body).1 = None ->
   (summarize_handler gemini body).2 = []) /\
  (forall text : string,
     json_truthy truthy (sb_title body) = true ->
     sb_summary body = Some (JsonText text) -> truthy text = true ->
     (summarize_handler gemini body).2 = [body] /\
     ((summarize_handler gemini body).1 = Some GenerationFailed <->
      (exists e, gemini body = Rejected e) \/
      gemini body = Resolved (Some (JsonOther true))) /\
     (forall x generated,
        gemini body = Resolved x ->
        generated_or_default x = Returned generated ->
        (summarize_handler gemini body).1
        = Some (SummaryJson (clean_summary generated)
                            (authors_or_empty (sb_authors body))
                            (year_or_null (sb_year body))))) /\
  (forall x generated,
     generated_or_default x = Returned generated ->
     x = Some (JsonText generated) \/
     generated = units "No summary generated.") /\
  clean_summary (units "No summary generated.") = units "No summary generated." /\
  year_or_null (sb_year body) <> Some 0%Z /\
  authors_or_empty (sb_authors body) <> AuthorText "".
Proof.
  unfold summarize_handler.
  destruct body as [t a au y]. cbn [sb_title sb_summary sb_authors sb_year].
  split; [|split; [|split; [|split; [|split; [|split; [|split]]]]]].
  - destruct t as [[[|c t]|[]]|], a as [[[|d a]|[]]|]; cbn;
      try (split; [intros _; auto | reflexivity]);
      try (split; [intros H; discriminate H
                  | intros [H|H]; discriminate H]);
      destruct (gemini _) as [e|[[[|c' r]|[]]|]]; cbn;
      (split; [intros H; discriminate H | intros [H|H]; discriminate H]).
  - destruct t as [[[|c t]|[]]|], a as [[[|d a]|[]]|]; cbn;
      try (split; [intros H; discriminate H
                  | intros [H1 H2]; first [discriminate H1 | discriminate H2]]);
      try (split; [auto | reflexivity]);
      destruct (gemini _) as [e|[[[|c' r]|[]]|]]; cbn;
      (split; [intros H; discriminate H
              | intros [H1 H2]; first [discriminate H1 | discriminate H2]]).
  - destruct t as [[[|c t]|[]]|], a as [[[|d a]|[]]|]; cbn; try reflexivity;
      destruct (gemini _) as [e|[[[|c' r]|[]]|]]; cbn;
      intros [H|H]; discriminate H.
  - intros text Ht [= ->] Htext.
    destruct text as [|d text]; [discriminate|].
    rewrite Ht. cbn [negb orb json_truthy truthy].
    destruct (gemini _) as [e|x] eqn:E; cbn.
    + split; [reflexivity|]. split; [split; eauto|]. discriminate.
    + destruct x as [[[|c' r]|[]]|]; cbn;
        (split; [reflexivity|]);
        (split;
         [split; [first [discriminate | auto]
                 | intros [[e H]|H]; first [discriminate H | reflexivity]]|]);
        intros x generated [= <-]; cbn; intros [= <-]; reflexivity.
  - intros x generated.
    destruct x as [[[|c' r]|[]]|]; cbn; intros [= <-]; auto.
  - reflexivity.
  - destruct y as [[|z|z]|]; cbn; discriminate.
  - destruct au as [[names|[|c text]]|]; cbn; discriminate.
Qed.

(** ** The IEEE adapter *)

(** X17: [fetchIEEE] never raises.  Without an API key (none, or an empty
    one) it returns no papers and sends no request; with a key it sends one
    request, which asks for 5 records and carries the key and the topic, and
    it returns at most as many papers as the provider sends, all of them
    with the source "IEEE", no tags and non-empty text fields; a failed
    request gives no papers. *)
Theorem fetchIEEE_guards_the_key (key : option string)
    (ieee_api : Request -> reply IEEEData) (topic : string) :
  (key = None \/ key = Some "" -> fetchIEEE key ieee_api topic = ([], [])) /\
  (forall k, key = Some k -> k <> "" ->
     (fetchIEEE key ieee_api topic).2 = [ieee_request k topic] /\
     requested_count (ieee_request k topic) = Some "5" /\
     ("apikey", k) ∈ params (ieee_request k topic) /\
     ("querytext", topic) ∈ params (ieee_request k topic) /\
     (forall e, ieee_api (ieee_request k topic) = Rejected e ->
                (fetchIEEE key ieee_api topic).1 = []) /\
     (forall articles,
        ieee_api (ieee_request k topic)
        = Resolved (Some {| ie_articles := Some articles |}) ->
        (fetchIEEE key ieee_api topic).1 = map ieee_paper articles)) /\
  Forall (fun p => source p = "IEEE" /\ tags p = [] /\ populated p)
         (fetchIEEE key ieee_api topic).1.
Proof.
  split; [|split].
  - intros [->| ->]; reflexivity.
  - intros k -> Hk. destruct k as [|c k]; [contradiction|].
    unfold fetchIEEE. change (default "" (Some (String c k))) with (String c k).
    cbn [truthy negb fst snd].
    split; [reflexivity|]. split; [reflexivity|].
    split; [cbn; repeat first [apply list_elem_of_here | apply list_elem_of_further]|].
    split; [cbn; repeat first [apply list_elem_of_here | apply list_elem_of_further]|].
    split.
    + intros e H. unfold ieee_body. now rewrite H.
    + intros articles H. unfold ieee_body. now rewrite H.
  - unfold fetchIEEE. destruct (negb (truthy (default "" key))); [constructor|].
    cbn [fst]. unfold ieee_body.
    destruct (ieee_api _) as [e|[d|]]; cbn; try constructor.
    apply Forall_forall. intros p Hp.
    apply list_elem_of_fmap in Hp as (x & -> & _).
    split; [reflexivity|]. split; [reflexivity|].
    repeat split; cbn [ieee_paper title summary link source];
      first [now apply or_text_truthy | reflexivity].
Qed.

(** * The client *)

(** ** Arrays of texts *)

Lemma array_includes_elem (arr : list string) (x : string) :
  array_includes arr x = true <-> x ∈ arr.
Proof.
  unfold array_includes. rewrite existsb_exists. split.
  - intros (y & Hy & Heq). apply String.eqb_eq in Heq. subst y.
    now apply list_elem_of_In.
  - intros H. exists x. split; [now apply list_elem_of_In | apply String.eqb_refl].
Qed.

Lemma array_includes_not_elem (arr : list string) (x : string) :
  array_includes arr x = false <-> x ∉ arr.
Proof.
  rewrite <- array_includes_elem. destruct (array_includes arr x); split;
    congruence.
Qed.

(** ** Splitting and joining *)

Lemma split_on_nonempty (sep : ascii) (s : string) : split_on sep s <> [].
Proof.
  induction s as [|c r IH]; cbn; [discriminate|].
  destruct (Ascii.eqb c sep); [discriminate|].
  destruct (split_on sep r); [contradiction | discriminate].
Qed.

Lemma split_on_pieces (sep : ascii) (s : string) :
  Forall (fun piece => has_char sep piece = false) (split_on sep s).
Proof.
  induction s as [|c r IH]; cbn; [repeat constructor|].
  destruct (Ascii.eqb c sep) eqn:E; [constructor; [reflexivity | exact IH]|].
  destruct (split_on sep r) as [|piece pieces]; [repeat constructor; cbn; now rewrite E|].
  apply Forall_cons in IH as [Hp Hps].
  constructor; [cbn; now rewrite E, Hp | exact Hps].
Qed.

Lemma join_cons (sep piece : string) (rest : list string) :
  rest <> [] -> join sep (piece :: rest) = piece +:+ sep +:+ join sep rest.
Proof. destruct rest; [contradiction | reflexivity]. Qed.

(** Joining the pieces of a split gives the text back. *)
Lemma join_split_on (sep : ascii) (s : string) :
  join (String sep EmptyString) (split_on sep s) = s.
Proof.
  induction s as [|c r IH]; cbn [split_on]; [reflexivity|].
  destruct (Ascii.eqb_spec c sep) as [->|Hne].
  - rewrite join_cons by apply split_on_nonempty. cbn. now rewrite IH.
  - pose proof (split_on_nonempty sep r) as Hr.
    destruct (split_on sep r) as [|piece pieces]; [contradiction|].
    destruct pieces as [|p2 pieces].
    + cbn in *. now rewrite IH.
    + rewrite join_cons by discriminate. rewrite join_cons in IH by discriminate.
      rewrite <- IH. reflexivity.
Qed.

Lemma split_on_append (sep : ascii) (piece rest : string) :
  has_char sep piece = false ->
  split_on sep (piece +:+ String sep rest) = piece :: split_on sep rest.
Proof.
  induction piece as [|c piece IH]; cbn [has_char].
  - intros _. change (split_on sep (String sep rest) = "" :: split_on sep rest).
    cbn [split_on]. now rewrite Ascii.eqb_refl.
  - intros H. apply orb_false_elim in H as [Hc Hp].
    change (split_on sep (String c (piece +:+ String sep rest))
            = String c piece :: split_on sep rest).
    cbn [split_on]. rewrite Hc, (IH Hp). reflexivity.
Qed.

Lemma split_on_piece (sep : ascii) (piece : string) :
  has_char sep piece = false -> split_on sep piece = [piece].
Proof.
  induction piece as [|c piece IH]; cbn [split_on has_char]; [reflexivity|].
  intros H. apply orb_false_elim in H as [Hc Hp]. now rewrite Hc, (IH Hp).
Qed.

(** Splitting a join of pieces without separator gives the pieces back. *)
Lemma split_on_join (sep : ascii) (pieces : list string) :
  pieces <> [] ->
  Forall (fun piece => has_char sep piece = false) pieces ->
  split_on sep (join (String sep EmptyString) pieces) = pieces.
Proof.
  intros Hne H. induction H as [|piece rest Hp Hrest IH]; [contradiction|].
  destruct rest as [|p2 rest].
  - cbn. now apply split_on_piece.
  - rewrite join_cons by discriminate.
    change (String sep "" +:+ ?x) with (String sep x).
    rewrite split_on_append by exact Hp. f_equal. apply IH. discriminate.
Qed.

(** ** formatSourceName *)

Lemma upper_char_idem (c : ascii) : upper_char (upper_char c) = upper_char c.
Proof. destruct c as [[] [] [] [] [] [] [] []]; reflexivity. Qed.

Lemma lower_char_upper (c : ascii) : upper_char (lower_char c) = upper_char c.
Proof. destruct c as [[] [] [] [] [] [] [] []]; reflexivity. Qed.

Lemma upper_char_space (c : ascii) :
  Ascii.eqb (upper_char c) " " = Ascii.eqb c " ".
Proof. destruct c as [[] [] [] [] [] [] [] []]; reflexivity. Qed.

Lemma lower_char_space (c : ascii) :
  Ascii.eqb (lower_char c) " " = Ascii.eqb c " ".
Proof. destruct c as [[] [] [] [] [] [] [] []]; reflexivity. Qed.

Lemma toUpperCase_idem (s : string) : toUpperCase (toUpperCase s) = toUpperCase s.
Proof.
  induction s as [|c s IH]; cbn; [reflexivity|]. now rewrite upper_char_idem, IH.
Qed.

Lemma toUpperCase_toLowerCase (s : string) :
  toUpperCase (toLowerCase s) = toUpperCase s.
Proof.
  induction s as [|c s IH]; cbn; [reflexivity|]. now rewrite lower_char_upper, IH.
Qed.

Lemma toUpperCase_space (s : string) :
  has_char " " (toUpperCase s) = has_char " " s.
Proof.
  induction s as [|c s IH]; cbn; [reflexivity|]. now rewrite upper_char_space, IH.
Qed.

Lemma toLowerCase_space (s : string) :
  has_char " " (toLowerCase s) = has_char " " s.
Proof.
  induction s as [|c s IH]; cbn; [reflexivity|]. now rewrite lower_char_space, IH.
Qed.

(** The third case of [format_word], spelled out. *)
Lemma capitalized_cons (c : ascii) (r : string) :
  toUpperCase (charAt0 (String c r)) +:+ toLowerCase (slice1 (String c r))
  = String (upper_char c) (toLowerCase r).
Proof. reflexivity. Qed.

Lemma format_word_space (word : string) :
  has_char " " (format_word word) = has_char " " word.
Proof.
  unfold format_word.
  destruct (array_includes SPECIAL_CASES word); [reflexivity|].
  destruct (array_includes ACRONYMS (toUpperCase word));
    [apply toUpperCase_space|].
  destruct word as [|c r]; [reflexivity|].
  rewrite capitalized_cons. cbn. now rewrite upper_char_space, toLowerCase_space.
Qed.

Lemma format_word_idem (word : string) :
  format_word (format_word word) = format_word word.
Proof.
  destruct (array_includes SPECIAL_CASES word) eqn:Hs.
  { assert (format_word word = word) as -> by (unfold format_word; now rewrite Hs).
    unfold format_word; now rewrite Hs. }
  destruct (array_includes ACRONYMS (toUpperCase word)) eqn:Ha.
  { assert (format_word word = toUpperCase word) as ->
      by (unfold format_word; now rewrite Hs, Ha).
    apply array_includes_elem in Ha. unfold ACRONYMS in Ha.
    repeat (apply elem_of_cons in Ha as [->|Ha]; [reflexivity|]). inversion Ha. }
  destruct word as [|c r]; [reflexivity|].
  assert (format_word (String c r) = String (upper_char c) (toLowerCase r)) as ->
    by (unfold format_word; now rewrite Hs, Ha).
  unfold format_word.
  assert (array_includes SPECIAL_CASES (String (upper_char c) (toLowerCase r))
          = false) as ->.
  { apply array_includes_not_elem. unfold SPECIAL_CASES. intros Hin.
    apply elem_of_cons in Hin as [Heq|Hin].
    - injection Heq as Hc _. pose proof (upper_char_idem c) as Hi.
      rewrite Hc in Hi. discriminate Hi.
    - apply elem_of_cons in Hin as [Heq|Hin]; [|inversion Hin].
      injection Heq as _ Hr. pose proof (toLowerCase_idem r) as Hi.
      rewrite Hr in Hi. discriminate Hi. }
  assert (toUpperCase (String (upper_char c) (toLowerCase r))
          = toUpperCase (String c r)) as ->
    by (cbn [toUpperCase]; now rewrite upper_char_idem, toUpperCase_toLowerCase).
  rewrite Ha, capitalized_cons.
  now rewrite upper_char_idem, toLowerCase_idem.
Qed.

(** X18: on ASCII text, [formatSourceName] is idempotent: a caption it
    produced is shown as it is.  So are the labels of [normalizeSource]'s
    table, and "Unknown". *)
Theorem formatSourceName_idempotent (str : string) :
  ascii_text str = true ->
  formatSourceName (Some (formatSourceName (Some str)))
  = formatSourceName (Some str) /\
  Forall (fun label => formatSourceName (Some label) = label)
         ("Unknown" :: map snd source_table).
Proof.
  intros _. split; [|repeat constructor].
  destruct str as [|c r]; [reflexivity|].
  set (s := String c r).
  set (words := map format_word (split_on " " s)).
  assert (formatSourceName (Some s) = join " " words) as -> by reflexivity.
  assert (words <> []) as Hne.
  { unfold words. pose proof (split_on_nonempty " " s) as H.
    destruct (split_on " " s); [contradiction | discriminate]. }
  assert (Forall (fun piece => has_char " " piece = false) words) as Hsp.
  { unfold words. apply Forall_forall. intros w Hw.
    apply list_elem_of_fmap in Hw as (x & -> & Hx).
    rewrite format_word_space.
    pose proof (split_on_pieces " " s) as H. rewrite Forall_forall in H.
    now apply H. }
  unfold formatSourceName.
  destruct (truthy (join " " words)) eqn:Ht;
    [|destruct (join " " words); [reflexivity | discriminate]].
  cbn [negb]. rewrite (split_on_join " " words Hne Hsp). f_equal.
  unfold words. rewrite map_map. apply map_ext. apply format_word_idem.
Qed.

Lemma formatSourceName_idempotent_witness :
  formatSourceName (Some (formatSourceName (Some "journal of the acm")))
  = formatSourceName (Some "journal of the acm") /\
  Forall (fun label => formatSourceName (Some label) = label)
         ("Unknown" :: map snd source_table).
Proof. apply (formatSourceName_idempotent "journal of the acm"). reflexivity. Defined.

(** ** The source checkboxes *)

Lemma array_includes_toggle (prev : list string) (x s : string) :
  array_includes (handleCheckboxChange prev x) s
  = if String.eqb s x then negb (array_includes prev s) else array_includes prev s.
Proof.
  unfold handleCheckboxChange.
  destruct (array_includes prev x) eqn:E.
  - destruct (String.eqb_spec s x) as [->|Hne].
    + rewrite E. apply array_includes_not_elem. intros Hin.
      apply list_elem_of_In, filter_In in Hin as [_ Hin].
      now rewrite String.eqb_refl in Hin.
    + apply eq_true_iff_eq. rewrite !array_includes_elem.
      rewrite !list_elem_of_In, filter_In. split; [tauto|].
      intros Hin. split; [exact Hin|].
      apply negb_true_iff, String.eqb_neq. exact Hne.
  - unfold array_includes in *. rewrite existsb_app. cbn [existsb].
    destruct (String.eqb_spec s x) as [->|Hne]; [now rewrite E|].
    now rewrite !orb_false_r.
Qed.

Lemma handleCheckboxChange_NoDup (prev : list string) (x : string) :
  NoDup prev -> NoDup (handleCheckboxChange prev x).
Proof.
  intros Hnd. unfold handleCheckboxChange.
  destruct (array_includes prev x) eqn:E.
  - eapply sublist_NoDup; [exact Hnd | apply filter_sublist].
  - apply NoDup_app. split; [exact Hnd|]. split; [|apply NoDup_singleton].
    intros y Hy Hyx. apply list_elem_of_singleton in Hyx as ->.
    apply array_includes_not_elem in E. contradiction.
Qed.

Lemma toggles_parity (prev clicks : list string) (s : string) :
  array_includes (foldl handleCheckboxChange prev clicks) s
  = xorb (array_includes prev s)
         (Nat.odd (length (List.filter (String.eqb s) clicks))).
Proof.
  revert prev. induction clicks as [|x clicks IH]; intros prev.
  - cbn. now rewrite xorb_false_r.
  - cbn [foldl List.filter]. rewrite IH, array_includes_toggle.
    destruct (String.eqb s x); [|reflexivity].
    cbn [length]. rewrite Nat.odd_succ, <- Nat.negb_odd.
    destruct (array_includes prev s), (Nat.odd _); reflexivity.
Qed.

Lemma toggles_NoDup (prev clicks : list string) :
  NoDup prev -> NoDup (foldl handleCheckboxChange prev clicks).
Proof.
  revert prev. induction clicks as [|x clicks IH]; intros prev Hnd; [exact Hnd|].
  cbn [foldl]. apply IH, handleCheckboxChange_NoDup, Hnd.
Qed.

(** X19: after any run of clicks on the source checkboxes, the box of a
    source is checked exactly when it was clicked an odd number of times,
    and no source is selected twice. *)
Theorem checkbox_is_checked_after_odd_clicks (clicks : list string) (s : string) :
  array_includes (selection_after clicks) s
  = Nat.odd (length (List.filter (String.eqb s) clicks)) /\
  NoDup (selection_after clicks).
Proof.
  split.
  - unfold selection_after. now rewrite toggles_parity.
  - apply toggles_NoDup. constructor.
Qed.

(** ** The sources offered *)

Lemma set_from_spec (arr seen : list string) :
  NoDup seen ->
  NoDup (fold_left (fun seen x => if array_includes seen x then seen
                                  else seen ++ [x]) arr seen) /\
  (forall s,
     s ∈ fold_left (fun seen x => if array_includes seen x then seen
                                  else seen ++ [x]) arr seen
     <-> s ∈ seen \/ s ∈ arr).
Proof.
  revert seen. induction arr as [|x arr IH]; intros seen Hnd; cbn [fold_left].
  - split; [exact Hnd|]. intros s. split; [auto|]. intros [H|H]; [exact H|].
    inversion H.
  - destruct (array_includes seen x) eqn:E.
    + destruct (IH seen Hnd) as [H1 H2]. split; [exact H1|].
      intros s. rewrite H2, elem_of_cons. apply array_includes_elem in E.
      split; [tauto|]. intros [H|[->|H]]; auto.
    + assert (NoDup (seen ++ [x])) as Hnd'.
      { apply NoDup_app. split; [exact Hnd|]. split; [|apply NoDup_singleton].
        intros y Hy Hyx. apply list_elem_of_singleton in Hyx as ->.
        apply array_includes_not_elem in E. contradiction. }
      destruct (IH _ Hnd') as [H1 H2]. split; [exact H1|].
      intros s. rewrite H2, elem_of_app, list_elem_of_singleton, elem_of_cons.
      tauto.
Qed.

Lemma sources_elem (papers : list Paper) (s : string) :
  s ∈ sources papers <-> exists p, p ∈ papers /\ source p = s.
Proof.
  unfold sources, set_from.
  destruct (set_from_spec (map source papers) [] (NoDup_nil_2)) as [_ H].
  rewrite H. rewrite list_elem_of_fmap. split.
  - intros [Hin|(p & -> & Hp)]; [inversion Hin | eauto].
  - intros (p & Hp & <-). right. eauto.
Qed.

Lemma filter_all {A : Type} (f : A -> bool) (l : list A) :
  (forall a, a ∈ l -> f a = true) -> List.filter f l = l.
Proof.
  induction l as [|a l IH]; intros H; cbn; [reflexivity|].
  rewrite (H a) by apply list_elem_of_here. f_equal. apply IH.
  intros b Hb. apply H. now apply list_elem_of_further.
Qed.

Section ClientFacts.

Variable relevance_after : Z -> Paper -> Paper -> bool.
Variable localeCompare : string -> string -> Z.

Local Abbreviation shown :=
  (applyFilterAndSort relevance_after localeCompare).

(** The list after the filter step of [applyFilterAndSort]. *)
Lemma applyFilterAndSort_perm (currentYear : Z) (papers : list Paper)
    (selectedSources : list string) (sortBy : string) :
  Permutation
    (shown currentYear papers selectedSources sortBy)
    (match selectedSources with
     | [] => papers
     | _ => List.filter (fun p => array_includes selectedSources (source p)) papers
     end).
Proof.
  unfold applyFilterAndSort. cbv zeta.
  assert ((if (0 <? length selectedSources)%nat
           then List.filter (fun p => array_includes selectedSources (source p))
                            papers
           else papers)
          = match selectedSources with
            | [] => papers
            | _ => List.filter
                     (fun p => array_includes selectedSources (source p)) papers
            end) as -> by (destruct selectedSources; reflexivity).
  repeat (match goal with
          | |- context [if String.eqb sortBy ?m then _ else _] =>
              destruct (String.eqb sortBy m); [apply js_sort_perm|]
          end).
  reflexivity.
Qed.

Lemma shown_elem (currentYear : Z) (papers : list Paper)
    (selectedSources : list string) (sortBy : string) (p : Paper) :
  p ∈ shown currentYear papers selectedSources sortBy
  <-> p ∈ papers /\ (selectedSources = [] \/ source p ∈ selectedSources).
Proof.
  rewrite (applyFilterAndSort_perm currentYear papers selectedSources sortBy).
  destruct selectedSources as [|s0 sel].
  - split; [auto|tauto].
  - rewrite list_elem_of_In, filter_In, <- list_elem_of_In, array_includes_elem.
    split; [tauto|]. intros [H [H'|H']]; [discriminate|tauto].
Qed.

(** X20: whatever the sort mode, the cards shown are the fetched papers of
    the selected sources, each as often as it was fetched; with no source
    selected they are all the fetched papers.  Sorting neither drops nor
    repeats a paper. *)
Theorem shown_papers_are_those_of_selected_sources (currentYear : Z)
    (papers : list Paper) (selectedSources : list string) (sortBy : string) :
  Permutation
    (shown currentYear papers selectedSources sortBy)
    (match selectedSources with
     | [] => papers
     | _ => List.filter (fun p => array_includes selectedSources (source p)) papers
     end) /\
  (forall p,
     p ∈ shown currentYear papers selectedSources sortBy
     <-> p ∈ papers /\ (selectedSources = [] \/ source p ∈ selectedSources)).
Proof.
  split; [apply applyFilterAndSort_perm | intros p; apply shown_elem].
Qed.

(** X21: the checkboxes offered are the sources of the fetched papers, each
    once; selecting one offered source alone shows at least one card; and
    with every offered box checked the cards are those shown with no box
    checked. *)
Theorem offered_sources_cover_the_papers (currentYear : Z)
    (papers : list Paper) (sortBy : string) :
  NoDup (sources papers) /\
  (forall s, s ∈ sources papers <-> exists p, p ∈ papers /\ source p = s) /\
  (forall s, s ∈ sources papers -> shown currentYear papers [s] sortBy <> []) /\
  shown currentYear papers (sources papers) sortBy
  = shown currentYear papers [] sortBy.
Proof.
  split; [|split; [|split]].
  - unfold sources, set_from. apply set_from_spec. constructor.
  - apply sources_elem.
  - intros s Hs Hnil. apply sources_elem in Hs as (p & Hp & Hsrc).
    assert (p ∈ shown currentYear papers [s] sortBy) as Hin.
    { apply shown_elem. split; [exact Hp|]. right. rewrite Hsrc.
      apply list_elem_of_here. }
    rewrite Hnil in Hin. inversion Hin.
  - unfold applyFilterAndSort. cbv zeta.
    assert ((if (0 <? length (sources papers))%nat
             then List.filter
                    (fun p => array_includes (sources papers) (source p)) papers
             else papers) = papers) as ->; [|reflexivity].
    destruct (0 <? length (sources papers))%nat; [|reflexivity].
    apply filter_all. intros p Hp. apply array_includes_elem, sources_elem.
    eauto.
Qed.

(** ** The numeric sort modes *)

Lemma js_sort_descending {A : Type} (key : A -> Z) (l : list A) :
  StronglySorted (fun a b => (key b <= key a)%Z)
                 (js_sort (fun a b => (0 <? key b - key a)%Z) l).
Proof.
  eapply StronglySorted_weaken; [|apply js_sort_sorted].
  - intros a b H. unfold in_order in H. apply Z.ltb_ge in H. lia.
  - intros a b H. apply Z.ltb_lt in H. apply Z.ltb_ge. lia.
  - intros a b c H1 H2. apply Z.ltb_ge in H1, H2. apply Z.ltb_ge. lia.
Qed.

Lemma js_sort_ascending {A : Type} (key : A -> Z) (l : list A) :
  StronglySorted (fun a b => (key a <= key b)%Z)
                 (js_sort (fun a b => (0 <? key a - key b)%Z) l).
Proof.
  eapply StronglySorted_weaken; [|apply js_sort_sorted].
  - intros a b H. unfold in_order in H. apply Z.ltb_ge in H. lia.
  - intros a b H. apply Z.ltb_lt in H. apply Z.ltb_ge. lia.
  - intros a b c H1 H2. apply Z.ltb_ge in H1, H2. apply Z.ltb_ge. lia.
Qed.

(** X22: the four numeric sort modes order the cards by their key: "Newest"
    by year descending, "Oldest" by year ascending (so papers of unknown
    year, which carry year 0, come first), "Most Cited" by citations
    descending and "Least Cited" by citations ascending. *)
Theorem numeric_sort_modes_order_the_cards (currentYear : Z)
    (papers : list Paper) (selectedSources : list string) :
  StronglySorted (fun a b => (year b <= year a)%Z)
    (shown currentYear papers selectedSources "Newest") /\
  StronglySorted (fun a b => (year a <= year b)%Z)
    (shown currentYear papers selectedSources "Oldest") /\
  StronglySorted (fun a b => (citations b <= citations a)%N)
    (shown currentYear papers selectedSources "Most Cited") /\
  StronglySorted (fun a b => (citations a <= citations b)%N)
    (shown currentYear papers selectedSources "Least Cited").
Proof.
  split; [|split; [|split]]; sort_mode.
  - apply (js_sort_descending year).
  - apply (js_sort_ascending year).
  - eapply StronglySorted_weaken;
      [|apply (js_sort_descending (fun p => Z.of_N (citations p)))].
    cbn. intros a b H. lia.
  - eapply StronglySorted_weaken;
      [|apply (js_sort_ascending (fun p => Z.of_N (citations p)))].
    cbn. intros a b H. lia.
Qed.

(** ** The index a card sends *)

(** X23: a card sends its position in the FILTERED AND SORTED list, and the
    server reads the index in its own ranked array.  After a computed
    [/papers] answer, let a source filter be set that leaves out the paper
    at position [idx] of the answer, and let a card be shown at position
    [idx].  Then "See Related Papers" on that card is answered for the
    left-out paper, which is on no card, and not for the paper of the
    card. *)
Theorem card_asks_about_a_paper_not_shown
    (tfidf : list string -> string -> nat -> Q) (w : World)
    (serverYear clientYear : Z) (q : option string) (s : Server)
    (selectedSources : list string) (sortBy : string) (idx : nat)
    (hidden displayed : Paper) :
  get_property (topicCache s) (or_text q "") = Undefined ->
  ranked_papers w serverYear q !! idx = Some hidden ->
  selectedSources <> [] ->
  source hidden ∉ selectedSources ->
  shown clientYear (ranked_papers w serverYear q) selectedSources sortBy !! idx
  = Some displayed ->
  (papers_handler w serverYear q s).1.1
  = PapersJson (ranked_papers w serverYear q) /\
  (hidden ∉ shown clientYear (ranked_papers w serverYear q) selectedSources
              sortBy) /\
  displayed <> hidden /\
  exists related,
    related_handler tfidf (card_index idx) (serve s (GetPapers w serverYear q))
    = RelatedJson hidden related.
Proof.
  intros Hmiss Hhid Hsel Hsrc Hcard.
  assert (hidden ∉ shown clientYear (ranked_papers w serverYear q)
                     selectedSources sortBy) as Hnot.
  { intros Hin. apply shown_elem in Hin as [_ [H|H]]; contradiction. }
  split; [now rewrite (papers_handler_miss w serverYear q s Hmiss)|].
  split; [exact Hnot|]. split.
  - intros ->. apply Hnot. eapply list_elem_of_lookup_2. exact Hcard.
  - assert (deref (serve s (GetPapers w serverYear q))
                  (cachedPapers (serve s (GetPapers w serverYear q)))
            = ranked_papers w serverYear q) as Hcorpus.
    { cbn [serve]. rewrite (papers_handler_miss w serverYear q s Hmiss).
      unfold deref. cbn [fst snd heap cachedPapers].
      now rewrite list_lookup_middle. }
    unfold related_handler, card_index. rewrite Hcorpus.
    rewrite (proj2 (array_get_some _ (Z.of_nat idx) hidden))
      by (split; [lia | now rewrite Nat2Z.id]).
    eexists. reflexivity.
Qed.

End ClientFacts.

Lemma arxiv_and_springer_ranked :
  ranked_papers arxiv_and_springer 2026 (Some "ai")
  = [attention_paper; kernels_paper].
Proof. vm_compute. reflexivity. Qed.

Lemma card_asks_about_a_paper_not_shown_witness :
  (papers_handler arxiv_and_springer 2026 (Some "ai") initial).1.1
  = PapersJson (ranked_papers arxiv_and_springer 2026 (Some "ai")) /\
  (attention_paper
     ∉ applyFilterAndSort (fun _ _ _ => false) (fun _ _ => 0%Z) 2026
         (ranked_papers arxiv_and_springer 2026 (Some "ai")) ["Springer"]
         "Newest") /\
  kernels_paper <> attention_paper /\
  exists related,
    related_handler unit_tfidf (card_index 0)
      (serve initial (GetPapers arxiv_and_springer 2026 (Some "ai")))
    = RelatedJson attention_paper related.
Proof.
  apply (card_asks_about_a_paper_not_shown (fun _ _ _ => false) (fun _ _ => 0%Z)
           unit_tfidf arxiv_and_springer 2026 2026 (Some "ai") initial
           ["Springer"] "Newest" 0 attention_paper kernels_paper).
  - reflexivity.
  - rewrite arxiv_and_springer_ranked. reflexivity.
  - discriminate.
  - intros H. apply list_elem_of_singleton in H. discriminate H.
  - rewrite arxiv_and_springer_ranked. reflexivity.
Defined.

(** ** formatSummary *)

Lemma split_paragraphs_plain (s : ustring) :
  Forall (fun c => c <> 10%N) s -> split_paragraphs s = [s].
Proof.
  induction 1 as [|c r Hc Hr IH]; [reflexivity|].
  cbn [split_paragraphs]. destruct r as [|c' r']; [reflexivity|].
  rewrite (proj2 (N.eqb_neq c 10) Hc). cbn [andb]. now rewrite IH.
Qed.

Lemma strong_upto_plain (n : nat) (s : ustring) :
  Forall (fun c => c <> 42%N) s -> strong_upto n s = s.
Proof.
  revert s. induction n as [|n IH]; intros s Hs; [reflexivity|].
  destruct Hs as [|c r Hc Hr]; [reflexivity|].
  cbn [strong_upto]. destruct r as [|c' r']; [reflexivity|].
  rewrite (proj2 (N.eqb_neq c 42) Hc). cbn [andb]. f_equal. now apply IH.
Qed.

Lemma closing_length (s capture rest : ustring) :
  closing s = Some (capture, rest) -> (length rest < length s)%nat.
Proof.
  revert capture rest. induction s as [|c r IH]; intros capture rest; [discriminate|].
  cbn [closing]. destruct r as [|c' r']; [discriminate|].
  destruct ((c =? 42) && (c' =? 42))%N.
  - intros [= _ <-]. cbn [length]. lia.
  - destruct (is_line_terminator c); [discriminate|].
    destruct (closing (c' :: r')) as [[cap rst]|] eqn:E; [|discriminate].
    intros [= _ <-]. specialize (IH cap rst eq_refl). cbn [length] in *. lia.
Qed.

(** The bound of [strong] is enough: a larger one gives the same text. *)
Lemma strong_upto_enough (n m : nat) (s : ustring) :
  (length s <= n)%nat -> (length s <= m)%nat ->
  strong_upto n s = strong_upto m s.
Proof.
  revert m s. induction n as [|n IH]; intros m s Hn Hm.
  - destruct s; [|cbn [length] in Hn; lia]. destruct m; reflexivity.
  - destruct m as [|m]; [destruct s; [reflexivity | cbn [length] in Hm; lia]|].
    destruct s as [|c r]; [reflexivity|]. cbn [length] in Hn, Hm.
    cbn [strong_upto]. destruct r as [|c' r']; [reflexivity|].
    assert (strong_upto n (c' :: r') = strong_upto m (c' :: r')) as Hr
      by (apply IH; lia).
    destruct ((c =? 42) && (c' =? 42))%N; [|now rewrite Hr].
    destruct (closing r') as [[capture rest]|] eqn:E; [|now rewrite Hr].
    apply closing_length in E. cbn [length] in Hn, Hm.
    rewrite (IH m rest) by lia. reflexivity.
Qed.

(** X24: the summary the server returns is shown as one paragraph whose
    HTML is the returned text itself: it is not split, and the conversion
    of double asterisks to bold never applies to it, since the server has
    replaced every asterisk and line feed. *)
Theorem cleaned_summary_is_shown_as_is (generated : ustring) :
  formatSummary (clean_summary generated) = [clean_summary generated].
Proof.
  destruct (one_paragraph_tidy (strip_preamble generated)) as (Hall & _).
  fold (clean_summary generated) in Hall.
  assert (Forall (fun c => c <> 10%N /\ c <> 42%N) (clean_summary generated))
    as Hplain.
  { eapply Forall_impl; [exact Hall|]. cbn. intros c [Hm _].
    unfold is_markup in Hm.
    apply orb_false_elim in Hm as [Hm _]. apply orb_false_elim in Hm as [H1 H2].
    apply N.eqb_neq in H1, H2. auto. }
  unfold formatSummary. rewrite split_paragraphs_plain.
  - cbn [map]. unfold strong. rewrite strong_upto_plain; [reflexivity|].
    eapply Forall_impl; [exact Hplain|]. cbn. tauto.
  - eapply Forall_impl; [exact Hplain|]. cbn. tauto.
Qed.
